(** * Function rewriting engine: registry resolution and live substitution

    A shallow embedding of [deployment/core/rewriters/rewriter_utils.py] and
    [deployment/core/rewriters/function_rewriter.py].  Python exceptions are
    values of an error monad, the insertion-ordered [dict] holding the rewrite
    records is an association list with unique keys, and the interpreter's live
    object graph is a heap of objects addressed by identity. *)

From stdpp Require Import base option list strings gmap.
From Stdlib Require Import Ascii Lia.

Open Scope string_scope.
Open Scope nat_scope.
Open Scope list_scope.

(** ** Exceptions and the error monad *)

Inductive exn :=
| KeyError | ValueError | AttributeError | AssertionError
| NameError | SyntaxError | TypeError | IndexError | InvalidVersion.

Inductive result (A : Type) :=
| Ok (a : A)
| Raise (e : exn).
Arguments Ok {A} a.
Arguments Raise {A} e.

#[global] Instance result_ret : MRet result := fun A a => Ok a.
#[global] Instance result_bind : MBind result := fun A B f m =>
  match m with
  | Ok a => f a
  | Raise e => Raise e
  end.

Definition is_Ok {A} (r : result A) : Prop := ∃ a, r = Ok a.

(** ** Insertion-ordered dictionaries

    A Python [dict] iterates in insertion order and holds each key once. *)

Module PyDict.
Section Ops.
Context {V : Type}.

Definition t := list (string * V).

Definition keys (d : t) : list string := d.*1.

Definition wf (d : t) : Prop := NoDup (keys d).

Fixpoint get (k : string) (d : t) : option V :=
  match d with
  | [] => None
  | (k', v) :: d' => if decide (k' = k) then Some v else get k d'
  end.

(** [d[k] = v]: overwrite in place, or append a new key at the end. *)
Fixpoint set (k : string) (v : V) (d : t) : t :=
  match d with
  | [] => [(k, v)]
  | (k', v') :: d' =>
      if decide (k' = k) then (k', v) :: d' else (k', v') :: set k v d'
  end.

(** [d.pop(k)] for a key known to be present. *)
Fixpoint pop (k : string) (d : t) : t :=
  match d with
  | [] => []
  | (k', v') :: d' => if decide (k' = k) then d' else (k', v') :: pop k d'
  end.
End Ops.
Arguments t : clear implicits.
End PyDict.

(** ** Environments and checkers *)

(** Values an environment dictionary holds: the backend and IR enumeration
    members (identified by their value token), version strings, and [None] for
    a library that is not installed. *)
Inductive pyval :=
| VBackend (token : string)
| VIR (token : string)
| VStr (s : string)
| VNone.

#[global] Instance pyval_eq_dec : EqDecision pyval.
Proof. solve_decision. Defined.

Abbreviation Env := (gmap string pyval).

(** [env[k]] *)
Definition env_getitem (env : Env) (k : string) : result pyval :=
  match env !! k with
  | Some v => Ok v
  | None => Raise KeyError
  end.

(** *** [packaging.version] on release-only version strings

    The external [packaging] library is modelled on the versions the checkers
    are used with: dot-separated decimal segments.  A release compares as the
    tuple of its segments with trailing zeros dropped. *)

Definition digit_of (c : ascii) : option nat :=
  let n := nat_of_ascii c in
  if (48 <=? n) && (n <=? 57) then Some (n - 48) else None.

Fixpoint parse_release (s : string) (cur : option nat) (acc : list nat)
  : option (list nat) :=
  match s with
  | EmptyString =>
      match cur with
      | Some n => Some (rev (n :: acc))
      | None => None
      end
  | String c s' =>
      if decide (c = "."%char) then
        match cur with
        | Some n => parse_release s' None (n :: acc)
        | None => None
        end
      else
        match digit_of c with
        | Some d => parse_release s' (Some (10 * default 0 cur + d)) acc
        | None => None
        end
  end.

Fixpoint drop_zeros (l : list nat) : list nat :=
  match l with
  | 0 :: l' => drop_zeros l'
  | _ => l
  end.

Definition Version := list nat.

Definition version_parse (s : string) : result Version :=
  match parse_release s None [] with
  | Some segs => Ok (rev (drop_zeros (rev segs)))
  | None => Raise InvalidVersion
  end.

(** Tuple comparison: lexicographic, a proper prefix is smaller. *)
Fixpoint version_lt (a b : Version) : bool :=
  match a, b with
  | [], [] => false
  | [], _ :: _ => true
  | _ :: _, [] => false
  | x :: a', y :: b' =>
      if x <? y then true else if y <? x then false else version_lt a' b'
  end.

Inductive Checker :=
| BackendChecker (required_backend : string)
| IRChecker (required_ir : string)
| LibVersionChecker (lib : string) (min_version max_version : option string).

#[global] Instance Checker_eq_dec : EqDecision Checker.
Proof. solve_decision. Defined.

(** The version of an installed library, as [version.parse(env[lib])]. *)
Definition env_version (v : pyval) : result Version :=
  match v with
  | VStr s => version_parse s
  | _ => Raise TypeError
  end.

Definition LibVersionChecker_check
    (lib : string) (min_version max_version : option string) (env : Env)
  : result bool :=
  v ← env_getitem env lib;
  if decide (v = VNone) then Ok false else
  let valid := true in
  valid ← match min_version with
          | Some m =>
              cur ← env_version v;
              lo ← version_parse m;
              Ok (if version_lt cur lo then false else valid)
          | None => Ok valid
          end;
  match max_version with
  | Some m =>
      cur ← env_version v;
      hi ← version_parse m;
      Ok (if version_lt hi cur then false else valid)
  | None => Ok valid
  end.

Definition check (c : Checker) (env : Env) : result bool :=
  match c with
  | BackendChecker required_backend =>
      v ← env_getitem env "backend";
      Ok (bool_decide (v = VBackend required_backend))
  | IRChecker required_ir =>
      v ← env_getitem env "ir";
      Ok (bool_decide (v = VIR required_ir))
  | LibVersionChecker lib min_version max_version =>
      LibVersionChecker_check lib min_version max_version env
  end.

(** ** RewriterRegistry *)

(** A record dictionary: the registered object (by identity), its checkers
    and the remaining keyword metadata. *)
Record RewriteRecord := {
  _object : nat;
  _checkers : list Checker;
  kwargs : gmap string pyval;
}.

#[global] Instance RewriteRecord_eq_dec : EqDecision RewriteRecord.
Proof. solve_decision. Defined.

(** [_rewrite_records]: function path to the list of its records. *)
Definition Registry := PyDict.t (list RewriteRecord).

Definition warn_multiple_default (origin_function : string) : string :=
  "Detect multiple valid rewriters for " +:+ origin_function
    +:+ ", use the first rewriter.".

Definition warn_multiple_valid (origin_function : string) : string :=
  "Detect multiple valid rewriters for" +:+ origin_function
    +:+ ", use the first rewriter.".

(** The loop over the checkers of one record, leaving at the first check
    that fails. *)
Fixpoint all_checks (env : Env) (checkers : list Checker) : result bool :=
  match checkers with
  | [] => Ok true
  | checker :: rest =>
      b ← check checker env;
      if (b : bool) then all_checks env rest else Ok false
  end.

(** What the loop over the records of one path carries. *)
Record scan_state := {
  default_rewriter : option RewriteRecord;
  final_rewriter : option RewriteRecord;
  warned : list string;
}.

Fixpoint scan_records (env : Env) (origin_function : string)
    (rewriter_records : list RewriteRecord) (st : scan_state)
  : result scan_state :=
  match rewriter_records with
  | [] => Ok st
  | record :: rest =>
      let checkers := _checkers record in
      if decide (length checkers = 0) then
        match default_rewriter st with
        | None =>
            scan_records env origin_function rest
              {| default_rewriter := Some record;
                 final_rewriter := final_rewriter st;
                 warned := warned st |}
        | Some _ =>
            scan_records env origin_function rest
              {| default_rewriter := default_rewriter st;
                 final_rewriter := final_rewriter st;
                 warned := warned st ++ [warn_multiple_default origin_function] |}
        end
      else
        valid ← all_checks env checkers;
        if (valid : bool) then
          match final_rewriter st with
          | Some _ =>
              scan_records env origin_function rest
                {| default_rewriter := default_rewriter st;
                   final_rewriter := final_rewriter st;
                   warned := warned st ++ [warn_multiple_valid origin_function] |}
          | None =>
              scan_records env origin_function rest
                {| default_rewriter := default_rewriter st;
                   final_rewriter := Some record;
                   warned := warned st |}
          end
        else scan_records env origin_function rest st
  end.

(** The result of resolution, before the two lists are joined. *)
Record resolved := {
  default_records : list (string * RewriteRecord);
  records : list (string * RewriteRecord);
  warnings : list string;
}.

Fixpoint get_records_loop (env : Env) (items : Registry) (acc : resolved)
  : result resolved :=
  match items with
  | [] => Ok acc
  | (origin_function, rewriter_records) :: rest =>
      st ← scan_records env origin_function rewriter_records
              {| default_rewriter := None; final_rewriter := None;
                 warned := warnings acc |};
      match final_rewriter st with
      | Some final =>
          get_records_loop env rest
            {| default_records := default_records acc;
               records := records acc ++ [(origin_function, final)];
               warnings := warned st |}
      | None =>
          match default_rewriter st with
          | Some dflt =>
              get_records_loop env rest
                {| default_records :=
                     default_records acc ++ [(origin_function, dflt)];
                   records := records acc;
                   warnings := warned st |}
          | None =>
              get_records_loop env rest
                {| default_records := default_records acc;
                   records := records acc;
                   warnings := warned st |}
          end
      end
  end.

Definition resolve (R : Registry) (env : Env) : result resolved :=
  get_records_loop env R
    {| default_records := []; records := []; warnings := [] |}.

(** [get_records]: the returned list, and the warnings issued on the way. *)
Definition get_records (R : Registry) (env : Env)
  : result (list (string * RewriteRecord) * list string) :=
  res ← resolve R env;
  Ok (default_records res ++ records res, warnings res).

(** [DEFAULT] member of both enumerations, by its value token. *)
Definition DEFAULT : string := "default".

(** [_register] on the table as resolution reads it: the checker list is
    the value of the list that the caller gives. *)
Definition _register (R : Registry) (name backend ir : string)
    (extra_checkers : list Checker) (object : nat) (kw : gmap string pyval)
  : Registry :=
  let extra_checkers :=
    if decide (backend ≠ DEFAULT)
    then extra_checkers ++ [BackendChecker backend] else extra_checkers in
  let extra_checkers :=
    if decide (ir ≠ DEFAULT)
    then extra_checkers ++ [IRChecker ir] else extra_checkers in
  let record_dict :=
    {| _object := object; _checkers := extra_checkers; kwargs := kw |} in
  let R := match PyDict.get name R with
           | None => PyDict.set name [] R
           | Some _ => R
           end in
  PyDict.set name (default [] (PyDict.get name R) ++ [record_dict]) R.

(** [list.remove]: drop the first element equal to [x]. *)
Fixpoint list_remove (x : RewriteRecord) (l : list RewriteRecord)
  : result (list RewriteRecord) :=
  match l with
  | [] => Raise ValueError
  | y :: l' =>
      if decide (y = x) then Ok l'
      else l'' ← list_remove x l'; Ok (y :: l'')
  end.

(** First loop of [remove_record]: the (key, record) pairs to drop. *)
Definition key_to_pop (R : Registry) (object : nat)
    (filter_cb : option (RewriteRecord → bool))
  : list (string * RewriteRecord) :=
  flat_map (λ '(key, recs),
    flat_map (λ rec,
      if decide (_object rec = object) then
        match filter_cb with
        | Some cb => if cb rec then [] else [(key, rec)]
        | None => [(key, rec)]
        end
      else []) recs) R.

(** Second loop: the list stored under [key] is mutated in place, and the
    key is popped when the list becomes empty. *)
Fixpoint pop_records (todo : list (string * RewriteRecord)) (R : Registry)
  : result Registry :=
  match todo with
  | [] => Ok R
  | (key, rec) :: rest =>
      match PyDict.get key R with
      | None => Raise KeyError
      | Some recs =>
          recs' ← list_remove rec recs;
          if decide (length recs' = 0)
          then pop_records rest (PyDict.pop key R)
          else pop_records rest (PyDict.set key recs' R)
      end
  end.

Definition remove_record (R : Registry) (object : nat)
    (filter_cb : option (RewriteRecord → bool)) : result Registry :=
  pop_records (key_to_pop R object filter_cb) R.

(** ** The live object graph

    Objects are addressed by identity.  Modules and classes carry their own
    attribute dictionary, a class also the rest of its method resolution
    order; plain dictionaries and lists are the containers that
    [gc.get_referrers] reports besides them.  Attribute access is modelled
    on modules and classes: a path is a chain of names through packages,
    modules and classes down to a function.

    The graph is that of a process in which the modules that the paths name
    are loaded already: an import binds a loaded module and loads none.  A
    dotted name is evaluated from the name that the import has bound; the
    variables of the evaluating function, the globals of its module and the
    builtins are taken not to be the first name of a path.  Attribute lookup
    is that of plain classes, through the dictionaries along the resolution
    order, without descriptors or a metaclass.  The dictionaries of the
    rewriter's own bookkeeping (records and contexts) are kept outside the
    heap. *)

Record PyFunction := {
  __module__ : string;
  __qualname__ : string;
  __name__ : string;
  __globals__ : nat;
}.

Inductive pyobj :=
| PFunction (f : PyFunction)
| PModule (d : gmap string nat)
| PClass (d : gmap string nat) (mro : list nat)
| PDict (d : gmap string nat)
| PList (l : list nat).

(** A context caller; [func] and [origin_func] are object identities. *)
Record ContextCaller := {
  func : nat;
  origin_func : nat;
  cfg : gmap string pyval;
  ctx_record : RewriteRecord;
  ctx_kwargs : gmap string pyval;
}.

(** The attributes of the rewriter object.  Those that only [enter] creates
    are absent ([None]) until it has run. *)
Record FunctionRewriter := {
  _registry : Registry;
  _func_contexts : PyDict.t (list ContextCaller);
  _ori_fx_wrap_num : option nat;
  _origin_functions : option (list (string * nat));
  _additional_functions : option (list string);
}.

(** The process state: the heap, the loaded top-level modules, the tracing
    allowlist of [torch.fx], the diagnostic channel and the rewriter. *)
Record World := {
  heap : gmap nat pyobj;
  sys_modules : gmap string nat;
  _wrapped_fns_to_patch : list (nat * string);
  log : list string;
  rewriter : FunctionRewriter;
}.

Definition set_heap (h : gmap nat pyobj) (w : World) : World :=
  {| heap := h; sys_modules := sys_modules w;
     _wrapped_fns_to_patch := _wrapped_fns_to_patch w;
     log := log w; rewriter := rewriter w |}.

Definition set_patch (l : list (nat * string)) (w : World) : World :=
  {| heap := heap w; sys_modules := sys_modules w;
     _wrapped_fns_to_patch := l; log := log w; rewriter := rewriter w |}.

Definition add_log (msgs : list string) (w : World) : World :=
  {| heap := heap w; sys_modules := sys_modules w;
     _wrapped_fns_to_patch := _wrapped_fns_to_patch w;
     log := log w ++ msgs; rewriter := rewriter w |}.

Definition set_rewriter (r : FunctionRewriter) (w : World) : World :=
  {| heap := heap w; sys_modules := sys_modules w;
     _wrapped_fns_to_patch := _wrapped_fns_to_patch w;
     log := log w; rewriter := r |}.

(** *** Statements that change the process state and may raise *)

Definition M (A : Type) : Type := World → World * result A.

Definition retM {A} (a : A) : M A := λ w, (w, Ok a).
Definition raiseM {A} (e : exn) : M A := λ w, (w, Raise e).
Definition bindM {A B} (m : M A) (f : A → M B) : M B := λ w,
  match m w with
  | (w', Ok a) => f a w'
  | (w', Raise e) => (w', Raise e)
  end.
Definition readM {A} (f : World → result A) : M A := λ w, (w, f w).
Definition modifyM (f : World → World) : M unit := λ w, (f w, Ok tt).

Notation "'let*' x := m 'in' k" := (bindM m (λ x, k))
  (at level 10, x name, m at level 100, k at level 200, only parsing).

(** *** Paths *)

(** [path.split('.')] *)
Fixpoint split_from (s : string) (cur : string) : list string :=
  match s with
  | EmptyString => [cur]
  | String c s' =>
      if decide (c = "."%char) then cur :: split_from s' ""
      else split_from s' (cur +:+ String c "")
  end.

Definition split (path : string) : list string := split_from path "".

Definition is_module (w : World) (o : nat) : bool :=
  match heap w !! o with Some (PModule _) => true | _ => false end.

Definition is_class (w : World) (o : nat) : bool :=
  match heap w !! o with Some (PClass _ _) => true | _ => false end.

Definition is_function (w : World) (o : nat) : bool :=
  match heap w !! o with Some (PFunction _) => true | _ => false end.

(** The first class along a resolution order that defines [name] itself. *)
Fixpoint mro_lookup (h : gmap nat pyobj) (classes : list nat) (name : string)
  : option nat :=
  match classes with
  | [] => None
  | c :: rest =>
      match h !! c with
      | Some (PClass d _) =>
          match d !! name with
          | Some v => Some v
          | None => mro_lookup h rest name
          end
      | _ => mro_lookup h rest name
      end
  end.

Definition getattr (w : World) (o : nat) (name : string) : result nat :=
  match heap w !! o with
  | Some (PModule d) =>
      match d !! name with Some v => Ok v | None => Raise AttributeError end
  | Some (PClass d mro) =>
      match mro_lookup (heap w) (o :: mro) name with
      | Some v => Ok v
      | None => Raise AttributeError
      end
  | _ => Raise AttributeError
  end.

Fixpoint getattr_chain (w : World) (o : nat) (names : list string) : result nat :=
  match names with
  | [] => Ok o
  | name :: rest => o' ← getattr w o name; getattr_chain w o' rest
  end.

(** [exec('import a.b.c')]: every component is a loaded module. *)
Fixpoint module_chain (w : World) (o : nat) (names : list string) : bool :=
  is_module w o &&
  match names with
  | [] => true
  | name :: rest =>
      match getattr w o name with
      | Ok o' => module_chain w o' rest
      | Raise _ => false
      end
  end.

Definition exec_import (w : World) (names : list string) : bool :=
  match names with
  | [] => false
  | name :: rest =>
      match sys_modules w !! name with
      | Some m => module_chain w m rest
      | None => false
      end
  end.

(** The loop [for i in range(len(split_path), 0, -1)] trying to import each
    prefix, longest first; a successful import binds the top-level name. *)
Definition import_loop (w : World) (split_path : list string) : bool :=
  existsb (λ i, exec_import w (take i split_path))
          (rev (seq 1 (length split_path))).

(** [eval] of a dotted name, with the top-level name bound or not. *)
Definition eval (w : World) (bound : bool) (names : list string) : result nat :=
  match names with
  | [] => Raise SyntaxError
  | name :: rest =>
      if existsb (String.eqb "") names then Raise SyntaxError
      else if bound then
        match sys_modules w !! name with
        | Some m => getattr_chain w m rest
        | None => Raise NameError
        end
      else Raise NameError
  end.

Definition eval_with_import (w : World) (path : string) : result nat :=
  let split_path := split path in
  eval w (import_loop w split_path) split_path.

Definition import_function (w : World) (path : string)
  : result (nat * option nat) :=
  let split_path := split path in
  let bound := import_loop w split_path in
  obj ← eval w bound split_path;
  previous_obj ← eval w bound (removelast split_path);
  if is_class w previous_obj then Ok (obj, Some previous_obj)
  else Ok (obj, None).

(** *** Substitution in the graph *)

Definition replace_value (obj new_obj : nat) (v : nat) : nat :=
  if decide (v = obj) then new_obj else v.

Definition replace_in_dict (obj new_obj : nat) (ignore_keys : list string)
    (d : gmap string nat) : gmap string nat :=
  map_imap (λ k v,
    Some (if decide (k ∈ ignore_keys) then v else replace_value obj new_obj v)) d.

Definition replace_in_ref (obj new_obj : nat) (ignore_keys : list string)
    (ref : pyobj) : pyobj :=
  match ref with
  | PList l => PList (replace_value obj new_obj <$> l)
  | PDict d => PDict (replace_in_dict obj new_obj ignore_keys d)
  | PModule d => PModule (replace_in_dict obj new_obj ignore_keys d)
  | PClass d mro => PClass (replace_in_dict obj new_obj ignore_keys d) mro
  | PFunction f => PFunction f
  end.

(** Every list and dictionary that refers to [obj] is a referrer; the others
    are left as they are by the replacement.  The referrers to ignore are
    told by identity; the session gives none. *)
Definition _replace_all_obj (obj new_obj : nat)
    (ignore_refs : list nat) (ignore_keys : list string) : M unit :=
  modifyM (λ w,
    set_heap
      (map_imap (λ ref o,
         Some (if decide (ref ∈ ignore_refs) then o
               else replace_in_ref obj new_obj ignore_keys o)) (heap w)) w).

(** Attribute assignment and deletion on a module or a class write the
    object's own dictionary. *)
Definition setattr (o : nat) (name : string) (v : nat) : M unit := λ w,
  match heap w !! o with
  | Some (PModule d) =>
      (set_heap (<[o := PModule (<[name := v]> d)]> (heap w)) w, Ok tt)
  | Some (PClass d mro) =>
      (set_heap (<[o := PClass (<[name := v]> d) mro]> (heap w)) w, Ok tt)
  | _ => (w, Raise AttributeError)
  end.

Definition delattr (o : nat) (name : string) : M unit := λ w,
  match heap w !! o with
  | Some (PModule d) =>
      match d !! name with
      | Some _ => (set_heap (<[o := PModule (delete name d)]> (heap w)) w, Ok tt)
      | None => (w, Raise AttributeError)
      end
  | Some (PClass d mro) =>
      match d !! name with
      | Some _ => (set_heap (<[o := PClass (delete name d) mro]> (heap w)) w, Ok tt)
      | None => (w, Raise AttributeError)
      end
  | _ => (w, Raise AttributeError)
  end.

(** [exec(f'{path} = rewrite_func')]; a single name is bound locally and
    leaves the graph alone. *)
Definition exec_assign (bound : bool) (split_path : list string) (v : nat)
  : M unit :=
  if existsb (String.eqb "") split_path then raiseM SyntaxError else
  match last split_path with
  | None => raiseM SyntaxError
  | Some name =>
      if decide (length split_path = 1) then retM tt
      else
        let* target := readM (λ w, eval w bound (removelast split_path)) in
        setattr target name v
  end.

(** [exec(f'del {path}')] *)
Definition exec_del (bound : bool) (split_path : list string) : M unit :=
  if existsb (String.eqb "") split_path then raiseM SyntaxError else
  match last split_path with
  | None => raiseM SyntaxError
  | Some name =>
      if decide (length split_path = 1) then
        (if bound then retM tt else raiseM NameError)
      else
        let* target := readM (λ w, eval w bound (removelast split_path)) in
        delattr target name
  end.

Definition _set_func (origin_func_path : string) (rewrite_func : nat)
    (ignore_refs : list nat) (ignore_keys : list string) : M unit :=
  let split_path := split origin_func_path in
  let* bound := readM (λ w, Ok (import_loop w split_path)) in
  let* origin_func := readM (λ w, eval w bound split_path) in
  let* method_class :=
    (if decide (1 < length split_path) then
       let* module_or_class :=
         readM (λ w, eval w bound (removelast split_path)) in
       readM (λ w, Ok (is_class w module_or_class))
     else retM false) in
  let* _ :=
    (if (method_class : bool) then retM tt
     else _replace_all_obj origin_func rewrite_func ignore_refs ignore_keys) in
  exec_assign bound split_path rewrite_func.

(** The loop of [_del_func]: import the prefix and delete, leaving the loop
    when both went through and going on to the next prefix otherwise. *)
Fixpoint _del_func_loop (split_path : list string) (indices : list nat)
  : M unit := λ w,
  match indices with
  | [] => (w, Ok tt)
  | i :: rest =>
      if exec_import w (take i split_path) then
        match exec_del true split_path w with
        | (w', Ok _) => (w', Ok tt)
        | (w', Raise _) => _del_func_loop split_path rest w'
        end
      else _del_func_loop split_path rest w
  end.

Definition _del_func (path : string) : M unit :=
  let split_path := split path in
  _del_func_loop split_path (rev (seq 1 (length split_path))).

(** *** Copies of functions *)

(** The dictionary an object can serve as for [__globals__]. *)
Definition dict_of (w : World) (o : nat) : option (gmap string nat) :=
  match heap w !! o with
  | Some (PModule d) | Some (PDict d) => Some d
  | _ => None
  end.

(** [copy_function]: a new function over a copy of the globals, in which
    the function's own name is rebound to the copy. *)
Definition copy_function (f : nat) : M nat := λ w,
  match heap w !! f with
  | Some (PFunction fn) =>
      match dict_of w (__globals__ fn) with
      | Some d =>
          let glb := fresh (dom (heap w)) in
          let g := fresh ({[glb]} ∪ dom (heap w)) in
          let copied :=
            {| __module__ := __module__ fn; __qualname__ := __qualname__ fn;
               __name__ := __name__ fn; __globals__ := glb |} in
          (set_heap
             (<[g := PFunction copied]>
                (<[glb := PDict (<[__name__ fn := g]> d)]> (heap w))) w,
           Ok g)
      | None => (w, Raise AttributeError)
      end
  | _ => (w, Raise AttributeError)
  end.

(** Dictionary equality as [in] applies it to globals: the same object, or
    the same names bound to the same objects. *)
Definition same_dict (w : World) (a b : nat) : bool :=
  bool_decide (a = b) ||
  match dict_of w a, dict_of w b with
  | Some da, Some db => bool_decide (da = db)
  | _, _ => false
  end.

Definition _fx_wrap_copied_fn (func copied_func : nat) : M unit := λ w,
  match heap w !! func with
  | Some (PFunction fn) =>
      match list_find (λ item, same_dict w (__globals__ fn) item.1 = true)
                      (_wrapped_fns_to_patch w) with
      | Some (idx, item) =>
          let fn_name := item.2 in
          match heap w !! copied_func with
          | Some (PFunction cf) =>
              (set_patch (_wrapped_fns_to_patch w ++ [(__globals__ cf, fn_name)]) w,
               Ok tt)
          | _ => (w, Raise AttributeError)
          end
      | None => (w, Ok tt)
      end
  | _ => (w, Ok tt)
  end.

Definition get_func_qualname (w : World) (func : nat) : result string :=
  match heap w !! func with
  | Some (PFunction fn) => Ok (__module__ fn +:+ "." +:+ __qualname__ fn)
  | _ => Raise AssertionError
  end.

(** A frame record of [inspect.stack()]. *)
Record FrameInfo := {
  function : string;
  f_globals : gmap string nat;
}.

Definition get_frame_func (stack : list FrameInfo) (top : nat) : result nat :=
  match stack !! top with
  | None => Raise IndexError
  | Some frameinfo =>
      match f_globals frameinfo !! function frameinfo with
      | Some func => Ok func
      | None => Raise AssertionError
      end
  end.

(** ** FunctionRewriter *)

(** [__init__]: an empty registry and no contexts; nothing else is set. *)
Definition __init__ : FunctionRewriter :=
  {| _registry := []; _func_contexts := [];
     _ori_fx_wrap_num := None; _origin_functions := None;
     _additional_functions := None |}.

Definition with_func_contexts (c : PyDict.t (list ContextCaller))
    (r : FunctionRewriter) : FunctionRewriter :=
  {| _registry := _registry r; _func_contexts := c;
     _ori_fx_wrap_num := _ori_fx_wrap_num r;
     _origin_functions := _origin_functions r;
     _additional_functions := _additional_functions r |}.

Definition with_ori_fx_wrap_num (n : nat) (r : FunctionRewriter)
  : FunctionRewriter :=
  {| _registry := _registry r; _func_contexts := _func_contexts r;
     _ori_fx_wrap_num := Some n;
     _origin_functions := _origin_functions r;
     _additional_functions := _additional_functions r |}.

Definition with_origin_functions (l : list (string * nat))
    (r : FunctionRewriter) : FunctionRewriter :=
  {| _registry := _registry r; _func_contexts := _func_contexts r;
     _ori_fx_wrap_num := _ori_fx_wrap_num r;
     _origin_functions := Some l;
     _additional_functions := _additional_functions r |}.

Definition with_additional_functions (l : list string)
    (r : FunctionRewriter) : FunctionRewriter :=
  {| _registry := _registry r; _func_contexts := _func_contexts r;
     _ori_fx_wrap_num := _ori_fx_wrap_num r;
     _origin_functions := _origin_functions r;
     _additional_functions := Some l |}.

Definition update_self (f : FunctionRewriter → FunctionRewriter) : M unit :=
  modifyM (λ w, set_rewriter (f (rewriter w)) w).

(** Reading an attribute of the rewriter that may not have been set. *)
Definition self_attr {A} (field : FunctionRewriter → option A) : M A :=
  readM (λ w,
    match field (rewriter w) with
    | Some a => Ok a
    | None => Raise AttributeError
    end).

Definition warn_not_found (function_path : string) : string :=
  "Can not find " +:+ function_path
    +:+ ", function rewrite will not be applied".

Definition warn_no_context (key : string) : string :=
  "Can not found context of " +:+ key.

(** The class holds the attribute in its own dictionary. *)
Definition in_class_dict (w : World) (cls : nat) (name : string) : bool :=
  match heap w !! cls with
  | Some (PClass d _) => bool_decide (is_Some (d !! name))
  | _ => false
  end.

(** The names that [type] and [object] provide for every class (CPython
    3.11), with [__doc__] and [__module__], which the class statement always
    puts into the dictionary of the class. *)
Definition type_attrs : list string :=
  [ "__annotations__"; "__base__"; "__bases__"; "__basicsize__"; "__call__";
    "__class__"; "__delattr__"; "__dict__"; "__dictoffset__"; "__dir__";
    "__doc__"; "__eq__"; "__flags__"; "__format__"; "__ge__";
    "__getattribute__"; "__getstate__"; "__gt__"; "__hash__"; "__init__";
    "__init_subclass__"; "__instancecheck__"; "__itemsize__"; "__le__";
    "__lt__"; "__module__"; "__mro__"; "__name__"; "__ne__"; "__new__";
    "__or__"; "__prepare__"; "__qualname__"; "__reduce__"; "__reduce_ex__";
    "__repr__"; "__ror__"; "__setattr__"; "__sizeof__"; "__str__";
    "__subclasscheck__"; "__subclasses__"; "__subclasshook__";
    "__text_signature__"; "__weakrefoffset__"; "mro" ].

(** [origin_class.__getattribute__(origin_class, function_name)] does not
    raise.  The call is [object.__getattribute__] with the class in the place
    of the instance: it finds what the class holds in its own dictionary and
    what [type] and [object] provide, and nothing that the class only
    inherits from its bases. *)
Definition has_own_attr (w : World) (cls : nat) (name : string) : bool :=
  match heap w !! cls with
  | Some (PClass d _) =>
      bool_decide (is_Some (d !! name)) || bool_decide (name ∈ type_attrs)
  | _ => false
  end.

(** The keywords that [ContextCaller(rewrite_function, origin_func, cfg,
    **extra_kwargs)] refuses with a [TypeError]: the names of the parameters
    of [__init__], which the call has given already, and the two attributes
    that [setattr] accepts only with a class or a dictionary as value. *)
Definition refused_keywords : list string :=
  ["self"; "func"; "origin_func"; "cfg"; "__class__"; "__dict__"].

(** [ContextCaller(rewrite_function, origin_func, cfg, **extra_kwargs)] with
    [extra_kwargs] the keywords of [enter] updated by the record.  The
    attribute [__weakref__] is not writable, which is an [AttributeError];
    when it comes together with [__class__] or [__dict__], the keyword that
    comes first decides which exception is raised: the dictionaries here do
    not keep the order of the keywords, and the [TypeError] is reported. *)
Definition new_ContextCaller (rewrite_function origin_func : nat)
    (cfg : gmap string pyval) (record_dict : RewriteRecord)
    (kw : gmap string pyval) : result ContextCaller :=
  let extra_kwargs := kwargs record_dict ∪ kw in
  if existsb (λ k, bool_decide (is_Some (extra_kwargs !! k))) refused_keywords
  then Raise TypeError
  else if bool_decide (is_Some (extra_kwargs !! "__weakref__"))
  then Raise AttributeError
  else Ok {| func := rewrite_function; origin_func := origin_func; cfg := cfg;
             ctx_record := record_dict; ctx_kwargs := extra_kwargs |}.

(** [self._func_contexts[key].append(ctx)] on the [defaultdict]. *)
Definition contexts_append (key : string) (ctx : ContextCaller)
    (c : PyDict.t (list ContextCaller)) : PyDict.t (list ContextCaller) :=
  PyDict.set key (default [] (PyDict.get key c) ++ [ctx]) c.

(** One round of the first loop of [enter]; the result is what the round
    adds to [new_functions]. *)
Definition enter_record (cfg kw : gmap string pyval)
    (item : string * RewriteRecord) : M (list (string * nat)) :=
  let function_path := item.1 in
  let record_dict := item.2 in
  let* found := (λ w,
    match import_function w function_path with
    | Ok oc => (w, Ok (Some oc))
    | Raise _ => (add_log [warn_not_found function_path] w, Ok None)
    end) in
  match found with
  | None => retM []
  | Some (origin_func, origin_class) =>
      let* is_addition_function := readM (λ w, Ok
        match origin_class with
        | Some cls =>
            match last (split function_path) with
            | Some function_name => negb (has_own_attr w cls function_name)
            | None => false
            end
        | None => false
        end) in
      let* _ :=
        (if (is_addition_function : bool) then
           let* l := self_attr _additional_functions in
           update_self (with_additional_functions (l ++ [function_path]))
         else retM tt) in
      let* l := self_attr _origin_functions in
      let* _ := update_self
                  (with_origin_functions (l ++ [(function_path, origin_func)])) in
      let* rewrite_function := copy_function (_object record_dict) in
      let* context_caller := readM (λ _,
        new_ContextCaller rewrite_function origin_func cfg record_dict kw) in
      let* _ := _fx_wrap_copied_fn (_object record_dict) (func context_caller) in
      let* qualname := readM (λ w, get_func_qualname w rewrite_function) in
      let* _ := update_self (λ r,
        with_func_contexts
          (contexts_append function_path context_caller
             (contexts_append qualname context_caller (_func_contexts r))) r) in
      retM [(function_path, rewrite_function)]
  end.

Fixpoint enter_records (cfg kw : gmap string pyval)
    (functions_records : list (string * RewriteRecord))
    (new_functions : list (string * nat)) : M (list (string * nat)) :=
  match functions_records with
  | [] => retM new_functions
  | item :: rest =>
      let* added := enter_record cfg kw item in
      enter_records cfg kw rest (new_functions ++ added)
  end.

(** [for func_dict in ...: _set_func(func_path, func)] *)
Fixpoint set_funcs (funcs : list (string * nat)) : M unit :=
  match funcs with
  | [] => retM tt
  | (function_path, new_function) :: rest =>
      let* _ := _set_func function_path new_function [] ["origin_func"] in
      set_funcs rest
  end.

Fixpoint del_funcs (paths : list string) : M unit :=
  match paths with
  | [] => retM tt
  | func_path :: rest =>
      let* _ := _del_func func_path in
      del_funcs rest
  end.

Definition enter (cfg : gmap string pyval) (env : Env) (kw : gmap string pyval)
  : M unit :=
  let* _ := update_self (with_func_contexts []) in
  let* functions_records := (λ w,
    match get_records (_registry (rewriter w)) env with
    | Ok (out, warns) => (add_log warns w, Ok out)
    | Raise e => (w, Raise e)
    end) in
  let* n := readM (λ w, Ok (length (_wrapped_fns_to_patch w))) in
  let* _ := update_self (with_ori_fx_wrap_num n) in
  let* _ := update_self (with_origin_functions []) in
  let* _ := update_self (with_additional_functions []) in
  let* new_functions := enter_records cfg kw functions_records [] in
  set_funcs new_functions.

Definition exit : M unit :=
  let* cur_fx_wrap_num := readM (λ w, Ok (length (_wrapped_fns_to_patch w))) in
  let* ori_fx_wrap_num := self_attr _ori_fx_wrap_num in
  let* _ := modifyM (λ w,
    set_patch
      (take (length (_wrapped_fns_to_patch w)
               - (cur_fx_wrap_num - ori_fx_wrap_num))
            (_wrapped_fns_to_patch w)) w) in
  let* origin_functions := self_attr _origin_functions in
  let* _ := set_funcs origin_functions in
  let* additional_functions := self_attr _additional_functions in
  let* _ := del_funcs additional_functions in
  update_self (with_func_contexts []).

(** The [func] attribute of a context caller. *)
Definition ctx_func (c : ContextCaller) : nat := func c.

(** [get_context]; [stack] is [inspect.stack()] as [get_frame_func] sees it,
    so that index 2 is the frame of the caller of [get_context]. *)
Definition get_context (stack : list FrameInfo) (key : option string)
  : M (option ContextCaller) :=
  let* fk :=
    match key with
    | None =>
        readM (λ w,
          func ← get_frame_func stack 2;
          key ← get_func_qualname w func;
          Ok (Some func, key))
    | Some key => retM (None, key)
    end in
  let func := fk.1 in
  let key := fk.2 in
  let* ctxs := readM (λ w,
    Ok (default [] (PyDict.get key (_func_contexts (rewriter w))))) in
  match func with
  | None =>
      if decide (length ctxs = 1) then retM (ctxs !! 0)
      else raiseM AssertionError
  | Some func =>
      let ctx := last (filter (λ tmp_ctx, ctx_func tmp_ctx = func) ctxs) in
      let* _ :=
        match ctx with
        | None => modifyM (add_log [warn_no_context key])
        | Some _ => retM tt
        end in
      retM ctx
  end.

(** ** Environment collection *)

(** [collect_env]: the versions come from the installed package and from
    [get_backend_version()] and [get_codebase_version()], which are given
    here as the dictionaries they return; each [update] overrides what is
    already there, the keyword arguments last. *)
Definition collect_env (backend ir : string) (mmdeploy_version : string)
    (backend_version codebase_version kw : Env) : Env :=
  let env : Env := <["ir" := VIR ir]> (<["backend" := VBackend backend]> ∅) in
  let env := <["mmdeploy" := VStr mmdeploy_version]> env in
  let env := backend_version ∪ env in
  let env := codebase_version ∪ env in
  kw ∪ env.

(** ** Registration with the checker lists as objects

    [_register] appends to the checker list it is given and stores that
    very list in the record, so that a list given to two registrations is
    shared by their records.  Here the lists live in a store and a record
    holds the identity of its list; [snapshot] reads the table as the values
    that resolution sees. *)

Record RefRecord := {
  r_object : nat;
  r_checkers : nat;
  r_kwargs : gmap string pyval;
}.

Record RefTable := {
  lists : gmap nat (list Checker);
  table : PyDict.t (list RefRecord);
}.

(** [l.append(c)] *)
Definition list_append (l : nat) (c : Checker)
    (s : gmap nat (list Checker)) : gmap nat (list Checker) :=
  alter (λ cs, cs ++ [c]) l s.

Definition _register_ref (T : RefTable) (name backend ir : string)
    (extra_checkers : nat) (object : nat) (kw : gmap string pyval)
  : RefTable :=
  let s := lists T in
  let s :=
    if decide (backend ≠ DEFAULT)
    then list_append extra_checkers (BackendChecker backend) s else s in
  let s :=
    if decide (ir ≠ DEFAULT)
    then list_append extra_checkers (IRChecker ir) s else s in
  let record_dict :=
    {| r_object := object; r_checkers := extra_checkers; r_kwargs := kw |} in
  let t := match PyDict.get name (table T) with
           | None => PyDict.set name [] (table T)
           | Some _ => table T
           end in
  {| lists := s;
     table := PyDict.set name (default [] (PyDict.get name t) ++ [record_dict]) t |}.

(** The [extra_checkers] argument of [register_object]: [None], one
    checker, or a list of the caller. *)
Inductive checkers_arg :=
| NoCheckers
| OneChecker (c : Checker)
| CheckerList (l : nat).

(** What the closure returned by [register_object] keeps. *)
Record Decorator := {
  dec_name : string;
  dec_backend : string;
  dec_ir : string;
  dec_checkers : nat;
  dec_kwargs : gmap string pyval;
}.

(** [register_object]: a new list is made for [None] and for a single
    checker, a list of the caller is kept as it is; [backend] is the member
    that [Backend.get] returns. *)
Definition register_object (T : RefTable) (name backend ir : string)
    (extra_checkers : checkers_arg) (kw : gmap string pyval)
  : RefTable * Decorator :=
  let sl :=
    match extra_checkers with
    | NoCheckers =>
        let l := fresh (dom (lists T)) in (<[l := []]> (lists T), l)
    | OneChecker c =>
        let l := fresh (dom (lists T)) in (<[l := [c]]> (lists T), l)
    | CheckerList l => (lists T, l)
    end in
  ({| lists := sl.1; table := table T |},
   {| dec_name := name; dec_backend := backend; dec_ir := ir;
      dec_checkers := sl.2; dec_kwargs := kw |}).

(** Applying the decorator to an object. *)
Definition decorator (d : Decorator) (object : nat) (T : RefTable) : RefTable :=
  _register_ref T (dec_name d) (dec_backend d) (dec_ir d) (dec_checkers d)
    object (dec_kwargs d).

(** The record dictionary as resolution reads it. *)
Definition snapshot_record (s : gmap nat (list Checker)) (r : RefRecord)
  : RewriteRecord :=
  {| _object := r_object r;
     _checkers := default [] (s !! r_checkers r);
     kwargs := r_kwargs r |}.

Definition map_values {V W} (f : V → W) (d : PyDict.t V) : PyDict.t W :=
  (λ item : string * V, (item.1, f item.2)) <$> (d : list (string * V)).

Definition snapshot (T : RefTable) : Registry :=
  map_values (λ l, snapshot_record (lists T) <$> l) (table T).

(** *** [remove_record] on the table of identities

    [records.remove(rec)] compares the record dictionaries with [==], which
    reads the checker lists by their elements; the callback is given the
    record dictionary.  No checker list is changed. *)

Fixpoint list_remove_ref (s : gmap nat (list Checker)) (x : RefRecord)
    (l : list RefRecord) : result (list RefRecord) :=
  match l with
  | [] => Raise ValueError
  | y :: l' =>
      if decide (snapshot_record s y = snapshot_record s x) then Ok l'
      else l'' ← list_remove_ref s x l'; Ok (y :: l'')
  end.

Definition key_to_pop_ref (T : RefTable) (object : nat)
    (filter_cb : option (RewriteRecord → bool))
  : list (string * RefRecord) :=
  flat_map (λ '(key, recs),
    flat_map (λ rec,
      if decide (r_object rec = object) then
        match filter_cb with
        | Some cb =>
            if cb (snapshot_record (lists T) rec) then [] else [(key, rec)]
        | None => [(key, rec)]
        end
      else []) recs) (table T).

Fixpoint pop_records_ref (s : gmap nat (list Checker))
    (todo : list (string * RefRecord)) (t : PyDict.t (list RefRecord))
  : result (PyDict.t (list RefRecord)) :=
  match todo with
  | [] => Ok t
  | (key, rec) :: rest =>
      match PyDict.get key t with
      | None => Raise KeyError
      | Some recs =>
          recs' ← list_remove_ref s rec recs;
          if decide (length recs' = 0)
          then pop_records_ref s rest (PyDict.pop key t)
          else pop_records_ref s rest (PyDict.set key recs' t)
      end
  end.

Definition remove_record_ref (T : RefTable) (object : nat)
    (filter_cb : option (RewriteRecord → bool)) : result RefTable :=
  t ← pop_records_ref (lists T) (key_to_pop_ref T object filter_cb) (table T);
  Ok {| lists := lists T; table := t |}.

(** ** Sample registrations and environments *)

Definition rec_default : RewriteRecord :=
  {| _object := 1; _checkers := []; kwargs := ∅ |}.
Definition rec_trt : RewriteRecord :=
  {| _object := 2; _checkers := [BackendChecker "tensorrt"]; kwargs := ∅ |}.
Definition rec_trt_onnx : RewriteRecord :=
  {| _object := 3;
     _checkers := [BackendChecker "tensorrt"; IRChecker "onnx"];
     kwargs := ∅ |}.
Definition rec_ts : RewriteRecord :=
  {| _object := 4; _checkers := [IRChecker "torchscript"]; kwargs := ∅ |}.

Definition sample_registry : Registry :=
  [("pkg.mod.f", [rec_default; rec_trt; rec_trt_onnx]);
   ("pkg.mod.g", [rec_default; rec_ts]);
   ("pkg.mod.h", [rec_trt]);
   ("pkg.mod.k", [rec_default; rec_trt])].

Definition sample_env : Env :=
  <["backend" := VBackend "tensorrt"]> (<["ir" := VIR "onnx"]> ∅).

(** The checker of the version-range scenario. *)
Definition foo_checker : Checker :=
  LibVersionChecker "foo" (Some "1.8.0") (Some "1.10.0").

(** ** A sample process state

    Package [pkg] with module [pkg.mod] defining function [f], class [B]
    with method [meth], class [C] deriving from [B] without a method of its
    own, and a list [table] holding both functions; module [rw] defines the
    replacements [f2] and [meth2]. *)

Definition fn_f : PyFunction :=
  {| __module__ := "pkg.mod"; __qualname__ := "f"; __name__ := "f";
     __globals__ := 2 |}.
Definition fn_meth : PyFunction :=
  {| __module__ := "pkg.mod"; __qualname__ := "B.meth"; __name__ := "meth";
     __globals__ := 2 |}.
Definition fn_f2 : PyFunction :=
  {| __module__ := "rw"; __qualname__ := "f2"; __name__ := "f2";
     __globals__ := 6 |}.
Definition fn_meth2 : PyFunction :=
  {| __module__ := "rw"; __qualname__ := "meth2"; __name__ := "meth2";
     __globals__ := 6 |}.

Definition sample_heap : gmap nat pyobj :=
  list_to_map
    [(1, PModule (list_to_map [("mod", 2)]));
     (2, PModule (list_to_map [("f", 10); ("B", 3); ("C", 4); ("table", 5)]));
     (3, PClass (list_to_map [("meth", 11)]) []);
     (4, PClass ∅ [3]);
     (5, PList [10; 11]);
     (6, PModule (list_to_map [("f2", 20); ("meth2", 21)]));
     (10, PFunction fn_f);
     (11, PFunction fn_meth);
     (20, PFunction fn_f2);
     (21, PFunction fn_meth2)].

Definition rec_f2 : RewriteRecord :=
  {| _object := 20; _checkers := [BackendChecker "tensorrt"]; kwargs := ∅ |}.
Definition rec_meth2 : RewriteRecord :=
  {| _object := 21; _checkers := []; kwargs := ∅ |}.

Definition sample_rewriter : FunctionRewriter :=
  {| _registry := [("pkg.mod.f", [rec_f2]); ("pkg.mod.C.meth", [rec_meth2])];
     _func_contexts := [];
     _ori_fx_wrap_num := None; _origin_functions := None;
     _additional_functions := None |}.

Definition sample_world : World :=
  {| heap := sample_heap;
     sys_modules := list_to_map [("pkg", 1); ("rw", 6)];
     _wrapped_fns_to_patch := [];
     log := [];
     rewriter := sample_rewriter |}.

(** A call stack in which [f2] of module [rw] has called [get_context]. *)
Definition sample_stack : list FrameInfo :=
  [{| function := "get_frame_func"; f_globals := ∅ |};
   {| function := "get_context"; f_globals := ∅ |};
   {| function := "f2"; f_globals := list_to_map [("f2", 20); ("meth2", 21)] |}].

(** A rewriter as its constructor leaves it, in the sample process. *)
Definition inactive_world : World := set_rewriter __init__ sample_world.

(** Contexts as [enter] would index them for one rewrite of [pkg.mod.f]. *)
Definition sample_ctx : ContextCaller :=
  {| func := 20; origin_func := 10; cfg := ∅;
     ctx_record := rec_f2; ctx_kwargs := ∅ |}.

Definition active_world : World :=
  set_rewriter
    (with_func_contexts
       [("rw.f2", [sample_ctx]); ("pkg.mod.f", [sample_ctx])] sample_rewriter)
    sample_world.

(** ** A process state in which an addition shadows a nested class

    Module [m] defines class [B] with method [n], class [X] deriving from
    [B] with a nested class [n] that has a method [meth], class [C] deriving
    from [B], and class [E] deriving from [C] and [X], so that [E.n] is the
    nested class of [X] as long as [C] has no [n] of its own. *)

Definition fn_Bn : PyFunction :=
  {| __module__ := "m"; __qualname__ := "B.n"; __name__ := "n";
     __globals__ := 1 |}.
Definition fn_Ymeth : PyFunction :=
  {| __module__ := "m"; __qualname__ := "X.n.meth"; __name__ := "meth";
     __globals__ := 1 |}.
Definition fn_n2 : PyFunction :=
  {| __module__ := "rw"; __qualname__ := "n2"; __name__ := "n2";
     __globals__ := 7 |}.
Definition fn_m2 : PyFunction :=
  {| __module__ := "rw"; __qualname__ := "meth2"; __name__ := "meth2";
     __globals__ := 7 |}.

Definition shadow_heap : gmap nat pyobj :=
  list_to_map
    [(1, PModule (list_to_map [("B", 2); ("X", 3); ("C", 4); ("E", 5)]));
     (2, PClass (list_to_map [("n", 10)]) []);
     (3, PClass (list_to_map [("n", 6)]) [2]);
     (4, PClass ∅ [2]);
     (5, PClass ∅ [4; 3; 2]);
     (6, PClass (list_to_map [("meth", 11)]) []);
     (7, PModule (list_to_map [("n2", 20); ("meth2", 21)]));
     (10, PFunction fn_Bn);
     (11, PFunction fn_Ymeth);
     (20, PFunction fn_n2);
     (21, PFunction fn_m2)].

Definition shadow_world : World :=
  {| heap := shadow_heap;
     sys_modules := list_to_map [("m", 1); ("rw", 7)];
     _wrapped_fns_to_patch := [];
     log := [];
     rewriter :=
       {| _registry :=
            [("m.E.n.meth",
              [{| _object := 21; _checkers := []; kwargs := ∅ |}]);
             ("m.C.n",
              [{| _object := 20; _checkers := []; kwargs := ∅ |}])];
          _func_contexts := [];
          _ori_fx_wrap_num := None; _origin_functions := None;
          _additional_functions := None |} |}.

(** ** A process state with an inherited initialiser

    Module [m] defines class [B] with an [__init__] and class [C] deriving
    from [B] without one; module [rw] defines the replacement [init2],
    registered for [m.C.__init__]. *)

Definition fn_Binit : PyFunction :=
  {| __module__ := "m"; __qualname__ := "B.__init__"; __name__ := "__init__";
     __globals__ := 1 |}.
Definition fn_init2 : PyFunction :=
  {| __module__ := "rw"; __qualname__ := "init2"; __name__ := "init2";
     __globals__ := 7 |}.

Definition init_heap : gmap nat pyobj :=
  list_to_map
    [(1, PModule (list_to_map [("B", 2); ("C", 4)]));
     (2, PClass (list_to_map [("__init__", 10)]) []);
     (4, PClass ∅ [2]);
     (7, PModule (list_to_map [("init2", 20)]));
     (10, PFunction fn_Binit);
     (20, PFunction fn_init2)].

Definition init_world : World :=
  {| heap := init_heap;
     sys_modules := list_to_map [("m", 1); ("rw", 7)];
     _wrapped_fns_to_patch := [];
     log := [];
     rewriter :=
       {| _registry :=
            [("m.C.__init__",
              [{| _object := 20; _checkers := []; kwargs := ∅ |}])];
          _func_contexts := [];
          _ori_fx_wrap_num := None; _origin_functions := None;
          _additional_functions := None |} |}.

(** The sample states after [enter], and after [enter] and [exit]. *)
Definition sample_entered : World := (enter ∅ sample_env ∅ sample_world).1.
Definition shadow_entered : World := (enter ∅ ∅ ∅ shadow_world).1.
Definition shadow_exited : World := (exit shadow_entered).1.
Definition init_entered : World := (enter ∅ ∅ ∅ init_world).1.
Definition init_exited : World := (exit init_entered).1.

(** ** Predicates used to state the properties *)

(** A record is a default when it has no checker, and valid in an
    environment when it has checkers and all of them pass. *)
Definition is_default (rec : RewriteRecord) : Prop := _checkers rec = [].

Definition valid_in (env : Env) (rec : RewriteRecord) : Prop :=
  _checkers rec ≠ [] ∧ all_checks env (_checkers rec) = Ok true.

(** No checker of the registry raises in the environment. *)
Definition checks_defined (env : Env) (R : Registry) : Prop :=
  Forall (λ item, Forall (λ rec, is_Ok (all_checks env (_checkers rec))) item.2) R.

(** The invariant of the record table: no path maps to an empty list. *)
Definition nonempty_lists (R : Registry) : Prop :=
  Forall (λ item, item.2 ≠ []) R.

(** The records the first loop of [remove_record] collects. *)
Definition doomed (object : nat) (filter_cb : option (RewriteRecord → bool))
    (rec : RewriteRecord) : bool :=
  bool_decide (_object rec = object) &&
  match filter_cb with
  | Some cb => negb (cb rec)
  | None => true
  end.

(** The table [remove_record] leaves behind: the collected records are gone
    from every list, and a list emptied this way is gone with its key. *)
Definition cleanup_item (object : nat) (filter_cb : option (RewriteRecord → bool))
    (item : string * list RewriteRecord) : list (string * list RewriteRecord) :=
  if decide (filter (λ r, doomed object filter_cb r = true) item.2 = []) then [item]
  else if decide (filter (λ r, doomed object filter_cb r ≠ true) item.2 = []) then []
  else [(item.1, filter (λ r, doomed object filter_cb r ≠ true) item.2)].

Definition cleanup (object : nat) (filter_cb : option (RewriteRecord → bool))
    (R : Registry) : Registry :=
  flat_map (cleanup_item object filter_cb) R.

(** ** Slots of the object graph

    A slot is a place in a container where a reference to an object sits:
    an entry of a dictionary (of a module, a class or a plain one) or a
    position of a list. *)

Inductive skey :=
| KAttr (name : string)
| KItem (i : nat).

#[global] Instance skey_eq_dec : EqDecision skey.
Proof. solve_decision. Defined.

Definition get_slot (obj : pyobj) (key : skey) : option nat :=
  match obj, key with
  | PModule d, KAttr k => d !! k
  | PClass d _, KAttr k => d !! k
  | PDict d, KAttr k => d !! k
  | PList l, KItem i => l !! i
  | _, _ => None
  end.

(** The slot [key] of object [o] in a heap. *)
Definition sl (h : gmap nat pyobj) (o : nat) (key : skey) : option nat :=
  h !! o ≫= λ obj, get_slot obj key.

(** Two objects that differ at most in what their slots hold. *)
Definition same_shape (a b : pyobj) : Prop :=
  match a, b with
  | PFunction f, PFunction g => f = g
  | PModule _, PModule _ => True
  | PClass _ m, PClass _ m' => m = m'
  | PDict _, PDict _ => True
  | PList _, PList _ => True
  | _, _ => False
  end.

(** The slots [_replace_all_obj] writes. *)
Definition rewritable (ignore_keys : list string) (key : skey) : Prop :=
  match key with
  | KAttr k => k ∉ ignore_keys
  | KItem _ => True
  end.

#[global] Instance rewritable_dec ik key : Decision (rewritable ik key).
Proof. destruct key; simpl; apply _. Defined.

(** Everything an object refers to. *)
Definition obj_refs (obj : pyobj) : list nat :=
  match obj with
  | PFunction f => [__globals__ f]
  | PModule d => (map_to_list d).*2
  | PClass d mro => (map_to_list d).*2 ++ mro
  | PDict d => (map_to_list d).*2
  | PList l => l
  end.

(** No dangling reference: what the loaded modules and the objects of the
    heap refer to is in the heap. *)
Definition heap_closed (w : World) : Prop :=
  map_Forall (λ _ m, is_Some (heap w !! m)) (sys_modules w) ∧
  map_Forall (λ _ obj, Forall (λ v, is_Some (heap w !! v)) (obj_refs obj))
             (heap w).

(** A path that locates a function of the live graph. *)
Definition locates_function (w : World) (path : string) : Prop :=
  ∃ f oc, import_function w path = Ok (f, oc) ∧ is_function w f = true.

(** Every candidate that resolution selects locates an existing function. *)
Definition all_targets_exist (w : World) (env : Env) : Prop :=
  ∀ recs warns,
    get_records (_registry (rewriter w)) env = Ok (recs, warns) →
    Forall (λ item, locates_function w item.1) recs.

(** Writing one attribute of a module or a class. *)
Definition with_attr (obj : pyobj) (name : string) (v : option nat) : pyobj :=
  match obj with
  | PModule d => PModule (partial_alter (λ _, v) name d)
  | PClass d m => PClass (partial_alter (λ _, v) name d) m
  | _ => obj
  end.

Definition has_attrs (obj : pyobj) : Prop :=
  match obj with PModule _ | PClass _ _ => True | _ => False end.


(** What a replacement does to the value of a slot. *)
Definition replace_at (obj new_obj : nat) (ik : list string) (key : skey)
    (v : nat) : nat :=
  if decide (rewritable ik key) then replace_value obj new_obj v else v.


(** The heap after [_replace_all_obj] with no referrer excluded. *)
Definition replaced (x y : nat) (ik : list string) (h : gmap nat pyobj)
  : gmap nat pyobj :=
  map_imap (λ ref o,
    Some (if decide (ref ∈ @nil nat) then o else replace_in_ref x y ik o)) h.


(** ** What a session does to the graph

    One entry per rewrite that [enter] applies: the path, the copy of the
    replacement written there, the function found there before, the module
    or class that owns the attribute, the attribute name, and whether the
    attribute is an addition to a class that did not hold it. *)
Record rewrite_entry := {
  e_path : string;
  e_new : nat;
  e_old : nat;
  e_obj : nat;
  e_name : string;
  e_add : bool;
}.

Definition is_new (plan : list rewrite_entry) (v : nat) : Prop :=
  ∃ e, e ∈ plan ∧ e_new e = v.

(** [v] is [v0], or a copy standing in for [v0]. *)
Definition back (plan : list rewrite_entry) (v v0 : nat) : Prop :=
  v = v0 ∨ ∃ e, e ∈ plan ∧ e_new e = v ∧ e_old e = v0.

Definition add_slot (plan : list rewrite_entry) (o : nat) (key : skey) : Prop :=
  ∃ e, e ∈ plan ∧ e_add e = true ∧ e_obj e = o ∧ key = KAttr (e_name e).

Definition isfun (w0 : World) (plan : list rewrite_entry) (v : nat) : Prop :=
  is_new plan v ∨ ∃ fn, heap w0 !! v = Some (PFunction fn).

Definition home_slot (e : rewrite_entry) : nat * skey :=
  (e_obj e, KAttr (e_name e)).

(** The entries describe the graph [w0] in which the session starts. *)
Record plan_ok (w0 : World) (plan : list rewrite_entry) : Prop := {
  plan_inj : ∀ e e', e ∈ plan → e' ∈ plan → e_new e = e_new e' → e = e';
  plan_new : ∀ e, e ∈ plan → heap w0 !! e_new e = None;
  plan_old : ∀ e, e ∈ plan → ∃ fn, heap w0 !! e_old e = Some (PFunction fn);
  plan_obj : ∀ e, e ∈ plan →
    ∃ obj, heap w0 !! e_obj e = Some obj ∧ has_attrs obj;
  plan_slot : ∀ e, e ∈ plan →
    if e_add e
    then is_class w0 (e_obj e) = true ∧
         sl (heap w0) (e_obj e) (KAttr (e_name e)) = None
    else sl (heap w0) (e_obj e) (KAttr (e_name e)) = Some (e_old e);
  plan_path : ∀ e, e ∈ plan →
    1 < length (split (e_path e)) ∧
    last (split (e_path e)) = Some (e_name e) ∧
    eval w0 true (removelast (split (e_path e))) = Ok (e_obj e);
}.

(** The graph [h] during the session, seen from the starting graph: the old
    objects keep their shape, what was allocated since is a function or a
    plain dictionary, and an old slot holds what it held, or a copy standing
    in for it, unless it is an addition, which holds a function if it is
    there at all. *)
Record Inv_core (w0 : World) (plan : list rewrite_entry)
    (h : gmap nat pyobj) : Prop := {
  inv_shape : ∀ o obj0, heap w0 !! o = Some obj0 →
    ∃ obj, h !! o = Some obj ∧ same_shape obj0 obj;
  inv_alloc : ∀ o obj, heap w0 !! o = None → h !! o = Some obj →
    (∃ fn, obj = PFunction fn) ∨ (∃ d, obj = PDict d);
  inv_fresh : ∀ e, e ∈ plan → ∃ fn, h !! e_new e = Some (PFunction fn);
  inv_rel : ∀ o key, is_Some (heap w0 !! o) →
    add_slot plan o key ∨
    option_Forall2 (back plan) (sl h o key) (sl (heap w0) o key);
  inv_add : ∀ o key v, add_slot plan o key → sl h o key = Some v →
    isfun w0 plan v;
}.

(** A copy held by an old slot is held by the slot of its own path, and sits
    there or where a replacement of references put it. *)
Definition inv_home (w0 : World) (plan : list rewrite_entry)
    (ik : list string) (h : gmap nat pyobj) : Prop :=
  ∀ o key e, is_Some (heap w0 !! o) → e ∈ plan →
    sl h o key = Some (e_new e) →
    sl h (e_obj e) (KAttr (e_name e)) = Some (e_new e) ∧
    ((o, key) = home_slot e ∨
     (is_module w0 (e_obj e) = true ∧ rewritable ik key)).

(** The invariant of a session on the process state. *)
Definition SInv (w0 : World) (plan : list rewrite_entry) (ik : list string)
    (w : World) : Prop :=
  sys_modules w = sys_modules w0 ∧
  Inv_core w0 plan (heap w) ∧
  inv_home w0 plan ik (heap w).

(** The graph between the two heaps of [_set_func]: after the replacement
    of references, before the assignment. *)
Definition mid_heap (w0 : World) (e : rewrite_entry) (cur v : nat)
    (ik : list string) (h : gmap nat pyobj) : gmap nat pyobj :=
  if is_class w0 (e_obj e) then h else replaced cur v ik h.

(** The heap after one [_set_func] of the session, slot by slot. *)
Definition after_step (w0 : World) (ik : list string) (e : rewrite_entry)
    (cur v : nat) (h : gmap nat pyobj) (o : nat) (key : skey) : option nat :=
  if decide ((o, key) = home_slot e) then Some v
  else if is_class w0 (e_obj e) then sl h o key
  else replace_at cur v ik key <$> sl h o key.

(** A change of the heap that allocates nothing, keeps the shape of every
    object, fills no empty slot and leaves alone the slots that hold a
    module or a class. *)
Definition heap_mono (h h' : gmap nat pyobj) : Prop :=
  (∀ o, h !! o = None → h' !! o = None) ∧
  (∀ o obj, h !! o = Some obj →
     ∃ obj', h' !! o = Some obj' ∧ same_shape obj obj') ∧
  (∀ o key, sl h o key = None → sl h' o key = None) ∧
  (∀ o key v obj, sl h o key = Some v → h !! v = Some obj → has_attrs obj →
     sl h' o key = Some v).

(** What the session keeps of its entries. *)
Definition new_functions_of (plan : list rewrite_entry) : list (string * nat) :=
  (λ e, (e_path e, e_new e)) <$> plan.

Definition origin_functions_of (plan : list rewrite_entry)
  : list (string * nat) :=
  (λ e, (e_path e, e_old e)) <$> plan.

(** An addition that [enter] lists for [exit] to delete: the probe of
    [enter] fails on it, which it does not when [type] or [object] provide
    the name. *)
Definition recorded (e : rewrite_entry) : bool :=
  e_add e && negb (bool_decide (e_name e ∈ type_attrs)).

Definition additional_of (plan : list rewrite_entry) : list string :=
  e_path <$> filter (λ e, recorded e = true) plan.



(** The entry that [enter] makes for a path: what [import_function] finds
    there, and whether the class found holds the attribute in its own
    dictionary. *)
Definition entry_for (w0 : World) (path : string) (e : rewrite_entry) : Prop :=
  e_path e = path ∧
  ∃ oc, import_function w0 path = Ok (e_old e, oc) ∧
    last (split path) = Some (e_name e) ∧
    e_add e = match oc with
              | Some cls => negb (in_class_dict w0 cls (e_name e))
              | None => false
              end ∧
    (∀ cls, oc = Some cls → e_obj e = cls).

(** The process state during the first loop of [enter]: the graph [w0] the
    session started in, extended by the copies made so far. *)
Record AInv (w0 : World) (plan : list rewrite_entry) (w : World) : Prop := {
  a_roots : sys_modules w = sys_modules w0;
  a_agree : ∀ o obj, heap w0 !! o = Some obj → heap w !! o = Some obj;
  a_alloc : ∀ o obj, heap w0 !! o = None → heap w !! o = Some obj →
    (∃ fn, obj = PFunction fn) ∨ (∃ d, obj = PDict d);
  a_fresh : ∀ e, e ∈ plan → ∃ fn, heap w !! e_new e = Some (PFunction fn);
  a_plan : plan_ok w0 plan;
  a_origin : _origin_functions (rewriter w) = Some (origin_functions_of plan);
  a_additional :
    _additional_functions (rewriter w) = Some (additional_of plan);
}.

(** ** Further predicates *)

(** The record that [_register] stores. *)
Definition registered_record (backend ir : string)
    (extra_checkers : list Checker) (object : nat) (kw : gmap string pyval)
  : RewriteRecord :=
  {| _object := object;
     _checkers :=
       (extra_checkers
          ++ (if decide (backend ≠ DEFAULT) then [BackendChecker backend] else []))
          ++ (if decide (ir ≠ DEFAULT) then [IRChecker ir] else []);
     kwargs := kw |}.

(** No record of the registry holds [object]. *)
Definition unregistered (R : Registry) (object : nat) : Prop :=
  Forall (λ item, Forall (λ rec, _object rec ≠ object) item.2) R.

(** What the slots of an object hold. *)
Definition slot_values (obj : pyobj) : list nat :=
  match obj with
  | PModule d | PClass d _ | PDict d => (map_to_list d).*2
  | PList l => l
  | PFunction _ => []
  end.

(** No slot of the heap holds [v]. *)
Definition unreferenced (h : gmap nat pyobj) (v : nat) : Prop :=
  map_Forall (λ _ obj, v ∉ slot_values obj) h.

(** A checker made from a backend or an IR token. *)
Definition token_checker (c : Checker) : Prop :=
  match c with
  | BackendChecker _ | IRChecker _ => True
  | LibVersionChecker _ _ _ => False
  end.

(** The frame record of a running call of the function [g]: its globals
    are the globals of [g], its name the name of [g]. *)
Definition frame_of (w : World) (g : nat) (frameinfo : FrameInfo) : Prop :=
  ∃ fn d,
    heap w !! g = Some (PFunction fn) ∧
    dict_of w (__globals__ fn) = Some d ∧
    f_globals frameinfo = d ∧ function frameinfo = __name__ fn.

(** A statement that changes nothing but the heap. *)
Definition heap_only {A} (m : M A) : Prop :=
  ∀ w w' r, m w = (w', r) → w' = set_heap (heap w') w.

(** Two process states that differ at most in the two lists [enter] keeps
    for [exit]. *)
Definition same_but_lists (w w' : World) : Prop :=
  heap w' = heap w ∧ sys_modules w' = sys_modules w ∧ log w' = log w ∧
  _wrapped_fns_to_patch w' = _wrapped_fns_to_patch w ∧
  _registry (rewriter w') = _registry (rewriter w) ∧
  _ori_fx_wrap_num (rewriter w') = _ori_fx_wrap_num (rewriter w) ∧
  _func_contexts (rewriter w') = _func_contexts (rewriter w).

(** The context [enter] makes for a record. *)
Definition context_of (cfg kw : gmap string pyval) (rec : RewriteRecord)
    (g f : nat) : ContextCaller :=
  {| func := g; origin_func := f; cfg := cfg; ctx_record := rec;
     ctx_kwargs := kwargs rec ∪ kw |}.

(** The qualified name of the function at [o] differs from [key]. *)
Definition qualname_differs (w : World) (key : string) (o : nat) : Prop :=
  ∃ fn, heap w !! o = Some (PFunction fn) ∧
    __module__ fn +:+ "." +:+ __qualname__ fn ≠ key.

(** No record of the table holds the list [l]. *)
Definition unshared (T : RefTable) (l : nat) : Prop :=
  Forall (λ item, Forall (λ r, r_checkers r ≠ l) item.2) (table T).

(** The checkers [_register] makes from the backend and the IR. *)
Definition token_checkers (backend ir : string) : list Checker :=
  (if decide (backend ≠ DEFAULT) then [BackendChecker backend] else [])
    ++ (if decide (ir ≠ DEFAULT) then [IRChecker ir] else []).


(** ** More sample states *)

(** The sample process inside [enter], before its first loop. *)
Definition prepared_world : World :=
  set_rewriter
    (with_additional_functions [] (with_origin_functions [] sample_rewriter))
    sample_world.

(** After the round of the first loop for [pkg.mod.f]. *)
Definition copied_world : World :=
  (enter_record ∅ ∅ ("pkg.mod.f", rec_f2) prepared_world).1.

(** A call stack in which the copy of [f2] has called [get_context]. *)
Definition copy_stack : list FrameInfo :=
  [{| function := "get_frame_func"; f_globals := ∅ |};
   {| function := "get_context"; f_globals := ∅ |};
   {| function := "f2";
      f_globals := <["f2" := 23]> (list_to_map [("f2", 20); ("meth2", 21)]) |}].

(** The sample process with [f2] of module [rw] on the tracing allowlist. *)
Definition traced_world : World := set_patch [(6, "f2")] sample_world.

Definition traced_entered : World := (enter ∅ sample_env ∅ traced_world).1.
Definition traced_exited : World := (exit traced_entered).1.

(** A table with one record, and a checker list that no record holds. *)
Definition sample_ref_table : RefTable :=
  {| lists := <[0 := [LibVersionChecker "foo" None None]]>
                (<[5 := [IRChecker "onnx"]]> ∅);
     table := [("pkg.mod.f",
                [{| r_object := 1; r_checkers := 5; r_kwargs := ∅ |}])] |}.

(** * Properties of the registry *)

Lemma bind_Ok {A B} (m : result A) (f : A → result B) (b : B) :
  m ≫= f = Ok b → ∃ a, m = Ok a ∧ f a = Ok b.
Proof. destruct m as [a|e]; simpl; [eauto | discriminate]. Qed.

Ltac inv_bind H :=
  let a := fresh "a" in
  let Ha := fresh "Ha" in
  apply bind_Ok in H as (a & Ha & H).

Lemma length_zero_nil {A} (l : list A) : length l = 0 ↔ l = [].
Proof. destruct l; simpl; split; (done || lia || discriminate). Qed.

Section Scan.
Context (env : Env) (origin_function : string).

(** Whatever the loop selects was a candidate of the right kind. *)
Lemma scan_records_sound l st st' :
  scan_records env origin_function l st = Ok st' →
  (final_rewriter st' = final_rewriter st ∨
     ∃ r, r ∈ l ∧ final_rewriter st' = Some r ∧ valid_in env r) ∧
  (default_rewriter st' = default_rewriter st ∨
     ∃ r, r ∈ l ∧ default_rewriter st' = Some r ∧ is_default r).
Proof.
  revert st. induction l as [|rec l IH]; intros st H; simpl in H.
  - injection H as <-. auto.
  - assert (∀ (P : RewriteRecord → Prop) (x y : option RewriteRecord),
      (x = y ∨ ∃ r0, r0 ∈ l ∧ x = Some r0 ∧ P r0) →
      (x = y ∨ ∃ r0, r0 ∈ rec :: l ∧ x = Some r0 ∧ P r0)) as keep.
    { intros P x y [->|(r0 & Hin & -> & HP)]; [by left|].
      right. exists r0. split; [by apply list_elem_of_further|done]. }
    assert (∀ (P : RewriteRecord → Prop) (x y : option RewriteRecord),
      (x = Some rec ∨ ∃ r0, r0 ∈ l ∧ x = Some r0 ∧ P r0) → P rec →
      (x = y ∨ ∃ r0, r0 ∈ rec :: l ∧ x = Some r0 ∧ P r0)) as new.
    { intros P x y [->|(r0 & Hin & -> & HP)] Hrec; right.
      - exists rec. split; [apply list_elem_of_here|done].
      - exists r0. split; [by apply list_elem_of_further|done]. }
    destruct (decide (length (_checkers rec) = 0)) as [Hz|Hz].
    + apply length_zero_nil in Hz.
      destruct (default_rewriter st) eqn:Hd;
        apply IH in H as [Hf Hdf]; simpl in *; split; auto;
        try (rewrite <- Hd; auto).
    + assert (_checkers rec ≠ []) as Hne by (rewrite <- length_zero_nil; done).
      inv_bind H. destruct a.
      * destruct (final_rewriter st) eqn:Hfin;
          apply IH in H as [Hf Hdf]; simpl in *; split; auto;
          try (rewrite <- Hfin; auto);
          try (apply new; [done|]; by split).
      * apply IH in H as [Hf Hdf]; split; auto.
Qed.

(** Once a record is selected it is kept, and warnings only accumulate. *)
Lemma scan_records_keep l st st' :
  scan_records env origin_function l st = Ok st' →
  (∀ r, final_rewriter st = Some r → final_rewriter st' = Some r) ∧
  (∀ r, default_rewriter st = Some r → default_rewriter st' = Some r) ∧
  (∃ w, warned st' = warned st ++ w).
Proof.
  revert st. induction l as [|rec l IH]; intros st H; simpl in H.
  - injection H as <-. split; [done|]. split; [done|]. exists []. by rewrite app_nil_r.
  - destruct (decide (length (_checkers rec) = 0)).
    + destruct (default_rewriter st) eqn:Hd;
        apply IH in H as (Hf & Hdf & w & Hw); simpl in *.
      * split; [done|]. split; [intros ? [= <-]; auto|].
        exists ([warn_multiple_default origin_function] ++ w).
        by rewrite Hw, <- app_assoc.
      * split; [done|]. split; [discriminate|]. eauto.
    + inv_bind H. destruct a.
      * destruct (final_rewriter st) eqn:Hfin;
          apply IH in H as (Hf & Hdf & w & Hw); simpl in *.
        -- split; [intros ? [= <-]; auto|]. split; [done|].
           exists ([warn_multiple_valid origin_function] ++ w).
           by rewrite Hw, <- app_assoc.
        -- split; [discriminate|]. split; [done|]. eauto.
      * by apply IH in H.
Qed.

Lemma scan_records_total l st :
  Forall (λ rec, is_Ok (all_checks env (_checkers rec))) l →
  is_Ok (scan_records env origin_function l st).
Proof.
  intros Hl. revert st. induction Hl as [|rec l [b Hb] _ IH]; intros st; simpl.
  - by eexists.
  - destruct (decide _); [destruct (default_rewriter st); apply IH|].
    rewrite Hb. simpl. destruct b; [destruct (final_rewriter st)|]; apply IH.
Qed.

(** A second valid record met after one is selected leaves a warning. *)
Lemma scan_records_warns l st st' r c :
  scan_records env origin_function l st = Ok st' →
  final_rewriter st = Some r → c ∈ l → valid_in env c →
  warn_multiple_valid origin_function ∈ warned st'.
Proof.
  revert st. induction l as [|rec l IH]; intros st H Hfin Hc Hv; [set_solver|].
  simpl in H. apply elem_of_cons in Hc as [<-|Hc].
  - destruct Hv as [Hne Hv].
    destruct (decide _) as [Hz|_]; [by apply length_zero_nil in Hz|].
    rewrite Hv, Hfin in H. simpl in H.
    apply scan_records_keep in H as (_ & _ & w & Hw). simpl in Hw.
    rewrite Hw. set_solver.
  - destruct (decide _).
    + destruct (default_rewriter st); eapply IH in H; eauto.
    + inv_bind H. destruct a; [rewrite Hfin in H|]; eapply IH in H; eauto.
Qed.

(** The first valid record in registration order is the one selected. *)
Lemma scan_records_first l1 c l2 st st' :
  scan_records env origin_function (l1 ++ c :: l2) st = Ok st' →
  final_rewriter st = None →
  Forall (λ r, ¬ valid_in env r) l1 → valid_in env c →
  final_rewriter st' = Some c.
Proof.
  revert st. induction l1 as [|rec l1 IH]; intros st H Hfin Hl1 Hv; simpl in H.
  - destruct Hv as [Hne Hv].
    destruct (decide _) as [Hz|_]; [by apply length_zero_nil in Hz|].
    rewrite Hv, Hfin in H. simpl in H.
    by apply scan_records_keep in H as (Hf & _ & _); apply Hf.
  - apply Forall_cons in Hl1 as [Hrec Hl1].
    destruct (decide _) as [Hz|Hz].
    + destruct (default_rewriter st); eapply IH in H; eauto.
    + inv_bind H. destruct a.
      * exfalso. apply Hrec. split; [|done]. by rewrite <- length_zero_nil.
      * eapply IH in H; eauto.
Qed.
End Scan.

Section Loop.
Context (env : Env).

Lemma NoDup_submseteq_inv {A} (l k : list A) : l ⊆+ k → NoDup k → NoDup l.
Proof.
  intros [k' Hk]%submseteq_Permutation Hnd. rewrite Hk in Hnd.
  by apply NoDup_app in Hnd as [? _].
Qed.

(** What the outer loop adds to its accumulators. *)
Lemma get_records_loop_spec items acc res :
  get_records_loop env items acc = Ok res →
  ∃ ds ns w,
    default_records res = default_records acc ++ ds ∧
    records res = records acc ++ ns ∧
    warnings res = warnings acc ++ w ∧
    Forall (λ e, is_default e.2) ds ∧
    Forall (λ e, valid_in env e.2) ns ∧
    ds.*1 ++ ns.*1 ⊆+ items.*1.
Proof.
  revert acc. induction items as [|[p l] items IH]; intros acc H; simpl in H.
  - injection H as <-. exists [], [], []. rewrite !app_nil_r. by repeat split.
  - inv_bind H. rename a into st.
    destruct (scan_records_sound _ _ _ _ _ Ha) as [Hf Hd].
    destruct (scan_records_keep _ _ _ _ _ Ha) as (_ & _ & w0 & Hw0).
    simpl in *.
    destruct (final_rewriter st) as [f|] eqn:Hfin;
      [|destruct (default_rewriter st) as [d|] eqn:Hdef];
      apply IH in H as (ds & ns & w & Hds & Hns & Hw & Hfd & Hfn & Hsub);
      simpl in *.
    + exists ds, ((p, f) :: ns), (w0 ++ w).
      rewrite Hds, Hns, Hw, Hw0, <- !app_assoc. repeat split; try done.
      * apply Forall_cons. split; [|done].
        destruct Hf as [?|(r & _ & [= ->] & ?)]; [discriminate|done].
      * rewrite fmap_cons. simpl.
        rewrite <- Permutation_middle. by apply submseteq_skip.
    + exists ((p, d) :: ds), ns, (w0 ++ w).
      rewrite Hds, Hns, Hw, Hw0, <- !app_assoc. repeat split; try done.
      * apply Forall_cons. split; [|done].
        destruct Hd as [?|(r & _ & [= ->] & ?)]; [discriminate|done].
      * rewrite fmap_cons. simpl. by apply submseteq_skip.
    + exists ds, ns, (w0 ++ w).
      rewrite Hds, Hns, Hw, Hw0, <- !app_assoc. repeat split; try done.
      by apply submseteq_cons.
Qed.

(** Each registered path is scanned once, from a clean selection, and what
    the scan selects is what the result holds for that path. *)
Lemma get_records_loop_entry items acc res p l :
  get_records_loop env items acc = Ok res → (p, l) ∈ items →
  ∃ w st,
    scan_records env p l
      {| default_rewriter := None; final_rewriter := None; warned := w |}
      = Ok st ∧
    (∀ f, final_rewriter st = Some f → (p, f) ∈ records res) ∧
    (∀ d, final_rewriter st = None → default_rewriter st = Some d →
          (p, d) ∈ default_records res) ∧
    (∀ m, m ∈ warned st → m ∈ warnings res).
Proof.
  revert acc. induction items as [|[p' l'] items IH]; intros acc H Hin;
    [by apply elem_of_nil in Hin|].
  simpl in H. inv_bind H. rename a into st.
  apply elem_of_cons in Hin as [[= <- <-]|Hin].
  - exists (warnings acc), st. split; [done|].
    destruct (final_rewriter st) as [f|] eqn:Hfin;
      [|destruct (default_rewriter st) as [d|] eqn:Hdef];
      apply get_records_loop_spec in H
        as (ds & ns & w & Hds & Hns & Hw & _); simpl in *;
      rewrite Hds, Hns, Hw;
      (split; [|split]); intros; simplify_eq; set_solver.
  - destruct (final_rewriter st) as [f|];
      [|destruct (default_rewriter st) as [d|]]; eauto.
Qed.

Lemma get_records_loop_total items acc :
  checks_defined env items → is_Ok (get_records_loop env items acc).
Proof.
  intros Hdef. revert acc.
  induction Hdef as [|[p l] items Hl _ IH]; intros acc; simpl; [by eexists|].
  destruct (scan_records_total env p l
    {| default_rewriter := None; final_rewriter := None;
       warned := warnings acc |} Hl) as [st ->]. simpl.
  destruct (final_rewriter st); [|destruct (default_rewriter st)]; apply IH.
Qed.
End Loop.

Lemma PyDict_get_elem_of {V} (d : PyDict.t V) k v :
  PyDict.get k d = Some v → (k, v) ∈ d.
Proof.
  induction d as [|[k' v'] d IH]; simpl; [discriminate|].
  destruct (decide (k' = k)) as [->|]; [intros [= ->]; left|right; auto].
Qed.

(** With unique paths, an entry of the result is the only one for its path. *)
Lemma one_entry_per_path (out : list (string * RewriteRecord)) p r :
  NoDup out.*1 → (p, r) ∈ out → filter (λ e, e.1 = p) out = [(p, r)].
Proof.
  induction out as [|[p' r'] out IH]; intros Hnd Hin; [by apply elem_of_nil in Hin|].
  rewrite fmap_cons in Hnd. apply NoDup_cons in Hnd as [Hnotin Hnd]. simpl in *.
  apply elem_of_cons in Hin as [[= <- <-]|Hin].
  - rewrite filter_cons_True by done. f_equal.
    clear IH Hnd. induction out as [|[q s] out IHo]; [done|].
    rewrite fmap_cons in Hnotin. apply not_elem_of_cons in Hnotin as [Hq Hno].
    simpl in Hq. rewrite filter_cons_False by (simpl; congruence). auto.
  - rewrite filter_cons_False; [auto|].
    simpl. intros ->. apply Hnotin. apply list_elem_of_fmap. by exists (p, r).
Qed.

Lemma scan_records_app env p l1 l2 st :
  scan_records env p (l1 ++ l2) st = scan_records env p l1 st ≫= scan_records env p l2.
Proof.
  revert st. induction l1 as [|rec l1 IH]; intros st; simpl; [done|].
  destruct (decide _); [destruct (default_rewriter st); apply IH|].
  destruct (all_checks env (_checkers rec)) as [[]|]; simpl; [|apply IH|done].
  destruct (final_rewriter st); apply IH.
Qed.

Lemma resolve_total R env : checks_defined env R → is_Ok (resolve R env).
Proof. apply get_records_loop_total. Qed.

Lemma resolve_NoDup R env res :
  PyDict.wf R → resolve R env = Ok res →
  NoDup ((default_records res).*1 ++ (records res).*1).
Proof.
  intros Hwf H. apply get_records_loop_spec in H
    as (ds & ns & w & -> & -> & _ & _ & _ & Hsub); simpl.
  by eapply NoDup_submseteq_inv.
Qed.

Ltac by_computation := apply (bool_decide_unpack _); vm_compute; reflexivity.

(** The entry of a path in the joined result, from what its scan selects. *)
Lemma get_records_selects R env p l c :
  PyDict.wf R → checks_defined env R → PyDict.get p R = Some l →
  (∀ w st,
     scan_records env p l
       {| default_rewriter := None; final_rewriter := None; warned := w |}
       = Ok st → final_rewriter st = Some c) →
  ∃ res, resolve R env = Ok res ∧
    filter (λ e, e.1 = p) (default_records res ++ records res) = [(p, c)].
Proof.
  intros Hwf Hdef Hget Hsel.
  destruct (resolve_total R env Hdef) as [res Hres]. exists res.
  split; [done|].
  apply one_entry_per_path.
  - rewrite fmap_app. by eapply resolve_NoDup.
  - apply PyDict_get_elem_of in Hget.
    destruct (get_records_loop_entry env R _ res p l Hres Hget)
      as (w & st & Hscan & Hf & _ & _).
    apply elem_of_app. right. apply Hf. by eapply Hsel.
Qed.

(** * Unregistering *)

Section Remove.
Context (object : nat) (filter_cb : option (RewriteRecord → bool)).
Local Abbreviation dm := (doomed object filter_cb).

Lemma key_to_pop_item (key : string) recs :
  flat_map (λ rec,
    if decide (_object rec = object) then
      match filter_cb with
      | Some cb => if cb rec then [] else [(key, rec)]
      | None => [(key, rec)]
      end
    else []) recs
  = (λ r, (key, r)) <$> filter (λ r, dm r = true) recs.
Proof.
  induction recs as [|rec recs IH]; [done|]. simpl. rewrite IH, filter_cons.
  destruct (decide (dm rec = true)) as [Hd|Hd]; unfold doomed in Hd;
    destruct (decide (_object rec = object)) as [Ho|Ho];
    rewrite ?(bool_decide_eq_true_2 _ Ho), ?(bool_decide_eq_false_2 _ Ho) in Hd;
    destruct filter_cb as [cb|]; try destruct (cb rec);
    simpl in *; done.
Qed.

Lemma key_to_pop_cons key recs R :
  key_to_pop ((key, recs) :: R) object filter_cb
  = ((λ r, (key, r)) <$> filter (λ r, dm r = true) recs)
      ++ key_to_pop R object filter_cb.
Proof. unfold key_to_pop. simpl. by rewrite key_to_pop_item. Qed.

(** Removing the first collected record from the list it came from. *)
Lemma list_remove_first_doomed l r rs :
  filter (λ r, dm r = true) l = r :: rs →
  ∃ l', list_remove r l = Ok l' ∧
    filter (λ r, dm r = true) l' = rs ∧
    filter (λ r, dm r ≠ true) l' = filter (λ r, dm r ≠ true) l.
Proof.
  induction l as [|x l IH]; [done|]. rewrite !filter_cons. simpl.
  destruct (decide (dm x = true)) as [Hx|Hx].
  - intros [= -> <-]. exists l. rewrite decide_True by done.
    split; [done|]. split; [done|]. by rewrite decide_False by (intros Hn; by apply Hn).
  - intros Hf. destruct (IH Hf) as (l' & Hrem & Hd & Hk).
    assert (x ≠ r) as Hne.
    { intros ->. apply Hx.
      assert (r ∈ filter (λ r, dm r = true) l) as Hin
        by (rewrite Hf; left).
      by apply list_elem_of_filter in Hin as [? _]. }
    exists (x :: l'). rewrite decide_False by done. rewrite Hrem. simpl.
    rewrite !filter_cons.
    rewrite (decide_False (P := dm x = true)) by done.
    rewrite !(decide_True (P := dm x ≠ true)) by done.
    split; [done|]. split; [done|]. by rewrite Hk.
Qed.

Lemma filter_none_all l :
  filter (λ r, dm r = true) l = [] → filter (λ r, dm r ≠ true) l = l.
Proof.
  induction l as [|x l IH]; [done|]. rewrite !filter_cons.
  destruct (decide (dm x = true)); [done|].
  intros H. rewrite decide_True by done. by rewrite IH.
Qed.
End Remove.

Section DictShape.
Context {V : Type}.

Lemma PyDict_get_middle (d1 d2 : PyDict.t V) k v :
  k ∉ PyDict.keys d1 → PyDict.get k (d1 ++ (k, v) :: d2) = Some v.
Proof.
  induction d1 as [|[k' v'] d1 IH]; simpl; intros Hk.
  - by rewrite decide_True.
  - apply not_elem_of_cons in Hk as [? ?]. rewrite decide_False by done. auto.
Qed.

Lemma PyDict_set_middle (d1 d2 : PyDict.t V) k v v' :
  k ∉ PyDict.keys d1 →
  PyDict.set k v' (d1 ++ (k, v) :: d2) = d1 ++ (k, v') :: d2.
Proof.
  induction d1 as [|[k0 v0] d1 IH]; simpl; intros Hk.
  - by rewrite decide_True.
  - apply not_elem_of_cons in Hk as [? ?]. rewrite decide_False by done.
    f_equal. auto.
Qed.

Lemma PyDict_pop_middle (d1 d2 : PyDict.t V) k v :
  k ∉ PyDict.keys d1 → PyDict.pop k (d1 ++ (k, v) :: d2) = d1 ++ d2.
Proof.
  induction d1 as [|[k0 v0] d1 IH]; simpl; intros Hk.
  - by rewrite decide_True.
  - apply not_elem_of_cons in Hk as [? ?]. rewrite decide_False by done.
    f_equal. auto.
Qed.
End DictShape.

Section RemoveLoop.
Context (object : nat) (filter_cb : option (RewriteRecord → bool)).
Local Abbreviation dm := (doomed object filter_cb).
Local Abbreviation ci := (cleanup_item object filter_cb).

Lemma cleanup_item_doomed k l :
  filter (λ r, dm r = true) l ≠ [] →
  ci (k, l) =
    if decide (filter (λ r, dm r ≠ true) l = []) then []
    else [(k, filter (λ r, dm r ≠ true) l)].
Proof. intros H. unfold cleanup_item. simpl. by rewrite decide_False. Qed.

(** The collected records of one key are removed one after the other from
    the list of that key. *)
Lemma pop_records_segment (k : string) rs :
  ∀ l (R1 R2 : Registry) rest,
    k ∉ PyDict.keys R1 → filter (λ r, dm r = true) l = rs → rs ≠ [] →
    pop_records (((λ r, (k, r)) <$> rs) ++ rest) (R1 ++ (k, l) :: R2)
    = pop_records rest (R1 ++ ci (k, l) ++ R2).
Proof.
  induction rs as [|r rs IH]; intros l R1 R2 rest Hk Hf Hnil; [done|].
  clear Hnil.
  rewrite cleanup_item_doomed by (by rewrite Hf).
  destruct (list_remove_first_doomed _ _ _ _ _ Hf) as (l' & Hrem & Hd & Hkeep).
  rewrite fmap_cons, <- app_comm_cons.
  change (pop_records ((k, r) :: ?t) ?R) with
    (match PyDict.get k R with
     | None => Raise KeyError
     | Some recs =>
         list_remove r recs ≫= λ recs',
         if decide (length recs' = 0)
         then pop_records t (PyDict.pop k R)
         else pop_records t (PyDict.set k recs' R)
     end).
  rewrite PyDict_get_middle by done. rewrite Hrem.
  change (Ok l' ≫= ?f) with (f l'). cbv beta.
  rewrite <- Hkeep.
  destruct (decide (length l' = 0)) as [Hz|Hz].
  - apply length_zero_nil in Hz. subst l'. rewrite filter_nil in Hd. subst rs.
    rewrite PyDict_pop_middle by done. rewrite filter_nil.
    rewrite decide_True by done. done.
  - rewrite PyDict_set_middle by done.
    destruct rs as [|r' rs'].
    + rewrite (filter_none_all _ _ _ Hd).
      rewrite decide_False by (by rewrite <- length_zero_nil). done.
    + rewrite (IH l' R1 R2 rest Hk Hd) by done.
      rewrite cleanup_item_doomed by (by rewrite Hd). done.
Qed.

Lemma cleanup_item_keys item :
  (ci item).*1 = [] ∨ (ci item).*1 = [item.1].
Proof.
  unfold cleanup_item. repeat destruct (decide _); simpl; auto.
Qed.

Lemma pop_records_cleanup (R2 : Registry) :
  ∀ R1 : Registry, PyDict.wf (R1 ++ R2) →
    pop_records (key_to_pop R2 object filter_cb) (R1 ++ R2)
    = Ok (R1 ++ cleanup object filter_cb R2).
Proof.
  induction R2 as [|[k l] R2 IH]; intros R1 Hwf; [done|].
  rewrite key_to_pop_cons. unfold cleanup. simpl. fold (cleanup object filter_cb R2).
  assert ((k ∉ PyDict.keys R1) ∧ PyDict.wf ((R1 ++ ci (k, l)) ++ R2)) as [Hk Hwf'].
  { unfold PyDict.wf, PyDict.keys in *. rewrite !fmap_app in *. simpl in Hwf.
    apply NoDup_app in Hwf as (Hnd1 & Hdis & Hnd2).
    apply NoDup_cons in Hnd2 as [Hk2 Hnd2].
    split; [intros Hin; apply (Hdis _ Hin); left|].
    destruct (cleanup_item_keys (k, l)) as [->| ->]; simpl.
    - rewrite app_nil_r. apply NoDup_app. split; [done|]. split; [|done].
      intros x Hx Hx2. apply (Hdis _ Hx). by right.
    - rewrite <- app_assoc. simpl. apply NoDup_app. split; [done|].
      split; [done|]. by apply NoDup_cons. }
  destruct (decide (filter (λ r, dm r = true) l = [])) as [Hnone|Hsome].
  - rewrite Hnone. simpl.
    assert (ci (k, l) = [(k, l)]) as Hci
      by (unfold cleanup_item; simpl; by rewrite decide_True).
    rewrite Hci in Hwf' |- *.
    specialize (IH (R1 ++ [(k, l)]) Hwf').
    rewrite (cons_middle (k, l) R1 R2), !app_assoc. exact IH.
  - rewrite (pop_records_segment k _ l R1 R2 _ Hk eq_refl Hsome).
    specialize (IH (R1 ++ ci (k, l)) Hwf').
    rewrite !app_assoc. exact IH.
Qed.

Lemma remove_record_cleanup (R : Registry) :
  PyDict.wf R →
  remove_record R object filter_cb = Ok (cleanup object filter_cb R).
Proof. intros Hwf. apply (pop_records_cleanup R []). exact Hwf. Qed.

Lemma cleanup_nonempty (R : Registry) :
  nonempty_lists R → nonempty_lists (cleanup object filter_cb R).
Proof.
  induction 1 as [|[k l] R Hl _ IH]; [constructor|].
  unfold cleanup. simpl. apply Forall_app. split; [|exact IH].
  unfold cleanup_item. simpl in *.
  repeat destruct (decide _); repeat constructor; done.
Qed.

Lemma cleanup_wf (R : Registry) :
  PyDict.wf R → PyDict.wf (cleanup object filter_cb R).
Proof.
  unfold PyDict.wf, PyDict.keys.
  induction R as [|[k l] R IH]; [done|]. rewrite fmap_cons. simpl.
  intros [Hk Hnd]%NoDup_cons. unfold cleanup. simpl.
  fold (cleanup object filter_cb R). rewrite fmap_app.
  assert ((cleanup object filter_cb R).*1 ⊆ R.*1) as Hsub.
  { clear. induction R as [|[k l] R IH]; [done|].
    unfold cleanup. simpl. fold (cleanup object filter_cb R).
    rewrite fmap_app.
    destruct (cleanup_item_keys (k, l)) as [->| ->]; simpl; set_solver. }
  destruct (cleanup_item_keys (k, l)) as [->| ->]; simpl; [auto|].
  apply NoDup_cons. split; [set_solver|auto].
Qed.
End RemoveLoop.

(** * The substitution primitives *)

Lemma bindM_Ok {A B} (m : M A) (f : A → M B) w w' b :
  bindM m f w = (w', Ok b) → ∃ a w1, m w = (w1, Ok a) ∧ f a w1 = (w', Ok b).
Proof.
  unfold bindM. destruct (m w) as [w1 [a|e]]; [eauto|discriminate].
Qed.

Lemma readM_Ok {A} (f : World → result A) w w' a :
  readM f w = (w', Ok a) → w' = w ∧ f w = Ok a.
Proof. unfold readM. by intros [= -> ->]. Qed.

Ltac inv_M H :=
  repeat match type of H with
  | bindM _ _ _ = (_, Ok _) =>
      let a := fresh "a" in let w1 := fresh "w" in let Ha := fresh "Hstep" in
      apply bindM_Ok in H as (a & w1 & Ha & H)
  end.

Lemma obj_ext (a b : pyobj) :
  same_shape a b → (∀ key, get_slot a key = get_slot b key) → a = b.
Proof.
  destruct a as [f|d|d m|d|l], b as [g|e|e m'|e|k]; simpl; try done; intros Hs Hk.
  - by subst.
  - f_equal. apply map_eq. intros i. apply (Hk (KAttr i)).
  - subst. f_equal. apply map_eq. intros i. apply (Hk (KAttr i)).
  - f_equal. apply map_eq. intros i. apply (Hk (KAttr i)).
  - f_equal. apply list_eq. intros i. apply (Hk (KItem i)).
Qed.

Lemma same_shape_refl a : same_shape a a.
Proof. by destruct a. Qed.

Lemma same_shape_trans a b c : same_shape a b → same_shape b c → same_shape a c.
Proof. destruct a, b, c; simpl; try done; congruence. Qed.

Lemma replace_in_ref_shape x y ik obj :
  same_shape obj (replace_in_ref x y ik obj).
Proof. by destruct obj. Qed.

Lemma replace_in_dict_lookup x y ik (d : gmap string nat) k :
  replace_in_dict x y ik d !! k = replace_at x y ik (KAttr k) <$> d !! k.
Proof.
  unfold replace_in_dict. rewrite map_lookup_imap.
  destruct (d !! k) as [v|]; simpl; [|done].
  unfold replace_at. simpl. f_equal.
  destruct (decide (k ∈ ik)), (decide (k ∉ ik)); done.
Qed.

Lemma replace_in_ref_slot x y ik obj key :
  get_slot (replace_in_ref x y ik obj) key
  = replace_at x y ik key <$> get_slot obj key.
Proof.
  destruct obj as [f|d|d m|d|l], key as [k|i]; simpl; try done;
    try apply replace_in_dict_lookup.
  rewrite list_lookup_fmap. done.
Qed.

Lemma replaced_lookup x y ik h o :
  replaced x y ik h !! o = replace_in_ref x y ik <$> h !! o.
Proof.
  unfold replaced. rewrite map_lookup_imap.
  destruct (h !! o); simpl; done.
Qed.

Lemma replaced_sl x y ik h o key :
  sl (replaced x y ik h) o key = replace_at x y ik key <$> sl h o key.
Proof.
  unfold sl. rewrite replaced_lookup. destruct (h !! o); simpl; [|done].
  apply replace_in_ref_slot.
Qed.

Lemma with_attr_shape obj name v : same_shape obj (with_attr obj name v).
Proof. by destruct obj. Qed.

Lemma with_attr_slot obj name v key :
  has_attrs obj →
  get_slot (with_attr obj name v) key
  = if decide (key = KAttr name) then v else get_slot obj key.
Proof.
  intros Hobj. destruct key as [k|i].
  - destruct (decide (k = name)) as [->|Hne].
    + rewrite decide_True by done.
      destruct obj; simpl in *; try done; apply lookup_partial_alter_eq.
    + rewrite decide_False by congruence.
      destruct obj; simpl in *; try done; by apply lookup_partial_alter_ne.
  - rewrite decide_False by done. by destruct obj.
Qed.

Lemma setattr_Ok o name v w w' :
  setattr o name v w = (w', Ok tt) →
  ∃ obj, heap w !! o = Some obj ∧ has_attrs obj ∧
    w' = set_heap (<[o := with_attr obj name (Some v)]> (heap w)) w.
Proof.
  unfold setattr. destruct (heap w !! o) as [[f|d|d m|d|l]|] eqn:Ho;
    try discriminate; intros [= <-]; eexists; (split; [done|]); (split; [done|]);
    done.
Qed.

(** * Evaluation of paths *)

Lemma last_removelast {A} (l : list A) x :
  last l = Some x → l = removelast l ++ [x].
Proof.
  induction l as [|a [|b l] IH]; simpl; [done|by intros [= ->]|].
  intros H. f_equal. by apply IH.
Qed.

Lemma removelast_snoc {A} (l : list A) x : removelast (l ++ [x]) = l.
Proof. apply removelast_last. Qed.

Lemma length_removelast_pos {A} (l : list A) :
  1 < length l → removelast l ≠ [].
Proof. destruct l as [|a [|b l]]; simpl; (lia || done). Qed.

Lemma getattr_chain_app w o names1 names2 :
  getattr_chain w o (names1 ++ names2)
  = getattr_chain w o names1 ≫= λ c, getattr_chain w c names2.
Proof.
  revert o. induction names1 as [|n names1 IH]; intros o; simpl; [done|].
  destruct (getattr w o n); simpl; [apply IH|done].
Qed.

Lemma eval_cons w b n rest :
  eval w b (n :: rest)
  = if existsb (String.eqb "") (n :: rest) then Raise SyntaxError
    else if b then
      match sys_modules w !! n with
      | Some m => getattr_chain w m rest
      | None => Raise NameError
      end
    else Raise NameError.
Proof. reflexivity. Qed.

Lemma existsb_snoc_false {A} (f : A → bool) l x :
  existsb f (l ++ [x]) = false ↔ existsb f l = false ∧ f x = false.
Proof.
  rewrite existsb_app. simpl. rewrite orb_false_r.
  destruct (existsb f l), (f x); simpl; split; (done || by intros []).
Qed.

(** A successful evaluation of a path of two or more names is a successful
    evaluation of its prefix followed by one attribute access. *)
Lemma eval_split_last w b names x v :
  1 < length names → last names = Some x → eval w b names = Ok v →
  b = true ∧ existsb (String.eqb "") names = false ∧
  ∃ c, eval w b (removelast names) = Ok c ∧ getattr w c x = Ok v.
Proof.
  intros Hlen Hlast Hev.
  pose proof (length_removelast_pos _ Hlen) as Hpre.
  rewrite (last_removelast _ _ Hlast) in Hev |- *.
  rewrite removelast_snoc.
  destruct (removelast names) as [|n rest]; [done|]. clear Hpre.
  change ((n :: rest) ++ [x]) with (n :: (rest ++ [x])) in Hev.
  rewrite eval_cons in Hev. rewrite eval_cons.
  change (n :: (rest ++ [x])) with ((n :: rest) ++ [x]) in Hev.
  destruct (existsb (String.eqb "") ((n :: rest) ++ [x])) eqn:Hex; [done|].
  destruct b; [|done]. split; [done|]. split; [done|].
  apply existsb_snoc_false in Hex as [-> _].
  destruct (sys_modules w !! n) as [m|]; [|done].
  rewrite getattr_chain_app in Hev.
  destruct (getattr_chain w m rest) as [c|]; [|done].
  exists c. split; [done|].
  simpl in Hev. by destruct (getattr w c x).
Qed.

Lemma eval_snoc w names x c v :
  eval w true names = Ok c → String.eqb "" x = false → getattr w c x = Ok v →
  eval w true (names ++ [x]) = Ok v.
Proof.
  intros Hev Hx Hget. destruct names as [|n rest]; [done|].
  change ((n :: rest) ++ [x]) with (n :: (rest ++ [x])).
  rewrite eval_cons in Hev. rewrite eval_cons.
  change (n :: (rest ++ [x])) with ((n :: rest) ++ [x]).
  destruct (existsb (String.eqb "") (n :: rest)) eqn:Hex; [done|].
  rewrite (proj2 (existsb_snoc_false _ _ _) (conj Hex Hx)).
  destruct (sys_modules w !! n) as [m|]; [|done].
  rewrite getattr_chain_app, Hev. simpl. by rewrite Hget.
Qed.

Lemma split_from_nonempty s cur : split_from s cur ≠ [].
Proof.
  revert cur. induction s as [|c s IH]; intros cur; simpl; [done|].
  destruct (decide _); [done|apply IH].
Qed.

Lemma getattr_Ok_has_attrs w o name v :
  getattr w o name = Ok v → ∃ obj, heap w !! o = Some obj ∧ has_attrs obj.
Proof.
  unfold getattr. destruct (heap w !! o) as [[f|d|d m|d|l]|]; try done;
    intros _; eexists; split; done.
Qed.

(** What a successful [_set_func] on a path of two or more names did: the
    prefix named a module or a class; for a module the references to the
    function found at the path were replaced first; then the attribute was
    written on the object the prefix named in the resulting graph. *)
Lemma _set_func_spec p v ik w w' :
  1 < length (split p) →
  _set_func p v [] ik w = (w', Ok tt) →
  ∃ name c cur c' obj,
    last (split p) = Some name ∧
    import_loop w (split p) = true ∧
    existsb (String.eqb "") (split p) = false ∧
    eval w true (removelast (split p)) = Ok c ∧
    getattr w c name = Ok cur ∧
    let h1 := if is_class w c then heap w else replaced cur v ik (heap w) in
    eval (set_heap h1 w) true (removelast (split p)) = Ok c' ∧
    h1 !! c' = Some obj ∧ has_attrs obj ∧
    w' = set_heap (<[c' := with_attr obj name (Some v)]> h1) w.
Proof.
  intros Hlen H. unfold _set_func in H.
  apply bindM_Ok in H as (bound & w1 & Hb & H).
  apply readM_Ok in Hb as [-> [= <-]].
  apply bindM_Ok in H as (cur & w1 & Hcur & H).
  apply readM_Ok in Hcur as [-> Hcur].
  rewrite decide_True in H by done.
  apply bindM_Ok in H as (mc & w1 & Hmc & H).
  apply bindM_Ok in Hmc as (c & w2 & Hc & Hmc).
  apply readM_Ok in Hc as [-> Hc].
  apply readM_Ok in Hmc as [-> [= <-]].
  apply bindM_Ok in H as ([] & w1 & Hrep & H).
  destruct (last (split p)) as [name|] eqn:Hlast.
  2:{ apply last_None in Hlast. rewrite Hlast in Hlen. simpl in Hlen. lia. }
  destruct (eval_split_last _ _ _ _ _ Hlen Hlast Hcur) as (Hbound & Hempty & c0 & Hc0 & Hget).
  rewrite Hc in Hc0. injection Hc0 as <-.
  rewrite Hbound in *.
  unfold exec_assign in H. rewrite Hempty, Hlast in H.
  rewrite decide_False in H by lia.
  apply bindM_Ok in H as (c' & w2 & Hc' & H).
  apply readM_Ok in Hc' as [-> Hc'].
  apply setattr_Ok in H as (obj & Hobj & Hattrs & ->).
  exists name, c, cur, c', obj.
  split; [done|]. split; [done|]. split; [done|]. split; [done|]. split; [done|].
  destruct (is_class w c) eqn:Hcls.
  - injection Hrep as <-. simpl. split; [|done].
    by destruct w.
  - unfold _replace_all_obj, modifyM in Hrep. injection Hrep as <-.
    simpl in *. done.
Qed.

(** * The session invariant *)

Lemma get_slot_refs obj key v : get_slot obj key = Some v → v ∈ obj_refs obj.
Proof.
  destruct obj as [f|d|d m|d|l], key as [k|i]; simpl; try done; intros H.
  - apply list_elem_of_fmap. exists (k, v). split; [done|].
    by apply elem_of_map_to_list.
  - apply elem_of_app. left. apply list_elem_of_fmap. exists (k, v).
    split; [done|]. by apply elem_of_map_to_list.
  - apply list_elem_of_fmap. exists (k, v). split; [done|].
    by apply elem_of_map_to_list.
  - by eapply list_elem_of_lookup_2.
Qed.

Lemma closed_slot w o key v :
  heap_closed w → sl (heap w) o key = Some v → is_Some (heap w !! v).
Proof.
  intros [_ Hc] Hsl. unfold sl in Hsl.
  destruct (heap w !! o) as [obj|] eqn:Ho; [|done]. simpl in Hsl.
  specialize (Hc o obj Ho). simpl in Hc.
  apply (proj1 (Forall_forall _ _) Hc). by eapply get_slot_refs.
Qed.

Lemma closed_root w n m :
  heap_closed w → sys_modules w !! n = Some m → is_Some (heap w !! m).
Proof. intros [Hr _] Hn. by apply (Hr n m). Qed.

Section Reflect.
Context (w0 : World) (plan : list rewrite_entry).
Context (Hplan : plan_ok w0 plan) (Hclosed : heap_closed w0).

Lemma new_not_old v : is_new plan v → heap w0 !! v = None.
Proof. intros (e & He & <-). by apply (plan_new _ _ Hplan). Qed.

Lemma add_slot_absent o key :
  add_slot plan o key →
  is_class w0 o = true ∧ sl (heap w0) o key = None.
Proof.
  intros (e & He & Hadd & <- & ->).
  pose proof (plan_slot _ _ Hplan e He) as Hs. by rewrite Hadd in Hs.
Qed.

(** A copy stands in for one function only. *)
Lemma back_new_old e v0 :
  e ∈ plan → back plan (e_new e) v0 → is_Some (heap w0 !! v0) → v0 = e_old e.
Proof.
  intros He [Heq|(e' & He' & Hn & <-)] Hv0.
  - subst v0. rewrite (plan_new _ _ Hplan e He) in Hv0. by destruct Hv0.
  - by rewrite (plan_inj _ _ Hplan e' e He' He Hn).
Qed.

Lemma back_old v v0 : back plan v v0 → ¬ is_new plan v → v = v0.
Proof. intros [?|(e & He & Hn & _)] Hnn; [done|]. exfalso. apply Hnn. by exists e. Qed.

Context (w : World) (Hinv : Inv_core w0 plan (heap w)).
Context (Hroots : sys_modules w = sys_modules w0).

Lemma isfun_no_attrs v obj :
  isfun w0 plan v → heap w !! v = Some obj → ¬ has_attrs obj.
Proof.
  intros [(e & He & <-)|(fn & Hfn)] Hv Hobj.
  - destruct (inv_fresh _ _ _ Hinv e He) as (fn & Hfn).
    rewrite Hfn in Hv. injection Hv as <-. done.
  - destruct (inv_shape _ _ _ Hinv v _ Hfn) as (obj' & Hobj' & Hs).
    rewrite Hobj' in Hv. injection Hv as <-. by destruct obj'.
Qed.

(** An old slot that holds a module or a class holds what it held at the
    start, and is not an addition. *)
Lemma slot_reflect o key x obj :
  is_Some (heap w0 !! o) → sl (heap w) o key = Some x →
  heap w !! x = Some obj → has_attrs obj →
  sl (heap w0) o key = Some x.
Proof.
  intros Ho Hsl Hx Hobj.
  destruct (inv_rel _ _ _ Hinv o key Ho) as [Hadd|Hrel].
  - exfalso. eapply isfun_no_attrs; [|exact Hx|exact Hobj].
    by eapply (inv_add _ _ _ Hinv).
  - rewrite Hsl in Hrel. inversion Hrel as [? v0 Hb|]; subst.
    f_equal. symmetry. apply (back_old _ _ Hb).
    intros Hnew. eapply isfun_no_attrs; [by left|exact Hx|exact Hobj].
Qed.

(** An old slot that is empty was empty at the start. *)
Lemma slot_reflect_None o key :
  is_Some (heap w0 !! o) → sl (heap w) o key = None →
  sl (heap w0) o key = None.
Proof.
  intros Ho Hsl.
  destruct (inv_rel _ _ _ Hinv o key Ho) as [Hadd|Hrel].
  - by apply add_slot_absent.
  - rewrite Hsl in Hrel. by inversion Hrel.
Qed.

Lemma mro_lookup_reflect classes name x obj :
  mro_lookup (heap w) classes name = Some x →
  heap w !! x = Some obj → has_attrs obj →
  mro_lookup (heap w0) classes name = Some x.
Proof.
  intros Hl Hx Hobj. induction classes as [|c classes IH]; [done|].
  simpl in Hl |- *.
  destruct (heap w0 !! c) as [obj0|] eqn:Hc0.
  - destruct (inv_shape _ _ _ Hinv c obj0 Hc0) as (objc & Hc & Hs).
    rewrite Hc in Hl.
    destruct obj0 as [f|d0|d0 m0|d0|l0], objc as [g|d|d m|d|l]; try done;
      try by apply IH.
    destruct (d !! name) as [v|] eqn:Hd.
    + injection Hl as ->.
      assert (sl (heap w0) c (KAttr name) = Some x) as Hs0.
      { eapply slot_reflect; [by rewrite Hc0| |exact Hx|exact Hobj].
        unfold sl. by rewrite Hc. }
      unfold sl in Hs0. rewrite Hc0 in Hs0. simpl in Hs0. by rewrite Hs0.
    + assert (sl (heap w0) c (KAttr name) = None) as Hs0.
      { apply slot_reflect_None; [by rewrite Hc0|].
        unfold sl. by rewrite Hc. }
      unfold sl in Hs0. rewrite Hc0 in Hs0. simpl in Hs0. rewrite Hs0.
      by apply IH.
  - destruct (heap w !! c) as [objc|] eqn:Hc; [|by apply IH].
    destruct (inv_alloc _ _ _ Hinv c objc Hc0 Hc) as [(fn & ->)|(d & ->)];
      by apply IH.
Qed.

Lemma getattr_reflect o name x obj :
  is_Some (heap w0 !! o) → getattr w o name = Ok x →
  heap w !! x = Some obj → has_attrs obj →
  getattr w0 o name = Ok x ∧ is_Some (heap w0 !! x).
Proof.
  intros [obj0 Ho0] Hget Hx Hobj.
  destruct (inv_shape _ _ _ Hinv o obj0 Ho0) as (objo & Ho & Hs).
  unfold getattr in Hget |- *. rewrite Ho in Hget. rewrite Ho0.
  destruct obj0 as [f|d0|d0 m0|d0|l0], objo as [g|d|d m|d|l]; try done.
  - destruct (d !! name) as [v|] eqn:Hd; [|done]. injection Hget as ->.
    assert (sl (heap w0) o (KAttr name) = Some x) as Hs0.
    { eapply slot_reflect; [by rewrite Ho0| |exact Hx|exact Hobj].
      unfold sl. by rewrite Ho. }
    split; [|by eapply closed_slot].
    unfold sl in Hs0. rewrite Ho0 in Hs0. simpl in Hs0. by rewrite Hs0.
  - simpl in Hs. subst m0.
    destruct (mro_lookup (heap w) (o :: m) name) as [v|] eqn:Hl; [|done].
    injection Hget as ->.
    rewrite (mro_lookup_reflect _ _ _ _ Hl Hx Hobj). split; [done|].
    clear -Hclosed Hl Hx Hobj Hinv Hplan.
    pose proof (mro_lookup_reflect _ _ _ _ Hl Hx Hobj) as Hl0.
    revert Hl0. generalize (o :: m). intros classes.
    induction classes as [|c classes IH]; [done|]. simpl.
    destruct (heap w0 !! c) as [[f|d0|d0 m0|d0|l0]|] eqn:Hc0; try done.
    destruct (d0 !! name) as [v|] eqn:Hd; [|done]. intros [= ->].
    apply (closed_slot w0 c (KAttr name)); [done|].
    unfold sl. rewrite Hc0. done.
Qed.

Lemma getattr_chain_reflect names o c obj :
  is_Some (heap w0 !! o) → getattr_chain w o names = Ok c →
  heap w !! c = Some obj → has_attrs obj →
  getattr_chain w0 o names = Ok c ∧ is_Some (heap w0 !! c).
Proof.
  revert o. induction names as [|n names IH]; intros o Ho Hch Hc Hobj.
  - simpl in *. injection Hch as ->. done.
  - simpl in Hch |- *.
    destruct (getattr w o n) as [x|] eqn:Hget; [|done]. simpl in Hch.
    assert (∃ objx, heap w !! x = Some objx ∧ has_attrs objx) as (objx & Hx & Hox).
    { destruct names as [|n' names'].
      - simpl in Hch. injection Hch as ->. eauto.
      - simpl in Hch. destruct (getattr w x n') eqn:Hg'; [|done].
        by eapply getattr_Ok_has_attrs. }
    destruct (getattr_reflect o n x objx Ho Hget Hx Hox) as [-> Hx0].
    simpl. by apply IH.
Qed.

(** The prefix of a path that still names a module or a class names the
    one it named at the start. *)
Lemma eval_reflect names c obj :
  eval w true names = Ok c → heap w !! c = Some obj → has_attrs obj →
  eval w0 true names = Ok c.
Proof.
  intros Hev Hc Hobj. destruct names as [|n rest]; [done|].
  rewrite eval_cons in Hev. rewrite eval_cons.
  destruct (existsb _ _); [done|]. rewrite Hroots in Hev.
  destruct (sys_modules w0 !! n) as [m|] eqn:Hn; [|done].
  eapply getattr_chain_reflect; [by eapply closed_root|done..].
Qed.
End Reflect.

Lemma sl_insert h c obj o key :
  sl (<[c := obj]> h) o key
  = if decide (o = c) then get_slot obj key else sl h o key.
Proof.
  unfold sl. destruct (decide (o = c)) as [->|Hne].
  - by rewrite lookup_insert_eq.
  - by rewrite lookup_insert_ne.
Qed.

Lemma sl_write h c obj name v o key :
  h !! c = Some obj → has_attrs obj →
  sl (<[c := with_attr obj name v]> h) o key
  = if decide ((o, key) = (c, KAttr name)) then v else sl h o key.
Proof.
  intros Hc Hobj. rewrite sl_insert.
  destruct (decide (o = c)) as [->|Hne].
  - rewrite with_attr_slot by done.
    destruct (decide (key = KAttr name)) as [->|Hk].
    + by rewrite decide_True.
    + rewrite decide_False by congruence. unfold sl. by rewrite Hc.
  - by rewrite decide_False by congruence.
Qed.

Lemma replace_at_cases x y ik key u :
  (rewritable ik key ∧ u = x ∧ replace_at x y ik key u = y) ∨
  (¬ (rewritable ik key ∧ u = x) ∧ replace_at x y ik key u = u).
Proof.
  unfold replace_at, replace_value.
  destruct (decide (rewritable ik key)); [|right; split; [by intros []|done]].
  destruct (decide (u = x)); [left; done|right; split; [by intros []|done]].
Qed.

Section Core.
Context (w0 : World) (plan : list rewrite_entry).
Context (Hplan : plan_ok w0 plan) (Hclosed : heap_closed w0).

(** Two functions a value stands in for are the same function. *)
Lemma back_functional cur a b :
  back plan cur a → back plan cur b →
  is_Some (heap w0 !! a) → is_Some (heap w0 !! b) → a = b.
Proof.
  intros [->|(e & He & <- & <-)] Hb Ha Hbo.
  - destruct Hb as [->|(e & He & <- & <-)]; [done|].
    rewrite (plan_new _ _ Hplan e He) in Ha. by destruct Ha.
  - symmetry. by eapply back_new_old.
Qed.

Lemma core_replace h cur v ik :
  Inv_core w0 plan h →
  (∀ v0, back plan cur v0 → is_Some (heap w0 !! v0) → back plan v v0) →
  isfun w0 plan v →
  Inv_core w0 plan (replaced cur v ik h).
Proof.
  intros Hinv Hback Hv. split.
  - intros o obj0 Ho. destruct (inv_shape _ _ _ Hinv o obj0 Ho) as (obj & Hobj & Hs).
    exists (replace_in_ref cur v ik obj). rewrite replaced_lookup, Hobj.
    split; [done|]. eapply same_shape_trans; [exact Hs|apply replace_in_ref_shape].
  - intros o obj Ho Hobj. rewrite replaced_lookup in Hobj.
    destruct (h !! o) as [obj1|] eqn:Ho1; [|done]. injection Hobj as <-.
    destruct (inv_alloc _ _ _ Hinv o obj1 Ho Ho1) as [(fn & ->)|(d & ->)];
      simpl; eauto.
  - intros e He. destruct (inv_fresh _ _ _ Hinv e He) as (fn & Hfn).
    exists fn. by rewrite replaced_lookup, Hfn.
  - intros o key Ho. destruct (inv_rel _ _ _ Hinv o key Ho) as [Hadd|Hrel];
      [by left|right].
    rewrite replaced_sl.
    destruct (sl h o key) as [u|] eqn:Hu; inversion Hrel as [? v0 Hb Heq1 Heq2|];
      subst; simpl; constructor.
    destruct (replace_at_cases cur v ik key u) as [(_ & -> & ->)|[_ ->]]; [|done].
    apply Hback; [done|]. eapply closed_slot; [done|]. by symmetry.
  - intros o key u Hadd Hu. rewrite replaced_sl in Hu.
    destruct (sl h o key) as [u0|] eqn:Hu0; [|done]. injection Hu as <-.
    destruct (replace_at_cases cur v ik key u0) as [(_ & _ & ->)|[_ ->]]; [done|].
    by eapply (inv_add _ _ _ Hinv).
Qed.

Lemma core_write h c obj name v :
  Inv_core w0 plan h → h !! c = Some obj → has_attrs obj →
  is_Some (heap w0 !! c) →
  add_slot plan c (KAttr name) ∨
    option_Forall2 (back plan) v (sl (heap w0) c (KAttr name)) →
  (∀ u, v = Some u → isfun w0 plan u) →
  Inv_core w0 plan (<[c := with_attr obj name v]> h).
Proof.
  intros Hinv Hc Hobj Hc0 Hrel Hfun. split.
  - intros o obj0 Ho. destruct (decide (o = c)) as [->|Hne].
    + rewrite lookup_insert_eq. eexists. split; [done|].
      destruct (inv_shape _ _ _ Hinv c obj0 Ho) as (obj' & Hobj' & Hs).
      rewrite Hc in Hobj'. injection Hobj' as <-.
      eapply same_shape_trans; [exact Hs|apply with_attr_shape].
    + rewrite lookup_insert_ne by done. by apply (inv_shape _ _ _ Hinv).
  - intros o obj1 Ho Hobj1. destruct (decide (o = c)) as [->|Hne].
    + rewrite Ho in Hc0. by destruct Hc0.
    + rewrite lookup_insert_ne in Hobj1 by done. by eapply (inv_alloc _ _ _ Hinv).
  - intros e He. destruct (decide (e_new e = c)) as [Heq|Hne].
    + rewrite <- Heq, (plan_new _ _ Hplan e He) in Hc0. by destruct Hc0.
    + rewrite lookup_insert_ne by done. by apply (inv_fresh _ _ _ Hinv).
  - intros o key Ho. rewrite (sl_write _ _ _ _ _ _ _ Hc Hobj).
    destruct (decide ((o, key) = (c, KAttr name))) as [[= -> ->]|Hne].
    + exact Hrel.
    + by apply (inv_rel _ _ _ Hinv).
  - intros o key u Hadd Hu. rewrite (sl_write _ _ _ _ _ _ _ Hc Hobj) in Hu.
    destruct (decide ((o, key) = (c, KAttr name))) as [[= -> ->]|Hne].
    + by apply Hfun.
    + by eapply (inv_add _ _ _ Hinv).
Qed.
End Core.

Section Step.
Context (w0 : World) (plan : list rewrite_entry) (ik : list string).
Context (Hplan : plan_ok w0 plan) (Hclosed : heap_closed w0).

Lemma is_class_stable h o :
  Inv_core w0 plan h → is_Some (heap w0 !! o) →
  (match h !! o with Some (PClass _ _) => true | _ => false end)
  = is_class w0 o.
Proof.
  intros Hinv [obj0 Ho]. unfold is_class. rewrite Ho.
  destruct (inv_shape _ _ _ Hinv o obj0 Ho) as (obj & -> & Hs).
  by destruct obj0, obj.
Qed.

Lemma entry_old_isfun e : e ∈ plan → isfun w0 plan (e_old e).
Proof. intros He. right. by apply (plan_old _ _ Hplan). Qed.

Lemma entry_new_isfun e : e ∈ plan → isfun w0 plan (e_new e).
Proof. intros He. left. by exists e. Qed.

(** What a successful [_set_func] of a session did to the heap: it wrote
    at the slot of the entry, in the module or class the entry names,
    after replacing, for a module, the references to what the slot held. *)
Lemma set_step_heap e v w w' :
  e ∈ plan → v = e_new e ∨ v = e_old e →
  sys_modules w = sys_modules w0 → Inv_core w0 plan (heap w) →
  _set_func (e_path e) v [] ik w = (w', Ok tt) →
  ∃ cur obj1,
    import_loop w (split (e_path e)) = true ∧
    existsb (String.eqb "") (split (e_path e)) = false ∧
    eval w true (removelast (split (e_path e))) = Ok (e_obj e) ∧
    getattr w (e_obj e) (e_name e) = Ok cur ∧
    (is_class w0 (e_obj e) = false →
       sl (heap w) (e_obj e) (KAttr (e_name e)) = Some cur ∧
       back plan cur (e_old e) ∧ e_add e = false) ∧
    Inv_core w0 plan (mid_heap w0 e cur v ik (heap w)) ∧
    mid_heap w0 e cur v ik (heap w) !! e_obj e = Some obj1 ∧
    has_attrs obj1 ∧
    w' = set_heap (<[e_obj e := with_attr obj1 (e_name e) (Some v)]>
                     (mid_heap w0 e cur v ik (heap w))) w.
Proof.
  intros He Hv Hroots Hinv Hset.
  destruct (plan_path _ _ Hplan e He) as (Hlen & Hlast & Hpre0).
  destruct (_set_func_spec _ _ _ _ _ Hlen Hset)
    as (name & c & cur & c' & obj & Hlast' & Himp & Hemp & Hpre & Hget & Hrest).
  rewrite Hlast in Hlast'. injection Hlast' as <-.
  destruct (getattr_Ok_has_attrs _ _ _ _ Hget) as (objc & Hc & Hattrs).
  pose proof (eval_reflect w0 plan Hplan Hclosed w Hinv Hroots _ _ _ Hpre Hc Hattrs)
    as Hpre0'.
  rewrite Hpre0 in Hpre0'. injection Hpre0' as <-.
  destruct (plan_obj _ _ Hplan e He) as (obj0 & Hobj0 & Hattrs0).
  assert (is_class w (e_obj e) = is_class w0 (e_obj e)) as Hcls.
  { unfold is_class at 1. apply is_class_stable; [done|by rewrite Hobj0]. }
  rewrite Hcls in Hrest. fold (mid_heap w0 e cur v ik (heap w)) in Hrest.
  assert (is_class w0 (e_obj e) = false →
       sl (heap w) (e_obj e) (KAttr (e_name e)) = Some cur ∧
       back plan cur (e_old e) ∧ e_add e = false) as Hmod.
  { intros Hnc. 
    assert (sl (heap w) (e_obj e) (KAttr (e_name e)) = Some cur) as Hsl.
    { unfold sl. rewrite Hc. simpl. unfold getattr in Hget. rewrite Hc in Hget.
      destruct objc as [f|d|d m|d|l]; try done.
      - simpl. destruct (d !! e_name e); [by injection Hget as ->|done].
      - rewrite <- Hcls in Hnc. unfold is_class in Hnc. by rewrite Hc in Hnc. }
    split; [done|].
    pose proof (plan_slot _ _ Hplan e He) as Hslot.
    destruct (e_add e); [destruct Hslot; congruence|].
    split; [|done].
    destruct (inv_rel _ _ _ Hinv (e_obj e) (KAttr (e_name e))) as [Hadd|Hrel];
      [by rewrite Hobj0| |].
    - apply (add_slot_absent w0 plan Hplan) in Hadd as [? _]. congruence.
    - rewrite Hsl, Hslot in Hrel. by inversion Hrel. }
  assert (Inv_core w0 plan (mid_heap w0 e cur v ik (heap w))) as Hmid.
  { unfold mid_heap. destruct (is_class w0 (e_obj e)) eqn:Hk; [done|].
    destruct (Hmod eq_refl) as (Hsl & Hback & _).
    apply (core_replace w0 plan Hclosed _ _ _ _ Hinv).
    - intros v0 Hb0 Hold.
      assert (v0 = e_old e) as ->.
      { eapply (back_functional w0 plan Hplan); [exact Hb0|exact Hback|done|].
        destruct (plan_old _ _ Hplan e He) as (fn & ->). done. }
      destruct Hv as [-> | ->]; [right; by exists e|by left].
    - destruct Hv as [-> | ->]; [by apply entry_new_isfun|by apply entry_old_isfun]. }
  destruct Hrest as (Hpre' & Hc' & Hattrs' & ->).
  assert (c' = e_obj e) as ->.
  { assert (eval w0 true (removelast (split (e_path e))) = Ok c') as Hr.
    { eapply (eval_reflect w0 plan Hplan Hclosed
                (set_heap (mid_heap w0 e cur v ik (heap w)) w));
        [exact Hmid|exact Hroots|exact Hpre'|exact Hc'|exact Hattrs']. }
    rewrite Hpre0 in Hr. by injection Hr. }
  exists cur, obj. repeat (split; [done|]). done.
Qed.
End Step.

Section StepInv.
Context (w0 : World) (plan : list rewrite_entry) (ik : list string).
Context (Hplan : plan_ok w0 plan) (Hclosed : heap_closed w0).

Lemma entry_module_or_class e :
  e ∈ plan → is_class w0 (e_obj e) = false → is_module w0 (e_obj e) = true.
Proof.
  intros He. destruct (plan_obj _ _ Hplan e He) as (obj0 & Hobj0 & Hattrs0).
  unfold is_class, is_module. rewrite Hobj0. by destruct obj0.
Qed.

Lemma module_not_class o : is_module w0 o = true → is_class w0 o = false.
Proof. unfold is_module, is_class. by destruct (heap w0 !! o) as [[]|]. Qed.

Lemma new_ne_old e e' : e ∈ plan → e' ∈ plan → e_old e ≠ e_new e'.
Proof.
  intros He He' Heq. destruct (plan_old _ _ Hplan e He) as (fn & Hfn).
  rewrite Heq, (plan_new _ _ Hplan e' He') in Hfn. done.
Qed.

Local Abbreviation after_step := (after_step w0 ik).

Lemma after_step_sl e cur v h obj1 o key :
  mid_heap w0 e cur v ik h !! e_obj e = Some obj1 → has_attrs obj1 →
  sl (<[e_obj e := with_attr obj1 (e_name e) (Some v)]>
        (mid_heap w0 e cur v ik h)) o key
  = after_step e cur v h o key.
Proof.
  intros Hobj1 Hattrs. rewrite (sl_write _ _ _ _ _ _ _ Hobj1 Hattrs).
  unfold after_step, home_slot.
  destruct (decide ((o, key) = (e_obj e, KAttr (e_name e)))); [done|].
  unfold mid_heap. destruct (is_class w0 (e_obj e)); [done|].
  apply replaced_sl.
Qed.

Lemma after_step_home e cur v h :
  after_step e cur v h (e_obj e) (KAttr (e_name e)) = Some v.
Proof. unfold after_step, home_slot. by rewrite decide_True. Qed.

Lemma home_after_step e e' cur v h :
  e ∈ plan → e' ∈ plan → v = e_new e ∨ v = e_old e →
  inv_home w0 plan ik h →
  (is_class w0 (e_obj e) = false →
     sl h (e_obj e) (KAttr (e_name e)) = Some cur) →
  ∀ o key, is_Some (heap w0 !! o) →
    after_step e cur v h o key = Some (e_new e') →
    after_step e cur v h (e_obj e') (KAttr (e_name e')) = Some (e_new e') ∧
    ((o, key) = home_slot e' ∨
     (is_module w0 (e_obj e') = true ∧ rewritable ik key)).
Proof.
  intros He He' Hv Hhome Hcur o key Ho Hafter.
  assert (v = e_new e' → e' = e ∧ v = e_new e) as Hvnew.
  { intros Heq. destruct Hv as [-> | ->].
    - split; [|done]. by apply (plan_inj _ _ Hplan).
    - by apply new_ne_old in Heq. }
  unfold after_step in Hafter.
  destruct (decide ((o, key) = home_slot e)) as [Hhe|Hhe].
  { injection Hafter as Heq. destruct (Hvnew Heq) as [-> _].
    split; [by rewrite after_step_home, Heq|by left]. }
  destruct (is_class w0 (e_obj e)) eqn:Hcls.
  - destruct (Hhome o key e' Ho He' Hafter) as [Hh D]. split; [|done].
    unfold after_step. rewrite Hcls.
    destruct (decide ((e_obj e', KAttr (e_name e')) = home_slot e)) as [Heq|_];
      [|done].
    exfalso. destruct D as [D|[D _]].
    + apply Hhe. rewrite D. done.
    + injection Heq as Heq _. rewrite Heq in D.
      apply module_not_class in D. congruence.
  - specialize (Hcur eq_refl).
    destruct (sl h o key) as [u|] eqn:Hu; [|done]. injection Hafter as Hafter.
    destruct (replace_at_cases cur v ik key u) as [(Hrw & -> & Hr)|[Hnot Hr]];
      rewrite Hr in Hafter.
    + destruct (Hvnew Hafter) as [-> ->].
      split; [by rewrite after_step_home|]. right.
      split; [by apply entry_module_or_class|done].
    + subst u. destruct (Hhome o key e' Ho He' Hu) as [Hh D]. split; [|done].
      unfold after_step. rewrite Hcls.
      destruct (decide ((e_obj e', KAttr (e_name e')) = home_slot e)) as [Heq|_].
      * exfalso. injection Heq as Heq1 Heq2. rewrite Heq1, Heq2, Hcur in Hh.
        injection Hh as Hh. destruct D as [D|[_ D]].
        -- apply Hhe. rewrite D. unfold home_slot. by rewrite Heq1, Heq2.
        -- apply Hnot. done.
      * rewrite Hh. simpl. f_equal.
        destruct (replace_at_cases cur v ik (KAttr (e_name e')) (e_new e'))
          as [(Hrw & Hc & _)|[_ ->]]; [|done].
        exfalso. destruct D as [D|[_ D]].
        -- injection D as _ ->. apply Hnot. done.
        -- apply Hnot. done.
Qed.
End StepInv.




Section Mono.
Context (w w' : World).
Context (Hmono : heap_mono (heap w) (heap w')).
Context (Hroots : sys_modules w' = sys_modules w).








End Mono.

Section StepAll.
Context (w0 : World) (plan : list rewrite_entry) (ik : list string).
Context (Hplan : plan_ok w0 plan) (Hclosed : heap_closed w0).

Lemma mid_heap_lookup e cur v h o :
  ∃ f : pyobj → pyobj,
    mid_heap w0 e cur v ik h !! o = f <$> h !! o ∧
    ∀ obj, same_shape obj (f obj).
Proof.
  unfold mid_heap. destruct (is_class w0 (e_obj e)).
  - exists id. split; [by destruct (h !! o)|apply same_shape_refl].
  - exists (replace_in_ref cur v ik). split; [apply replaced_lookup|].
    apply replace_in_ref_shape.
Qed.

(** An old slot never holds a module or a class where a function is
    expected: what the slot of an entry holds has no attributes. *)
Lemma home_value_no_attrs e h u obj :
  e ∈ plan → Inv_core w0 plan h →
  sl h (e_obj e) (KAttr (e_name e)) = Some u → h !! u = Some obj →
  ¬ has_attrs obj.
Proof.
  intros He Hinv Hu Hobj Hattrs.
  assert (isfun w0 plan u) as Hfun.
  { destruct (plan_obj _ _ Hplan e He) as (obj0 & Hobj0 & _).
    destruct (inv_rel _ _ _ Hinv (e_obj e) (KAttr (e_name e))) as [Hadd|Hrel];
      [by rewrite Hobj0|by eapply (inv_add _ _ _ Hinv)|].
    rewrite Hu in Hrel. inversion Hrel as [? v0 Hb Heq1 Heq2|]; subst.
    pose proof (plan_slot _ _ Hplan e He) as Hslot.
    destruct (e_add e).
    - destruct Hslot as [_ Hslot]. congruence.
    - rewrite Hslot in Heq2. injection Heq2 as ->.
      destruct Hb as [->|(e' & He' & <- & _)];
        [by apply entry_old_isfun|by apply entry_new_isfun]. }
  destruct Hfun as [(e' & He' & <-)|(fn & Hfn)].
  - destruct (inv_fresh _ _ _ Hinv e' He') as (fn & Hfn).
    assert (obj = PFunction fn) as -> by congruence. done.
  - destruct (inv_shape _ _ _ Hinv u _ Hfn) as (obj' & Hobj' & Hs).
    assert (obj' = obj) as -> by congruence. by destruct obj.
Qed.

Lemma set_step e v w w' :
  e ∈ plan → v = e_new e ∨ v = e_old e → SInv w0 plan ik w →
  _set_func (e_path e) v [] ik w = (w', Ok tt) →
  SInv w0 plan ik w' ∧
  sl (heap w') (e_obj e) (KAttr (e_name e)) = Some v ∧
  (∀ o key, is_Some (sl (heap w) o key) → is_Some (sl (heap w') o key)) ∧
  (∀ o key u, sl (heap w') o key = Some u →
     u = v ∨ sl (heap w) o key = Some u) ∧
  import_loop w (split (e_path e)) = true ∧
  existsb (String.eqb "") (split (e_path e)) = false ∧
  eval w true (removelast (split (e_path e))) = Ok (e_obj e) ∧
  (is_Some (sl (heap w) (e_obj e) (KAttr (e_name e))) →
     heap_mono (heap w) (heap w')) ∧
  w' = set_heap (heap w') w.
Proof.
  intros He Hv (Hroots & Hinv & Hhome) Hset.
  destruct (set_step_heap w0 plan ik Hplan Hclosed e v w w' He Hv Hroots Hinv Hset)
    as (cur & obj1 & Himp & Hemp & Hpre & Hget & Hmod & Hmid & Hobj1 & Hattrs1 & ->).
  simpl.
  pose proof (λ o key, after_step_sl w0 ik e cur v (heap w) obj1 o key Hobj1 Hattrs1) as Hsl.
  assert (isfun w0 plan v) as Hvfun.
  { destruct Hv as [-> | ->]; [by apply entry_new_isfun|by apply entry_old_isfun]. }
  destruct (plan_obj _ _ Hplan e He) as (obj0 & Hobj0 & Hattrs0).
  split; [split; [done|split]|].
  - (* Inv_core *)
    apply (core_write w0 plan Hplan); [done|done|done|by rewrite Hobj0| |].
    + pose proof (plan_slot _ _ Hplan e He) as Hslot.
      destruct (e_add e) eqn:Hadd.
      * left. by exists e.
      * right. rewrite Hslot. constructor.
        destruct Hv as [-> | ->]; [right; by exists e|by left].
    + by intros u [= <-].
  - (* inv_home *)
    intros o key e' Ho He' Hheld. simpl in Hheld. rewrite Hsl in Hheld |- *.
    eapply (home_after_step w0 plan ik Hplan); try done.
    intros Hc. by destruct (Hmod Hc).
  - split; [by rewrite Hsl, after_step_home|].
    split.
    { intros o key [u Hu]. rewrite Hsl. unfold after_step.
      destruct (decide _); [done|]. destruct (is_class w0 (e_obj e)); rewrite Hu; done. }
    split.
    { intros o key u. rewrite Hsl. unfold after_step.
      destruct (decide _); [intros [= <-]; by left|].
      destruct (is_class w0 (e_obj e)); [by right|].
      destruct (sl (heap w) o key) as [u0|]; [|done]. simpl. intros [= <-].
      destruct (replace_at_cases cur v ik key u0) as [(_ & _ & ->)|[_ ->]]; auto. }
    split; [done|]. split; [done|]. split; [done|]. split; [|done].
    intros [u0 Hu0].
    assert (∀ o key u obj, sl (heap w) o key = Some u →
              heap w !! u = Some obj → has_attrs obj →
              after_step w0 ik e cur v (heap w) o key = Some u) as Hkeep.
    { intros o key u obj Hu Hobj Hattrs. unfold after_step.
      destruct (decide ((o, key) = home_slot e)) as [[= -> ->]|_].
      - exfalso. exact (home_value_no_attrs e (heap w) u obj He Hinv Hu Hobj Hattrs).
      - destruct (is_class w0 (e_obj e)) eqn:Hcls; [done|]. rewrite Hu. simpl.
        f_equal. destruct (replace_at_cases cur v ik key u) as [(_ & -> & _)|[_ ->]];
          [|done].
        exfalso. destruct (Hmod eq_refl) as (Hcur & _).
        exact (home_value_no_attrs e (heap w) cur obj He Hinv Hcur Hobj Hattrs). }
    split; [|split; [|split]].
    + intros o Ho. destruct (decide (o = e_obj e)) as [->|Hne].
      * destruct (mid_heap_lookup e cur v (heap w) (e_obj e)) as (f & Hf & _).
        rewrite Hobj1, Ho in Hf. done.
      * rewrite lookup_insert_ne by done.
        destruct (mid_heap_lookup e cur v (heap w) o) as (f & -> & _).
        by rewrite Ho.
    + intros o obj Ho.
      destruct (mid_heap_lookup e cur v (heap w) o) as (f & Hf & Hshape).
      rewrite Ho in Hf. simpl in Hf.
      destruct (decide (o = e_obj e)) as [->|Hne].
      * rewrite lookup_insert_eq. eexists. split; [done|].
        rewrite Hobj1 in Hf. injection Hf as ->.
        eapply same_shape_trans; [apply Hshape|apply with_attr_shape].
      * rewrite lookup_insert_ne by done. rewrite Hf. eauto.
    + intros o key Hnone. rewrite Hsl. unfold after_step.
      destruct (decide ((o, key) = home_slot e)) as [[= -> ->]|_]; [congruence|].
      destruct (is_class w0 (e_obj e)); by rewrite Hnone.
    + intros o key u obj Hu Hobj Hattrs. rewrite Hsl. by eapply Hkeep.
Qed.
End StepAll.

(** * Graphs that agree on the objects of a closed graph *)

Section Agree.
Context (w0 w : World).
Context (Hclosed : heap_closed w0).
Context (Hagree : ∀ o obj, heap w0 !! o = Some obj → heap w !! o = Some obj).
Context (Hroots : sys_modules w = sys_modules w0).

Lemma agree_lookup o : is_Some (heap w0 !! o) → heap w !! o = heap w0 !! o.
Proof. intros [obj Ho]. by rewrite Ho, (Hagree _ _ Ho). Qed.

Lemma closed_mro o d m c :
  heap w0 !! o = Some (PClass d m) → c ∈ m → is_Some (heap w0 !! c).
Proof.
  intros Ho Hc. destruct Hclosed as [_ Hcl]. specialize (Hcl o _ Ho). simpl in Hcl.
  apply (proj1 (Forall_forall _ _) Hcl). apply elem_of_app. by right.
Qed.

Lemma mro_lookup_agree classes name :
  Forall (λ c, is_Some (heap w0 !! c)) classes →
  mro_lookup (heap w) classes name = mro_lookup (heap w0) classes name.
Proof.
  induction 1 as [|c classes Hc _ IH]; [done|]. simpl.
  rewrite (agree_lookup c Hc), IH. done.
Qed.

Lemma getattr_agree o name :
  is_Some (heap w0 !! o) → getattr w o name = getattr w0 o name.
Proof.
  intros Ho. unfold getattr. rewrite (agree_lookup o Ho).
  destruct (heap w0 !! o) as [[f|d|d m|d|l]|] eqn:Ho0; try done.
  rewrite mro_lookup_agree; [done|].
  apply Forall_cons. split; [by rewrite Ho0|].
  apply Forall_forall. intros c Hc. by eapply closed_mro.
Qed.

Lemma mro_lookup_closed classes name v :
  mro_lookup (heap w0) classes name = Some v → is_Some (heap w0 !! v).
Proof.
  induction classes as [|c classes IH]; [done|]. simpl.
  destruct (heap w0 !! c) as [[f|d|d m|d|l]|] eqn:Hc; try done.
  destruct (d !! name) as [u|] eqn:Hd; [|done]. intros [= ->].
  apply (closed_slot w0 c (KAttr name)); [done|]. unfold sl. by rewrite Hc.
Qed.

Lemma getattr_closed o name v :
  getattr w0 o name = Ok v → is_Some (heap w0 !! v).
Proof.
  unfold getattr. destruct (heap w0 !! o) as [[f|d|d m|d|l]|] eqn:Ho; try done.
  - destruct (d !! name) as [u|] eqn:Hd; [|done]. intros [= ->].
    apply (closed_slot w0 o (KAttr name)); [done|]. unfold sl. by rewrite Ho.
  - destruct (mro_lookup (heap w0) (o :: m) name) as [u|] eqn:Hl; [|done].
    intros [= ->]. by eapply mro_lookup_closed.
Qed.

Lemma getattr_chain_agree names o :
  is_Some (heap w0 !! o) → getattr_chain w o names = getattr_chain w0 o names.
Proof.
  revert o. induction names as [|n names IH]; intros o Ho; [done|]. simpl.
  rewrite (getattr_agree o n Ho).
  destruct (getattr w0 o n) as [x|] eqn:Hget; [|done]. simpl.
  apply IH. by eapply getattr_closed.
Qed.

Lemma eval_agree b names : eval w b names = eval w0 b names.
Proof.
  destruct names as [|n rest]; [done|]. rewrite !eval_cons, Hroots.
  destruct (existsb _ _); [done|]. destruct b; [|done].
  destruct (sys_modules w0 !! n) as [m|] eqn:Hn; [|done].
  apply getattr_chain_agree. by eapply closed_root.
Qed.

Lemma is_module_agree o : is_Some (heap w0 !! o) → is_module w o = is_module w0 o.
Proof. intros Ho. unfold is_module. by rewrite (agree_lookup o Ho). Qed.

Lemma is_class_agree o : is_Some (heap w0 !! o) → is_class w o = is_class w0 o.
Proof. intros Ho. unfold is_class. by rewrite (agree_lookup o Ho). Qed.

Lemma module_chain_agree names o :
  is_Some (heap w0 !! o) → module_chain w o names = module_chain w0 o names.
Proof.
  revert o. induction names as [|n names IH]; intros o Ho; simpl;
    rewrite (is_module_agree o Ho); [done|].
  rewrite (getattr_agree o n Ho).
  destruct (getattr w0 o n) as [x|] eqn:Hget; [|done].
  f_equal. apply IH. by eapply getattr_closed.
Qed.

Lemma exec_import_agree names : exec_import w names = exec_import w0 names.
Proof.
  unfold exec_import. destruct names as [|n rest]; [done|]. rewrite Hroots.
  destruct (sys_modules w0 !! n) as [m|] eqn:Hn; [|done].
  apply module_chain_agree. by eapply closed_root.
Qed.

Lemma import_loop_agree names : import_loop w names = import_loop w0 names.
Proof.
  unfold import_loop. generalize (rev (seq 1 (length names))). intros idx.
  induction idx as [|i idx IH]; [done|]. simpl.
  by rewrite exec_import_agree, IH.
Qed.

Lemma eval_closed b names v : eval w0 b names = Ok v → is_Some (heap w0 !! v).
Proof.
  destruct names as [|n rest]; [done|]. rewrite eval_cons.
  destruct (existsb _ _); [done|]. destruct b; [|done].
  destruct (sys_modules w0 !! n) as [m|] eqn:Hn; [|done].
  pose proof (closed_root _ _ _ Hclosed Hn) as Hm. clear Hn.
  revert m Hm. induction rest as [|n' rest IH]; intros m Hm; simpl.
  - by intros [= <-].
  - destruct (getattr w0 m n') as [x|] eqn:Hget; [|done]. simpl.
    apply IH. by eapply getattr_closed.
Qed.

Lemma import_function_agree path :
  import_function w path = import_function w0 path.
Proof.
  unfold import_function. rewrite import_loop_agree, !eval_agree.
  destruct (eval w0 _ (split path)) as [obj|]; [|done]. simpl.
  destruct (eval w0 _ (removelast (split path))) as [prev|] eqn:Hprev; [|done].
  simpl. rewrite is_class_agree; [done|]. by eapply eval_closed.
Qed.

End Agree.

(** * Deleting an addition *)





Section DelStep.
Context (w0 : World) (plan : list rewrite_entry).
Context (Hplan : plan_ok w0 plan) (Hclosed : heap_closed w0).

End DelStep.

(** * The loops of a session *)

Section Loops.
Context (w0 : World) (plan : list rewrite_entry) (ik : list string).
Context (Hplan : plan_ok w0 plan) (Hclosed : heap_closed w0).
Context (Hik : ik = ["origin_func"]).

Lemma set_heap_set_heap h h' w : set_heap h (set_heap h' w) = set_heap h w.
Proof. done. Qed.




End Loops.

(** * The first loop of [enter] *)

Lemma copy_function_Ok f w w' g :
  copy_function f w = (w', Ok g) →
  ∃ glb fn d,
    heap w !! glb = None ∧ heap w !! g = None ∧ g ≠ glb ∧
    w' = set_heap (<[g := PFunction fn]> (<[glb := PDict d]> (heap w))) w.
Proof.
  unfold copy_function.
  destruct (heap w !! f) as [[fn|d|d m|d|l]|]; try discriminate.
  destruct (dict_of w (__globals__ fn)) as [d|]; [|discriminate].
  intros [= <- <-].
  set (glb := fresh (dom (heap w))).
  set (g := fresh ({[glb]} ∪ dom (heap w))).
  assert (glb ∉ dom (heap w)) as Hglb by apply is_fresh.
  assert (g ∉ {[glb]} ∪ dom (heap w)) as Hg by apply is_fresh.
  eexists glb, _, _. split; [by apply not_elem_of_dom|].
  split; [apply not_elem_of_dom; set_solver|]. split; [set_solver|done].
Qed.

Lemma _fx_wrap_copied_fn_Ok a b w w' :
  _fx_wrap_copied_fn a b w = (w', Ok tt) → ∃ l, w' = set_patch l w.
Proof.
  unfold _fx_wrap_copied_fn.
  assert (w = set_patch (_wrapped_fns_to_patch w) w) as Hw by (by destruct w).
  destruct (heap w !! a) as [[fn|d|d m|d|l]|]; try (intros [= <-]; eauto).
  destruct (list_find _ _) as [[idx item]|]; [|intros [= <-]; eauto].
  destruct (heap w !! b) as [[cf|d|d m|d|l]|]; try discriminate.
  intros [= <-]. eauto.
Qed.

Lemma update_self_run f w : update_self f w = (set_rewriter (f (rewriter w)) w, Ok tt).
Proof. done. Qed.

Lemma self_attr_Ok {A} (field : FunctionRewriter → option A) w w' a :
  self_attr field w = (w', Ok a) → w' = w ∧ field (rewriter w) = Some a.
Proof.
  unfold self_attr, readM. destruct (field (rewriter w)); [|discriminate].
  by intros [= <- <-].
Qed.

Lemma additional_of_app plan e :
  additional_of (plan ++ [e])
  = additional_of plan ++ (if recorded e then [e_path e] else []).
Proof.
  unfold additional_of. rewrite filter_app, fmap_app. f_equal.
  rewrite filter_cons, filter_nil.
  destruct (decide (recorded e = true)) as [Hadd|Hadd].
  - by rewrite Hadd.
  - apply not_true_is_false in Hadd. by rewrite Hadd.
Qed.

Lemma origin_functions_of_app plan e :
  origin_functions_of (plan ++ [e])
  = origin_functions_of plan ++ [(e_path e, e_old e)].
Proof. unfold origin_functions_of. by rewrite fmap_app. Qed.


Lemma has_own_attr_class w cls name :
  is_class w cls = true →
  has_own_attr w cls name
  = in_class_dict w cls name || bool_decide (name ∈ type_attrs).
Proof.
  unfold is_class, has_own_attr, in_class_dict.
  by destruct (heap w !! cls) as [[f|d|d m|d|l]|].
Qed.


Lemma has_own_attr_type w cls name :
  is_class w cls = true → name ∈ type_attrs → has_own_attr w cls name = true.
Proof.
  intros Hc Hn. rewrite has_own_attr_class by done.
  rewrite (bool_decide_eq_true_2 _ Hn). apply orb_true_r.
Qed.

Lemma import_function_Ok w path f oc :
  import_function w path = Ok (f, oc) →
  ∃ prev name obj,
    1 < length (split path) ∧ last (split path) = Some name ∧
    import_loop w (split path) = true ∧
    existsb (String.eqb "") (split path) = false ∧
    eval w true (removelast (split path)) = Ok prev ∧
    getattr w prev name = Ok f ∧
    heap w !! prev = Some obj ∧ has_attrs obj ∧
    oc = if is_class w prev then Some prev else None.
Proof.
  unfold import_function. intros H.
  apply bind_Ok in H as (obj & Hobj & H).
  apply bind_Ok in H as (prev & Hprev & H).
  assert (1 < length (split path)) as Hlen.
  { destruct (split path) as [|a [|b l]] eqn:Hs; simpl in *; [done|done|lia]. }
  destruct (last (split path)) as [name|] eqn:Hlast.
  2:{ apply last_None in Hlast. rewrite Hlast in Hlen. simpl in Hlen. lia. }
  destruct (eval_split_last _ _ _ _ _ Hlen Hlast Hobj)
    as (Hbound & Hemp & prev' & Hprev' & Hget).
  rewrite Hprev in Hprev'. injection Hprev' as <-.
  rewrite Hbound in *.
  destruct (getattr_Ok_has_attrs _ _ _ _ Hget) as (objp & Hobjp & Hattrs).
  exists prev, name, objp. repeat (split; [done|]).
  destruct (is_class w prev); by injection H as <- <-.
Qed.

Section Alloc.
Context (w0 : World) (Hclosed : heap_closed w0).

Lemma enter_record_spec plan cfg kw item w w' added :
  AInv w0 plan w → locates_function w0 item.1 →
  enter_record cfg kw item w = (w', Ok added) →
  ∃ e, entry_for w0 item.1 e ∧ AInv w0 (plan ++ [e]) w' ∧
    added = new_functions_of [e] ∧
    _ori_fx_wrap_num (rewriter w') = _ori_fx_wrap_num (rewriter w) ∧
    _registry (rewriter w') = _registry (rewriter w).
Proof.
  intros Hinv (f & oc & Himp0 & Hfun) H.
  pose proof (a_roots _ _ _ Hinv) as Hroots.
  pose proof (a_agree _ _ _ Hinv) as Hagree.
  pose proof (a_plan _ _ _ Hinv) as Hplan.
  unfold enter_record in H.
  apply bindM_Ok in H as (found & w1 & Hfound & H).
  rewrite (import_function_agree w0 w Hclosed Hagree Hroots), Himp0 in Hfound.
  injection Hfound as <- <-.
  apply bindM_Ok in H as (is_add & w2 & Hadd & H).
  apply readM_Ok in Hadd as [-> Hadd]. injection Hadd as Hadd.
  apply bindM_Ok in H as ([] & w3 & Hupd1 & H).
  apply bindM_Ok in H as (l & w4 & Hl & H).
  apply self_attr_Ok in Hl as [-> Hl].
  apply bindM_Ok in H as ([] & w5 & Hupd2 & H).
  rewrite update_self_run in Hupd2. injection Hupd2 as <-.
  apply bindM_Ok in H as (g & w6 & Hcopy & H).
  apply copy_function_Ok in Hcopy as (glb & fn & d & Hglb & Hg & Hgne & ->).
  apply bindM_Ok in H as (ctx & w6 & Hctx & H).
  apply readM_Ok in Hctx as [-> Hctx].
  apply bindM_Ok in H as ([] & w7 & Hfx & H).
  apply _fx_wrap_copied_fn_Ok in Hfx as (patch' & ->).
  apply bindM_Ok in H as (qn & w8 & Hqn & H).
  apply readM_Ok in Hqn as [-> Hqn].
  apply bindM_Ok in H as ([] & w9 & Hupd3 & H).
  rewrite update_self_run in Hupd3. injection Hupd3 as <-.
  injection H as <- <-.
  destruct (import_function_Ok _ _ _ _ Himp0)
    as (prev & name & objp & Hlen & Hlast & Himp & Hemp & Hprev & Hget & Hobjp
        & Hattrs & Hoc).
  assert (is_Some (heap w0 !! prev)) as Hprev_old by (by rewrite Hobjp).
  set (add0 := match oc with
               | Some cls => negb (in_class_dict w0 cls name)
               | None => false
               end).
  assert (is_add = add0 && negb (bool_decide (name ∈ type_attrs))) as Hadd0.
  { rewrite <- Hadd, Hlast. unfold add0. destruct oc as [cls|]; [|done].
    assert (cls = prev ∧ is_class w0 prev = true) as [-> Hcls]
      by (destruct (is_class w0 prev); split; congruence).
    rewrite <- negb_orb, <- has_own_attr_class by done.
    unfold has_own_attr. by rewrite (agree_lookup w0 w Hagree prev Hprev_old). }
  (* the rewriter after the bookkeeping of this round *)
  assert (_origin_functions (rewriter w3) = _origin_functions (rewriter w) ∧
          _additional_functions (rewriter w3)
            = Some (additional_of plan ++ (if is_add then [item.1] else [])) ∧
          _ori_fx_wrap_num (rewriter w3) = _ori_fx_wrap_num (rewriter w) ∧
          _registry (rewriter w3) = _registry (rewriter w) ∧
          heap w3 = heap w ∧ sys_modules w3 = sys_modules w ∧
          _wrapped_fns_to_patch w3 = _wrapped_fns_to_patch w)
    as (Ho3 & Ha3 & Hn3 & Hr3 & Hh3 & Hs3 & Hp3).
  { destruct is_add.
    - apply bindM_Ok in Hupd1 as (l0 & wa & Hl0 & Hupd1).
      apply self_attr_Ok in Hl0 as [-> Hl0].
      rewrite update_self_run in Hupd1. injection Hupd1 as <-. simpl.
      rewrite (a_additional _ _ _ Hinv) in Hl0. injection Hl0 as <-. done.
    - injection Hupd1 as <-. rewrite app_nil_r.
      by rewrite (a_additional _ _ _ Hinv). }
  rewrite Ho3, (a_origin _ _ _ Hinv) in Hl. injection Hl as <-.
  set (e := {| e_path := item.1; e_new := g; e_old := f; e_obj := prev;
               e_name := name; e_add := add0 |}).
  simpl in Hglb, Hg. rewrite Hh3 in Hglb, Hg.
  assert (heap w0 !! g = None) as Hg0.
  { destruct (heap w0 !! g) eqn:Hx; [|done]. by rewrite (Hagree _ _ Hx) in Hg. }
  assert (heap w0 !! glb = None) as Hglb0.
  { destruct (heap w0 !! glb) eqn:Hx; [|done]. by rewrite (Hagree _ _ Hx) in Hglb. }
  exists e. split; [|split; [|split; [done|]]].
  - split; [done|]. exists oc. split; [done|]. split; [done|]. split; [done|].
    intros cls ->. simpl. destruct (is_class w0 prev); congruence.
  - split; simpl.
    + by rewrite Hs3.
    + intros o obj Ho. rewrite Hh3.
      rewrite !lookup_insert_ne by congruence. by apply Hagree.
    + intros o obj Ho. rewrite Hh3.
      destruct (decide (o = g)) as [->|Hne1];
        [rewrite lookup_insert_eq; intros [= <-]; eauto|].
      rewrite lookup_insert_ne by done.
      destruct (decide (o = glb)) as [->|Hne2];
        [rewrite lookup_insert_eq; intros [= <-]; eauto|].
      rewrite lookup_insert_ne by done. by apply (a_alloc _ _ _ Hinv).
    + intros e' [He'| ->%list_elem_of_singleton]%elem_of_app; rewrite Hh3.
      * destruct (a_fresh _ _ _ Hinv e' He') as (fn' & Hfn').
        exists fn'. rewrite !lookup_insert_ne by congruence. done.
      * simpl. rewrite lookup_insert_eq. eauto.
    + (* plan_ok *)
      split.
      * intros e1 e2 [H1| ->%list_elem_of_singleton]%elem_of_app
               [H2| ->%list_elem_of_singleton]%elem_of_app Heq.
        -- by apply (plan_inj _ _ Hplan).
        -- exfalso. destruct (a_fresh _ _ _ Hinv e1 H1) as (fn' & Hfn').
           simpl in Heq. congruence.
        -- exfalso. destruct (a_fresh _ _ _ Hinv e2 H2) as (fn' & Hfn').
           simpl in Heq. congruence.
        -- done.
      * intros e' [He'| ->%list_elem_of_singleton]%elem_of_app;
          [by apply (plan_new _ _ Hplan)|done].
      * intros e' [He'| ->%list_elem_of_singleton]%elem_of_app;
          [by apply (plan_old _ _ Hplan)|]. simpl.
        unfold is_function in Hfun.
        destruct (heap w0 !! f) as [[fn'|?|? ?|?|?]|]; try done. eauto.
      * intros e' [He'| ->%list_elem_of_singleton]%elem_of_app;
          [by apply (plan_obj _ _ Hplan)|]. simpl. eauto.
      * intros e' [He'| ->%list_elem_of_singleton]%elem_of_app;
          [by apply (plan_slot _ _ Hplan)|]. simpl.
        unfold getattr in Hget. rewrite Hobjp in Hget.
        unfold add0. rewrite Hoc. unfold is_class, sl. rewrite Hobjp. simpl.
        destruct objp as [?|dm|dc m|?|?]; try done; simpl.
        -- by destruct (dm !! name) as [v|]; [injection Hget as ->|].
        -- unfold in_class_dict. rewrite Hobjp. simpl in Hget. rewrite Hobjp in Hget.
           destruct (dc !! name) as [v|] eqn:Hd; simpl.
           ++ by injection Hget as ->.
           ++ done.
      * intros e' [He'| ->%list_elem_of_singleton]%elem_of_app;
          [by apply (plan_path _ _ Hplan)|]. simpl. done.
    + rewrite origin_functions_of_app. done.
    + rewrite additional_of_app. unfold recorded. simpl.
      by rewrite <- Hadd0.
  - simpl. split; done.
Qed.
End Alloc.

Section Session.
Context (w0 : World) (Hclosed : heap_closed w0).

Lemma new_functions_of_app p1 p2 :
  new_functions_of (p1 ++ p2) = new_functions_of p1 ++ new_functions_of p2.
Proof. unfold new_functions_of. by rewrite fmap_app. Qed.

Lemma enter_records_spec cfg kw recs : ∀ plan w w' nf,
  AInv w0 plan w → Forall (λ item, locates_function w0 item.1) recs →
  enter_records cfg kw recs (new_functions_of plan) w = (w', Ok nf) →
  ∃ plan', AInv w0 (plan ++ plan') w' ∧
    nf = new_functions_of (plan ++ plan') ∧
    Forall2 (λ item e, entry_for w0 item.1 e) recs plan' ∧
    _ori_fx_wrap_num (rewriter w') = _ori_fx_wrap_num (rewriter w) ∧
    _registry (rewriter w') = _registry (rewriter w).
Proof.
  induction recs as [|item recs IH]; intros plan w w' nf Hinv Hloc H.
  - injection H as <- <-. exists []. rewrite app_nil_r.
    split; [done|]. split; [done|]. split; [constructor|done].
  - apply Forall_cons in Hloc as [Hitem Hloc]. simpl in H.
    apply bindM_Ok in H as (added & w1 & Hrec & H).
    destruct (enter_record_spec w0 Hclosed plan cfg kw item w w1 added Hinv Hitem Hrec)
      as (e & Hentry & Hinv1 & -> & Hn1 & Hr1).
    rewrite <- new_functions_of_app in H.
    destruct (IH _ _ _ _ Hinv1 Hloc H) as (plan' & Hinv' & Hnf & Hall & Hn' & Hr').
    exists (e :: plan'). rewrite <- app_assoc in Hinv', Hnf. simpl in Hinv', Hnf.
    split; [done|]. split; [done|]. split; [by constructor|].
    split; congruence.
Qed.

(** The graph after the first loop satisfies the session invariant. *)
Lemma AInv_SInv plan ik w :
  AInv w0 plan w → SInv w0 plan ik w.
Proof.
  intros Hinv. pose proof (a_plan _ _ _ Hinv) as Hplan.
  pose proof (a_agree _ _ _ Hinv) as Hagree.
  assert (∀ o key, is_Some (heap w0 !! o) →
            sl (heap w) o key = sl (heap w0) o key) as Hsl.
  { intros o key Ho. unfold sl. by rewrite (agree_lookup w0 w Hagree o Ho). }
  split; [apply (a_roots _ _ _ Hinv)|]. split; [split|].
  - intros o obj0 Ho. exists obj0. split; [by apply Hagree|apply same_shape_refl].
  - apply (a_alloc _ _ _ Hinv).
  - apply (a_fresh _ _ _ Hinv).
  - intros o key Ho. right. rewrite (Hsl o key Ho).
    destruct (sl (heap w0) o key); constructor. by left.
  - intros o key v Hadd Hv.
    destruct (add_slot_absent w0 plan Hplan o key Hadd) as [Hcls Hnone].
    rewrite Hsl in Hv; [congruence|].
    unfold is_class in Hcls. by destruct (heap w0 !! o).
  - intros o key e Ho He Hheld. rewrite (Hsl o key Ho) in Hheld.
    apply closed_slot in Hheld; [|done].
    rewrite (plan_new _ _ Hplan e He) in Hheld. by destruct Hheld.
Qed.

Lemma plan_ok_nil : plan_ok w0 [].
Proof. split; intros e; try (by intros ?%elem_of_nil). by intros e' ?%elem_of_nil. Qed.

End Session.

Section SessionExit.
Context (w0 : World) (Hclosed : heap_closed w0).
Context (plan : list rewrite_entry) (Hplan : plan_ok w0 plan).


End SessionExit.

(** * More on the registry *)

Section DictLemmas.
Context {V : Type}.

Lemma PyDict_get_set_eq (d : PyDict.t V) k v :
  PyDict.get k (PyDict.set k v d) = Some v.
Proof.
  induction d as [|[k' v'] d IH]; simpl.
  - by rewrite decide_True.
  - destruct (decide (k' = k)) as [->|Hne]; simpl.
    + by rewrite decide_True.
    + by rewrite decide_False.
Qed.

Lemma PyDict_get_set_ne (d : PyDict.t V) k k' v :
  k' ≠ k → PyDict.get k' (PyDict.set k v d) = PyDict.get k' d.
Proof.
  intros Hne. induction d as [|[k0 v0] d IH]; simpl.
  - by rewrite decide_False.
  - destruct (decide (k0 = k)) as [->|Hk]; simpl.
    + by rewrite !decide_False by done.
    + destruct (decide (k0 = k')); [done|apply IH].
Qed.

Lemma PyDict_get_None (d : PyDict.t V) k :
  PyDict.get k d = None ↔ k ∉ PyDict.keys d.
Proof.
  induction d as [|[k' v'] d IH]; simpl.
  - split; [intros _; apply not_elem_of_nil|done].
  - destruct (decide (k' = k)) as [->|Hne].
    + split; [done|]. intros Hk. exfalso. apply Hk. left.
    + rewrite IH. unfold PyDict.keys. simpl. rewrite not_elem_of_cons. naive_solver.
Qed.

Lemma PyDict_set_present (d : PyDict.t V) k v :
  is_Some (PyDict.get k d) → PyDict.keys (PyDict.set k v d) = PyDict.keys d.
Proof.
  induction d as [|[k' v'] d IH]; simpl; [by intros [? ?]|].
  destruct (decide (k' = k)) as [->|Hne]; [done|].
  intros H. unfold PyDict.keys in *. simpl. f_equal. by apply IH.
Qed.

Lemma PyDict_set_absent (d : PyDict.t V) k v :
  PyDict.get k d = None → PyDict.set k v d = d ++ [(k, v)].
Proof.
  induction d as [|[k' v'] d IH]; simpl; [done|].
  destruct (decide (k' = k)) as [->|Hne]; [done|].
  intros H. f_equal. by apply IH.
Qed.

Lemma PyDict_set_elem_of (d : PyDict.t V) k v item :
  item ∈ PyDict.set k v d → item = (k, v) ∨ item ∈ d.
Proof.
  induction d as [|[k' v'] d IH]; simpl.
  - intros ->%list_elem_of_singleton. by left.
  - destruct (decide (k' = k)) as [->|Hne].
    + intros [->|H]%elem_of_cons; [by left|right; by right].
    + intros [->|H]%elem_of_cons; [right; left|].
      destruct (IH H) as [->|?]; [by left|right; by right].
Qed.
End DictLemmas.

Lemma PyDict_elem_of_get {V} (d : PyDict.t V) k v :
  PyDict.wf d → (k, v) ∈ d → PyDict.get k d = Some v.
Proof.
  unfold PyDict.wf, PyDict.keys.
  induction d as [|[k' v'] d IH]; intros Hnd Hin; [by apply elem_of_nil in Hin|].
  rewrite fmap_cons in Hnd. apply NoDup_cons in Hnd as [Hk Hnd]. simpl in *.
  apply elem_of_cons in Hin as [[= <- <-]|Hin].
  - by rewrite decide_True.
  - rewrite decide_False; [auto|].
    intros ->. apply Hk. apply list_elem_of_fmap. by exists (k, v).
Qed.

Lemma registered_record_eq R name backend ir extra object kw :
  _register R name backend ir extra object kw
  = PyDict.set name
      (default [] (PyDict.get name R) ++ [registered_record backend ir extra object kw])
      (match PyDict.get name R with
       | None => PyDict.set name [] R
       | Some _ => R
       end).
Proof.
  unfold _register, registered_record.
  assert (∀ (b : bool) (x y : list Checker),
    (if b then x ++ y else x) = x ++ (if b then y else [])) as Hif
    by (intros [] x y; [done|by rewrite app_nil_r]).
  destruct (PyDict.get name R) as [l|] eqn:Hget; simpl.
  - rewrite Hget. simpl. do 3 f_equal.
    destruct (decide (backend ≠ DEFAULT)), (decide (ir ≠ DEFAULT));
      simpl; by rewrite ?app_nil_r.
  - rewrite PyDict_get_set_eq. simpl. do 3 f_equal.
    destruct (decide (backend ≠ DEFAULT)), (decide (ir ≠ DEFAULT));
      simpl; by rewrite ?app_nil_r.
Qed.

Lemma _register_shape R name backend ir extra object kw :
  _register R name backend ir extra object kw
  = match PyDict.get name R with
    | None => R ++ [(name, [registered_record backend ir extra object kw])]
    | Some l =>
        PyDict.set name (l ++ [registered_record backend ir extra object kw]) R
    end.
Proof.
  rewrite registered_record_eq.
  destruct (PyDict.get name R) as [l|] eqn:Hget; simpl; [done|].
  rewrite (PyDict_set_absent R name []) by done.
  apply PyDict_set_middle. by apply PyDict_get_None.
Qed.

Section ScanMore.
Context (env : Env) (origin_function : string).

Lemma scan_records_none_valid l st st' :
  scan_records env origin_function l st = Ok st' →
  Forall (λ r, ¬ valid_in env r) l →
  final_rewriter st' = final_rewriter st.
Proof.
  intros H Hl. apply scan_records_sound in H as [[H|(r & Hr & _ & Hv)] _]; [done|].
  rewrite Forall_forall in Hl. by destruct (Hl r Hr).
Qed.

Lemma scan_records_none_default l st st' :
  scan_records env origin_function l st = Ok st' →
  Forall (λ r, ¬ is_default r) l →
  default_rewriter st' = default_rewriter st.
Proof.
  intros H Hl. apply scan_records_sound in H as [_ [H|(r & Hr & _ & Hv)]]; [done|].
  rewrite Forall_forall in Hl. by destruct (Hl r Hr).
Qed.

(** The first checker-free record in registration order is the default. *)
Lemma scan_records_first_default l1 d l2 st st' :
  scan_records env origin_function (l1 ++ d :: l2) st = Ok st' →
  default_rewriter st = None →
  Forall (λ r, ¬ is_default r) l1 → is_default d →
  default_rewriter st' = Some d.
Proof.
  intros H Hnone Hl1 Hd. rewrite scan_records_app in H. inv_bind H.
  rename a into st1.
  assert (default_rewriter st1 = None) as Hst1
    by (erewrite scan_records_none_default; eauto).
  simpl in H. unfold is_default in Hd.
  rewrite Hd, Hst1 in H. simpl in H.
  by apply scan_records_keep in H as (_ & Hk & _); apply Hk.
Qed.

(** In the empty environment every check raises [KeyError]. *)
Lemma check_empty c : check c (∅ : Env) = Raise KeyError.
Proof. by destruct c. Qed.

Lemma scan_records_empty_env l st :
  Exists (λ r, _checkers r ≠ []) l →
  scan_records ∅ origin_function l st = Raise KeyError.
Proof.
  intros Hex. revert st. induction Hex as [r l Hr|r l _ IH]; intros st; simpl.
  - destruct (decide _) as [Hz|_]; [by apply length_zero_nil in Hz|].
    destruct (_checkers r) as [|c cs]; [done|]. simpl. by rewrite check_empty.
  - destruct (decide _) as [Hz|Hz]; [destruct (default_rewriter st); apply IH|].
    destruct (_checkers r) as [|c cs]; [done|]. simpl. by rewrite check_empty.
Qed.

Lemma scan_records_all_default l st :
  Forall is_default l → is_Ok (scan_records env origin_function l st).
Proof.
  intros Hl. apply scan_records_total. eapply Forall_impl; [exact Hl|].
  intros r Hr. simpl. rewrite Hr. by eexists.
Qed.

(** When the loop ends without a selection, no record was valid. *)
Lemma scan_records_final_none l st st' :
  scan_records env origin_function l st = Ok st' →
  final_rewriter st' = None →
  Forall (λ r, ¬ valid_in env r) l.
Proof.
  revert st. induction l as [|rec l IH]; intros st H Hnone; [constructor|].
  simpl in H. destruct (decide _) as [Hz|Hz].
  - constructor; [intros [Hne _]; by apply length_zero_nil in Hz|].
    destruct (default_rewriter st); eapply IH; eauto.
  - inv_bind H. destruct a.
    + exfalso. destruct (final_rewriter st) as [f|] eqn:Hf;
        apply scan_records_keep in H as (Hk & _ & _); simpl in Hk;
        [rewrite (Hk f) in Hnone by done|rewrite (Hk rec) in Hnone by done];
        discriminate.
    + constructor; [intros [_ Hv]; congruence|]. eapply IH; eauto.
Qed.
End ScanMore.

Section LoopMore.
Context (env : Env).

(** Every entry the outer loop adds comes from the list of its path. *)
Lemma get_records_loop_sound items acc res :
  get_records_loop env items acc = Ok res →
  ∃ ds ns,
    default_records res = default_records acc ++ ds ∧
    records res = records acc ++ ns ∧
    Forall (λ e, ∃ l, (e.1, l) ∈ items ∧ e.2 ∈ l ∧ is_default e.2
                      ∧ Forall (λ r, ¬ valid_in env r) l) ds ∧
    Forall (λ e, ∃ l, (e.1, l) ∈ items ∧ e.2 ∈ l ∧ valid_in env e.2) ns.
Proof.
  revert acc. induction items as [|[p l] items IH]; intros acc H; simpl in H.
  - injection H as <-. exists [], []. by rewrite !app_nil_r.
  - inv_bind H. rename a into st.
    pose proof (scan_records_sound _ _ _ _ _ Ha) as [Hf Hd]. simpl in Hf, Hd.
    destruct (final_rewriter st) as [f|] eqn:Hfin;
      [|destruct (default_rewriter st) as [d|] eqn:Hdef];
      apply IH in H as (ds & ns & Hds & Hns & HFd & HFn); simpl in *.
    + destruct Hf as [?|(r & Hr & [= ->] & Hv)]; [done|].
      exists ds, ((p, r) :: ns). rewrite Hds, Hns, <- app_assoc.
      split; [done|]. split; [done|]. split.
      * eapply Forall_impl; [exact HFd|]. intros e (l0 & ? & ?).
        exists l0. split; [by right|done].
      * constructor; [exists l; split; [left|done]|].
        eapply Forall_impl; [exact HFn|]. intros e (l0 & ? & ?).
        exists l0. split; [by right|done].
    + destruct Hd as [?|(r & Hr & [= ->] & Hv)]; [done|].
      exists ((p, r) :: ds), ns. rewrite Hds, Hns, <- app_assoc.
      split; [done|]. split; [done|]. split.
      * constructor.
        -- exists l. split; [left|]. split; [done|]. split; [done|].
           by eapply scan_records_final_none.
        -- eapply Forall_impl; [exact HFd|]. intros e (l0 & ? & ?).
           exists l0. split; [by right|done].
      * eapply Forall_impl; [exact HFn|]. intros e (l0 & ? & ?).
        exists l0. split; [by right|done].
    + exists ds, ns. split; [done|]. split; [done|]. split.
      * eapply Forall_impl; [exact HFd|]. intros e (l0 & ? & ?).
        exists l0. split; [by right|done].
      * eapply Forall_impl; [exact HFn|]. intros e (l0 & ? & ?).
        exists l0. split; [by right|done].
Qed.
End LoopMore.

Lemma PyDict_get_split {V} (d : PyDict.t V) k v :
  PyDict.get k d = Some v →
  ∃ d1 d2, d = d1 ++ (k, v) :: d2 ∧ k ∉ PyDict.keys d1.
Proof.
  induction d as [|[k' v'] d IH]; simpl; [discriminate|].
  destruct (decide (k' = k)) as [->|Hne].
  - intros [= ->]. exists [], d. split; [done|apply not_elem_of_nil].
  - intros (d1 & d2 & -> & Hk)%IH. exists ((k', v') :: d1), d2.
    split; [done|]. unfold PyDict.keys. simpl. apply not_elem_of_cons. done.
Qed.

Lemma PyDict_get_app {V} (d1 d2 : PyDict.t V) k :
  PyDict.get k (d1 ++ d2)
  = match PyDict.get k d1 with Some v => Some v | None => PyDict.get k d2 end.
Proof.
  induction d1 as [|[k' v'] d1 IH]; simpl; [done|].
  by destruct (decide (k' = k)).
Qed.

Section CleanupMore.
Context (object : nat) (filter_cb : option (RewriteRecord → bool)).
Local Abbreviation dm' := (doomed object filter_cb).

Lemma cleanup_app (R1 R2 : Registry) :
  cleanup object filter_cb (R1 ++ R2)
  = cleanup object filter_cb R1 ++ cleanup object filter_cb R2.
Proof. unfold cleanup. apply flat_map_app. Qed.

Lemma cleanup_keys_subseteq (R : Registry) :
  PyDict.keys (cleanup object filter_cb R) ⊆ PyDict.keys R.
Proof.
  unfold PyDict.keys. induction R as [|[k l] R IH]; [done|].
  unfold cleanup. simpl. fold (cleanup object filter_cb R).
  rewrite fmap_app.
  destruct (cleanup_item_keys object filter_cb (k, l)) as [->| ->];
    simpl; set_solver.
Qed.

(** The list a path keeps: the records not collected, in their order; a
    path whose list is emptied is gone. *)
Lemma cleanup_get (R : Registry) p :
  PyDict.wf R → nonempty_lists R →
  PyDict.get p (cleanup object filter_cb R)
  = l ← PyDict.get p R;
    let l' := filter (λ r, dm' r ≠ true) l in
    if decide (l' = []) then None else Some l'.
Proof.
  unfold PyDict.wf, PyDict.keys.
  induction R as [|[k l] R IH]; intros Hwf Hne; [done|].
  rewrite fmap_cons in Hwf. apply NoDup_cons in Hwf as [Hk Hwf].
  apply Forall_cons in Hne as [Hl Hne]. simpl in Hk, Hl.
  unfold cleanup. simpl. fold (cleanup object filter_cb R).
  rewrite PyDict_get_app.
  destruct (decide (k = p)) as [->|Hkp].
  - assert (PyDict.get p (cleanup object filter_cb R) = None) as Hnone.
    { apply PyDict_get_None. intros Hin.
      by apply cleanup_keys_subseteq in Hin. }
    unfold cleanup_item. simpl.
    destruct (decide (filter (λ r, dm' r = true) l = [])) as [Hd|Hd].
    + simpl. rewrite decide_True by done.
      rewrite (filter_none_all object filter_cb l Hd).
      by rewrite decide_False.
    + destruct (decide (filter (λ r, dm' r ≠ true) l = [])); simpl;
        [done|by rewrite decide_True].
  - assert (PyDict.get p (cleanup_item object filter_cb (k, l)) = None) as ->.
    { unfold cleanup_item. simpl. repeat destruct (decide _); simpl;
        by rewrite ?decide_False. }
    by apply IH.
Qed.

Lemma cleanup_elem_of (R : Registry) p l r :
  (p, l) ∈ cleanup object filter_cb R → r ∈ l → dm' r = false.
Proof.
  unfold cleanup. intros Hin Hr.
  apply list_elem_of_In, in_flat_map in Hin as ([k l0] & _ & Hin).
  apply list_elem_of_In in Hin. unfold cleanup_item in Hin. simpl in Hin.
  destruct (decide (filter (λ r, dm' r = true) l0 = [])) as [Hd|Hd].
  - apply list_elem_of_singleton in Hin as [= -> ->].
    destruct (dm' r) eqn:Hdm; [|done].
    assert (r ∈ filter (λ r, dm' r = true) l0) as Hf
      by (apply list_elem_of_filter; done).
    rewrite Hd in Hf. by apply elem_of_nil in Hf.
  - destruct (decide _); [by apply elem_of_nil in Hin|].
    apply list_elem_of_singleton in Hin as [= -> ->].
    apply list_elem_of_filter in Hr as [Hr _]. by destruct (dm' r).
Qed.

Lemma cleanup_untouched (R : Registry) :
  Forall (λ item, Forall (λ r, dm' r = false) item.2) R →
  cleanup object filter_cb R = R.
Proof.
  induction 1 as [|[k l] R Hl _ IH]; [done|].
  unfold cleanup. simpl. fold (cleanup object filter_cb R). rewrite IH.
  unfold cleanup_item. simpl in *. rewrite decide_True; [done|].
  induction Hl as [|x l Hx _ IHl]; [done|].
  rewrite filter_cons_False by (rewrite Hx; done). done.
Qed.
End CleanupMore.

Lemma unregistered_not_doomed R object cb :
  unregistered R object →
  Forall (λ item, Forall (λ r, doomed object cb r = false) item.2) R.
Proof.
  unfold unregistered. intros H. eapply Forall_impl; [exact H|].
  intros item Hitem. eapply Forall_impl; [exact Hitem|]. intros r Hr.
  simpl in Hr. unfold doomed. by rewrite bool_decide_eq_false_2.
Qed.

Lemma filter_not_doomed_unregistered object (l : list RewriteRecord) :
  Forall (λ r, _object r ≠ object) l →
  filter (λ r, doomed object None r ≠ true) l = l
  ∧ filter (λ r, doomed object None r = true) l = [].
Proof.
  induction 1 as [|x l Hx _ [IH1 IH2]]; [done|].
  assert (doomed object None x = false) as Hd
    by (unfold doomed; by rewrite bool_decide_eq_false_2).
  rewrite filter_cons_True by (rewrite Hd; done).
  rewrite filter_cons_False by (rewrite Hd; done).
  by rewrite IH1.
Qed.

(** Dropping what a registration added gives the table back. *)
Lemma cleanup_register R name backend ir extra object kw :
  nonempty_lists R → unregistered R object →
  cleanup object None (_register R name backend ir extra object kw) = R.
Proof.
  intros Hne Hun. rewrite _register_shape.
  set (rec := registered_record backend ir extra object kw).
  assert (doomed object None rec = true) as Hrec
    by (unfold doomed; simpl; by rewrite bool_decide_eq_true_2).
  pose proof (unregistered_not_doomed R object None Hun) as Hnd.
  destruct (PyDict.get name R) as [l|] eqn:Hget.
  - apply PyDict_get_split in Hget as (d1 & d2 & -> & Hk).
    rewrite PyDict_set_middle by done.
    apply Forall_app in Hnd as [Hnd1 Hnd2].
    apply Forall_cons in Hnd2 as [_ Hnd2].
    apply Forall_app in Hun as [_ Hun]. apply Forall_cons in Hun as [Hl _].
    apply Forall_app in Hne as [_ Hne]. apply Forall_cons in Hne as [Hlne _].
    simpl in Hl, Hlne.
    rewrite cleanup_app. rewrite (cleanup_untouched _ _ d1) by done.
    f_equal. unfold cleanup at 1. simpl. fold (cleanup object None d2).
    rewrite (cleanup_untouched _ _ d2) by done.
    destruct (filter_not_doomed_unregistered object l Hl) as [Hf1 Hf2].
    unfold cleanup_item. simpl. rewrite !filter_app, Hf1, Hf2.
    rewrite !filter_cons_True by (by rewrite ?Hrec).
    rewrite filter_cons_False by (rewrite Hrec; auto).
    rewrite !filter_nil, app_nil_r. simpl.
    by rewrite decide_False.
  - rewrite cleanup_app, cleanup_untouched by done.
    unfold cleanup. simpl. unfold cleanup_item. simpl.
    rewrite filter_cons_True by done.
    rewrite filter_cons_False by (rewrite Hrec; auto).
    rewrite !filter_nil. simpl. by rewrite app_nil_r.
Qed.

(** A second checker-free record met after one is kept leaves a warning. *)
Lemma scan_records_warns_default env p l st st' r c :
  scan_records env p l st = Ok st' →
  default_rewriter st = Some r → c ∈ l → is_default c →
  warn_multiple_default p ∈ warned st'.
Proof.
  revert st. induction l as [|rec l IH]; intros st H Hdef Hc Hd; [set_solver|].
  simpl in H. apply elem_of_cons in Hc as [<-|Hc].
  - unfold is_default in Hd. rewrite Hd, Hdef in H. simpl in H.
    apply scan_records_keep in H as (_ & _ & w & Hw). simpl in Hw.
    rewrite Hw. set_solver.
  - destruct (decide _).
    + rewrite Hdef in H. eapply IH in H; eauto.
    + inv_bind H. destruct a; [destruct (final_rewriter st)|];
        eapply IH in H; eauto.
Qed.

Lemma _register_wf R name backend ir extra object kw :
  PyDict.wf R → PyDict.wf (_register R name backend ir extra object kw).
Proof.
  intros Hwf. rewrite _register_shape. unfold PyDict.wf.
  destruct (PyDict.get name R) as [l|] eqn:Hget.
  - by rewrite PyDict_set_present by (by rewrite Hget).
  - unfold PyDict.keys. rewrite fmap_app. simpl.
    apply NoDup_app. split; [done|]. split; [|apply NoDup_singleton].
    intros k Hk ->%list_elem_of_singleton.
    by apply PyDict_get_None in Hget.
Qed.

Lemma _register_nonempty R name backend ir extra object kw :
  nonempty_lists R →
  nonempty_lists (_register R name backend ir extra object kw).
Proof.
  intros Hne. rewrite _register_shape. unfold nonempty_lists in *.
  destruct (PyDict.get name R) as [l|] eqn:Hget.
  - apply Forall_forall. intros item [->|Hin]%PyDict_set_elem_of.
    + simpl. by destruct l.
    + by apply (proj1 (Forall_forall _ _) Hne).
  - apply Forall_app. split; [done|]. by repeat constructor.
Qed.

(** ** The order on versions *)

Lemma version_lt_irrefl a : version_lt a a = false.
Proof.
  induction a as [|x a IH]; [done|]. simpl.
  by rewrite Nat.ltb_irrefl.
Qed.

Lemma version_lt_trans a b c :
  version_lt a b = true → version_lt b c = true → version_lt a c = true.
Proof.
  revert b c. induction a as [|x a IH]; intros [|y b] [|z c]; simpl; try done.
  destruct (x <? y) eqn:Hxy, (y <? x) eqn:Hyx, (y <? z) eqn:Hyz,
    (z <? y) eqn:Hzy, (x <? z) eqn:Hxz, (z <? x) eqn:Hzx;
    try done;
    repeat match goal with
    | H : (_ <? _) = true |- _ => apply Nat.ltb_lt in H
    | H : (_ <? _) = false |- _ => apply Nat.ltb_ge in H
    end; try lia.
  apply IH.
Qed.

Lemma version_lt_total a b :
  version_lt a b = true ∨ a = b ∨ version_lt b a = true.
Proof.
  revert b. induction a as [|x a IH]; intros [|y b]; simpl; auto.
  destruct (x <? y) eqn:Hxy; [auto|].
  destruct (y <? x) eqn:Hyx; [auto|].
  apply Nat.ltb_ge in Hxy, Hyx. assert (x = y) as -> by lia.
  destruct (IH b) as [?|[->|?]]; auto.
Qed.

Lemma all_checks_token env cs :
  is_Some (env !! "backend") → is_Some (env !! "ir") →
  Forall token_checker cs → is_Ok (all_checks env cs).
Proof.
  intros [vb Hb] [vi Hi]. induction 1 as [|c cs Hc _ IH]; simpl; [by eexists|].
  destruct c as [b|i|]; [| |done]; simpl; unfold env_getitem.
  - rewrite Hb. simpl. destruct (bool_decide _); [done|by eexists].
  - rewrite Hi. simpl. destruct (bool_decide _); [done|by eexists].
Qed.

Lemma collect_env_keys backend ir v bv cv kw :
  is_Some (collect_env backend ir v bv cv kw !! "backend") ∧
  is_Some (collect_env backend ir v bv cv kw !! "ir").
Proof.
  unfold collect_env.
  split; repeat (apply lookup_union_is_Some; right);
    rewrite lookup_insert_ne by done.
  - rewrite lookup_insert_ne by done. rewrite lookup_insert_eq. by eexists.
  - rewrite lookup_insert_eq. by eexists.
Qed.

(** In the empty environment resolution raises as soon as one record has a
    checker. *)
Lemma get_records_empty_env_raises
    (R : Registry) (p : string) (l : list RewriteRecord) (r : RewriteRecord) :
  (p, l) ∈ R → r ∈ l → _checkers r ≠ [] →
  get_records R ∅ = Raise KeyError.
Proof.
  intros Hin Hr Hc. unfold get_records, resolve.
  generalize {| default_records := []; records := []; warnings := [] |}.
  induction R as [|[p' l'] R IH]; intros acc; [by apply elem_of_nil in Hin|].
  simpl.
  destruct (decide (Exists (λ r, _checkers r ≠ []) l')) as [Hex|Hnex].
  - by rewrite scan_records_empty_env.
  - apply elem_of_cons in Hin as [[= <- <-]|Hin].
    + exfalso. apply Hnex. apply Exists_exists. eauto.
    + apply not_Exists_Forall in Hnex; [|intros x; apply _].
      assert (Forall is_default l') as Hall.
      { eapply Forall_impl; [exact Hnex|]. intros x Hx. simpl in Hx.
        unfold is_default. by destruct (decide (_checkers x = [])). }
      destruct (scan_records_all_default ∅ p' l'
        {| default_rewriter := None; final_rewriter := None;
           warned := warnings acc |} Hall) as [st ->]. simpl.
      destruct (final_rewriter st); [|destruct (default_rewriter st)];
        simpl in *; by apply IH.
Qed.

(** * Registration with shared checker lists *)

Lemma PyDict_get_map {V W} (f : V → W) (d : PyDict.t V) k :
  PyDict.get k (map_values f d) = f <$> PyDict.get k d.
Proof.
  unfold map_values. induction d as [|[k' v] d IH]; simpl; [done|].
  destruct (decide (k' = k)); [done|apply IH].
Qed.

Lemma PyDict_set_map {V W} (f : V → W) (d : PyDict.t V) k v :
  PyDict.set k (f v) (map_values f d) = map_values f (PyDict.set k v d).
Proof.
  unfold map_values. induction d as [|[k' v'] d IH]; simpl; [done|].
  destruct (decide (k' = k)); simpl; [done|]. f_equal. apply IH.
Qed.

Lemma all_checks_elem env cs c :
  all_checks env cs = Ok true → c ∈ cs → check c env = Ok true.
Proof.
  induction cs as [|c' cs IH]; intros H Hc; [by apply elem_of_nil in Hc|].
  simpl in H. destruct (check c' env) as [[]|] eqn:Hc'; try done.
  apply elem_of_cons in Hc as [->|Hc]; [done|by apply IH].
Qed.

(** The store after a registration: the list given has the new checkers at
    its end, the other lists are as they were. *)
Lemma _register_ref_lists T name backend ir lid object kw l :
  lists (_register_ref T name backend ir lid object kw) !! l
  = if decide (l = lid)
    then (λ cs, cs ++ token_checkers backend ir) <$> lists T !! l
    else lists T !! l.
Proof.
  unfold _register_ref, token_checkers, list_append. simpl.
  destruct (decide (l = lid)) as [->|Hne].
  - destruct (decide (backend ≠ DEFAULT)), (decide (ir ≠ DEFAULT));
      rewrite ?lookup_alter_eq; destruct (lists T !! lid); simpl;
      by rewrite <- ?app_assoc, ?app_nil_r.
  - destruct (decide (backend ≠ DEFAULT)), (decide (ir ≠ DEFAULT));
      by rewrite ?lookup_alter_ne.
Qed.

Lemma snapshot_record_unshared s s' lid r :
  (∀ l, l ≠ lid → s' !! l = s !! l) → r_checkers r ≠ lid →
  snapshot_record s' r = snapshot_record s r.
Proof. intros Hs Hr. unfold snapshot_record. by rewrite Hs. Qed.

Lemma snapshot_table_unshared s s' lid (t : PyDict.t (list RefRecord)) :
  (∀ l, l ≠ lid → s' !! l = s !! l) →
  Forall (λ item, Forall (λ r, r_checkers r ≠ lid) item.2) t →
  map_values (λ l, snapshot_record s' <$> l) t
  = map_values (λ l, snapshot_record s <$> l) t.
Proof.
  intros Hs. unfold map_values. induction 1 as [|[k l] t Hl _ IH]; [done|].
  rewrite !fmap_cons, IH. f_equal. simpl. f_equal.
  simpl in Hl. induction Hl as [|r l Hr _ IHl]; [done|].
  rewrite !fmap_cons, IHl. f_equal. by eapply snapshot_record_unshared.
Qed.

Lemma all_checks_app env a b :
  all_checks env (a ++ b)
  = match all_checks env a with
    | Ok true => all_checks env b
    | r => r
    end.
Proof.
  induction a as [|c a IH]; simpl; [done|].
  destruct (check c env) as [[]|]; simpl; [apply IH|done|done].
Qed.

(** Checks that passed pass again. *)
Lemma all_checks_twice env a b :
  all_checks env ((a ++ b) ++ b) = all_checks env (a ++ b).
Proof.
  rewrite (all_checks_app env (a ++ b) b).
  destruct (all_checks env (a ++ b)) as [[]|] eqn:H; [|done|done].
  assert (∀ c, c ∈ b → check c env = Ok true) as Hb.
  { intros c Hc. eapply all_checks_elem; [exact H|].
    apply elem_of_app. by right. }
  clear H. induction b as [|c b IH]; [done|]. simpl.
  rewrite (Hb c) by left. simpl. apply IH. intros c' Hc'. apply Hb. by right.
Qed.

Lemma unshared_set T lid name :
  unshared T lid →
  Forall (λ item, Forall (λ r, r_checkers r ≠ lid) item.2)
    (match PyDict.get name (table T) with
     | None => PyDict.set name [] (table T)
     | Some _ => table T
     end).
Proof.
  intros Hun. destruct (PyDict.get name (table T)); [done|].
  apply Forall_forall. intros item [->|Hin]%PyDict_set_elem_of; [constructor|].
  by apply (proj1 (Forall_forall _ _) Hun).
Qed.

(** The table after a registration, path by path. *)
Lemma _register_ref_table T name backend ir lid object kw k :
  PyDict.get k (table (_register_ref T name backend ir lid object kw))
  = if decide (k = name)
    then Some (default [] (PyDict.get name (table T))
                 ++ [{| r_object := object; r_checkers := lid; r_kwargs := kw |}])
    else PyDict.get k (table T).
Proof.
  unfold _register_ref. simpl.
  destruct (decide (k = name)) as [->|Hne].
  - rewrite PyDict_get_set_eq. do 2 f_equal.
    destruct (PyDict.get name (table T)) eqn:Hget; [by rewrite Hget|].
    by rewrite PyDict_get_set_eq.
  - rewrite PyDict_get_set_ne by done.
    destruct (PyDict.get name (table T)); [done|].
    by rewrite PyDict_get_set_ne.
Qed.

Lemma backend_checkers_conflict env cs a b :
  a ≠ b → BackendChecker a ∈ cs → BackendChecker b ∈ cs →
  all_checks env cs ≠ Ok true.
Proof.
  intros Hab Ha Hb H.
  pose proof (all_checks_elem env cs _ H Ha) as Hca.
  pose proof (all_checks_elem env cs _ H Hb) as Hcb.
  simpl in Hca, Hcb. destruct (env_getitem env "backend") as [v|]; [|done].
  simpl in Hca, Hcb. injection Hca as Hca. injection Hcb as Hcb.
  apply bool_decide_eq_true in Hca, Hcb. congruence.
Qed.

Lemma token_checkers_backend a i :
  a ≠ DEFAULT → BackendChecker a ∈ token_checkers a i.
Proof.
  intros Ha. unfold token_checkers. rewrite decide_True by done.
  apply elem_of_app. left. apply list_elem_of_singleton. done.
Qed.

(** ** Removal on the table of identities *)

Lemma PyDict_pop_map {V W} (f : V → W) (d : PyDict.t V) k :
  PyDict.pop k (map_values f d) = map_values f (PyDict.pop k d).
Proof.
  unfold map_values. induction d as [|[k' v] d IH]; simpl; [done|].
  destruct (decide (k' = k)); simpl; [done|]. f_equal. apply IH.
Qed.

Lemma list_remove_ref_snapshot s x (l : list RefRecord) :
  list_remove (snapshot_record s x) (snapshot_record s <$> l)
  = l' ← list_remove_ref s x l; Ok (snapshot_record s <$> (l' : list RefRecord)).
Proof.
  induction l as [|y l IH]; [done|]. rewrite fmap_cons. simpl.
  destruct (decide (snapshot_record s y = snapshot_record s x)); [done|].
  rewrite IH. by destruct (list_remove_ref s x l).
Qed.

Lemma pop_records_ref_snapshot s (todo : list (string * RefRecord)) : ∀ t,
  pop_records ((λ kr : string * RefRecord, (kr.1, snapshot_record s kr.2))
                 <$> todo)
              (map_values (λ l : list RefRecord, snapshot_record s <$> l) t)
  = t' ← pop_records_ref s todo t;
    Ok (map_values (λ l : list RefRecord, snapshot_record s <$> l) t').
Proof.
  induction todo as [|[key rec] todo IH]; intros t; [done|].
  rewrite fmap_cons. simpl. rewrite PyDict_get_map.
  destruct (PyDict.get key t) as [recs|]; simpl; [|done].
  rewrite list_remove_ref_snapshot.
  destruct (list_remove_ref s rec recs) as [recs'|]; simpl; [|done].
  rewrite length_fmap. destruct (decide (length recs' = 0)).
  - by rewrite PyDict_pop_map, IH.
  - by rewrite (PyDict_set_map (λ l : list RefRecord, snapshot_record s <$> l)),
      IH.
Qed.

Lemma key_to_pop_ref_snapshot T object filter_cb :
  key_to_pop (snapshot T) object filter_cb
  = (λ kr : string * RefRecord, (kr.1, snapshot_record (lists T) kr.2))
      <$> key_to_pop_ref T object filter_cb.
Proof.
  unfold key_to_pop, key_to_pop_ref, snapshot, map_values.
  induction (table T) as [|[key recs] t IH]; [done|].
  rewrite fmap_cons. simpl. rewrite fmap_app, <- IH. f_equal.
  clear IH. induction recs as [|r recs IHr]; [done|].
  rewrite fmap_cons. simpl. rewrite fmap_app, <- IHr. f_equal.
  destruct (decide (r_object r = object)); [|done].
  destruct filter_cb as [cb|]; [|done].
  by destruct (cb (snapshot_record (lists T) r)).
Qed.

(** Removal reads the table as resolution does. *)
Lemma remove_record_ref_snapshot T object filter_cb :
  remove_record (snapshot T) object filter_cb
  = T' ← remove_record_ref T object filter_cb; Ok (snapshot T').
Proof.
  unfold remove_record, remove_record_ref.
  rewrite key_to_pop_ref_snapshot. unfold snapshot at 1.
  rewrite pop_records_ref_snapshot.
  by destruct (pop_records_ref _ _ _).
Qed.

Lemma remove_record_ref_lists T object filter_cb T' :
  remove_record_ref T object filter_cb = Ok T' → lists T' = lists T.
Proof.
  unfold remove_record_ref.
  destruct (pop_records_ref _ _ _); [|done]. by intros [= <-].
Qed.

(** The table that resolution reads after a registration with a list that
    no record holds. *)
Lemma _register_ref_snapshot
    (T : RefTable) (name backend ir : string) (lid : nat) (cs : list Checker)
    (object : nat) (kw : gmap string pyval) :
  lists T !! lid = Some cs → unshared T lid →
  snapshot (_register_ref T name backend ir lid object kw)
  = _register (snapshot T) name backend ir cs object kw.
Proof.
  intros Hcs Hun. rewrite registered_record_eq. unfold snapshot.
  set (T' := _register_ref T name backend ir lid object kw).
  set (t := match PyDict.get name (table T) with
            | None => PyDict.set name [] (table T)
            | Some _ => table T
            end).
  assert (∀ l, l ≠ lid → lists T' !! l = lists T !! l) as Hother.
  { intros l Hl. unfold T'. by rewrite _register_ref_lists, decide_False. }
  assert (lists T' !! lid = Some (cs ++ token_checkers backend ir)) as Hnew.
  { unfold T'. by rewrite _register_ref_lists, decide_True, Hcs. }
  assert (table T'
          = PyDict.set name
              (default [] (PyDict.get name t)
                 ++ [{| r_object := object; r_checkers := lid; r_kwargs := kw |}])
              t) as -> by done.
  rewrite <- (PyDict_set_map (λ l, snapshot_record (lists T') <$> l)).
  rewrite (snapshot_table_unshared (lists T) (lists T') lid t Hother)
    by by apply unshared_set.
  assert (map_values (λ l, snapshot_record (lists T) <$> l) t
          = match PyDict.get name
                    (map_values (λ l, snapshot_record (lists T) <$> l) (table T))
            with
            | None => PyDict.set name []
                        (map_values (λ l, snapshot_record (lists T) <$> l)
                           (table T))
            | Some _ => map_values (λ l, snapshot_record (lists T) <$> l)
                          (table T)
            end) as Ht.
  { rewrite PyDict_get_map. unfold t.
    destruct (PyDict.get name (table T)); simpl; [done|].
    by rewrite <- (PyDict_set_map (λ l, snapshot_record (lists T) <$> l)). }
  rewrite <- Ht. f_equal.
  rewrite fmap_app. f_equal.
  - rewrite PyDict_get_map.
    assert (default [] (PyDict.get name t)
            = default [] (PyDict.get name (table T))) as ->.
    { unfold t. destruct (PyDict.get name (table T)) eqn:Hget; [by rewrite Hget|].
      by rewrite PyDict_get_set_eq. }
    destruct (PyDict.get name (table T)) as [l|] eqn:Hget; simpl; [|done].
    apply PyDict_get_elem_of in Hget.
    pose proof (proj1 (Forall_forall _ _) Hun _ Hget) as Hl. simpl in Hl.
    clear Hget. induction Hl as [|r l Hr _ IH]; [done|].
    rewrite !fmap_cons, IH. f_equal. by eapply snapshot_record_unshared.
  - unfold snapshot_record, registered_record. cbn [fmap list_fmap r_checkers
      r_object r_kwargs]. rewrite Hnew. simpl. unfold token_checkers.
    by rewrite app_assoc.
Qed.

(** * More on the graph primitives *)

Lemma get_slot_values obj key v :
  get_slot obj key = Some v → v ∈ slot_values obj.
Proof.
  destruct obj as [f|d|d m|d|l], key as [k|i]; simpl; try done;
    try (intros H; apply list_elem_of_fmap; exists (k, v); split; [done|];
         by apply elem_of_map_to_list).
  apply list_elem_of_lookup_2.
Qed.

Lemma unreferenced_sl h v o key : unreferenced h v → sl h o key ≠ Some v.
Proof.
  intros Hun Hsl. unfold sl in Hsl.
  destruct (h !! o) as [obj|] eqn:Ho; [|done]. simpl in Hsl.
  apply (Hun o obj Ho). by eapply get_slot_values.
Qed.

Lemma set_heap_id w : set_heap (heap w) w = w.
Proof. by destruct w. Qed.

(** The heap after [_replace_all_obj], object by object. *)
Lemma _replace_all_obj_run x y irefs ik w :
  ∃ w', _replace_all_obj x y irefs ik w = (w', Ok tt) ∧
    sys_modules w' = sys_modules w ∧
    _wrapped_fns_to_patch w' = _wrapped_fns_to_patch w ∧
    log w' = log w ∧ rewriter w' = rewriter w ∧
    ∀ o, heap w' !! o
         = (λ obj, if decide (o ∈ irefs) then obj
                   else replace_in_ref x y ik obj) <$> heap w !! o.
Proof.
  eexists. split; [reflexivity|]. simpl. repeat (split; [done|]).
  intros o. rewrite map_lookup_imap. by destruct (heap w !! o).
Qed.

Lemma replace_in_ref_inverse x y ik obj :
  y ∉ slot_values obj →
  replace_in_ref y x ik (replace_in_ref x y ik obj) = obj.
Proof.
  intros Hy. apply obj_ext.
  - destruct obj; simpl; done.
  - intros key. rewrite !replace_in_ref_slot.
    destruct (get_slot obj key) as [v|] eqn:Hv; [|done]. simpl. f_equal.
    assert (v ≠ y) as Hvy by (intros ->; by apply get_slot_values in Hv).
    unfold replace_at, replace_value.
    destruct (decide (rewritable ik key)); [|done].
    destruct (decide (v = x)) as [->|Hvx].
    + by rewrite decide_True.
    + by rewrite decide_False.
Qed.

(** [exec_del] changes nothing when it raises, and removes one attribute
    that was there when it returns. *)
Lemma exec_del_cases bound names w w' r :
  exec_del bound names w = (w', r) →
  w' = w ∨
  (r = Ok tt ∧ ∃ o obj name,
     heap w !! o = Some obj ∧ has_attrs obj ∧
     is_Some (get_slot obj (KAttr name)) ∧
     w' = set_heap (<[o := with_attr obj name None]> (heap w)) w).
Proof.
  unfold exec_del.
  destruct (existsb _ _); [intros [= <- <-]; by left|].
  destruct (last names) as [name|]; [|intros [= <- <-]; by left].
  destruct (decide _).
  { destruct bound; intros [= <- <-]; by left. }
  unfold bindM, readM.
  destruct (eval w bound (removelast names)) as [c|e];
    [|intros [= <- <-]; by left].
  unfold delattr.
  destruct (heap w !! c) as [[f|d|d m|d|l]|] eqn:Hc;
    try (intros [= <- <-]; by left).
  - destruct (d !! name) as [v|] eqn:Hd; [|intros [= <- <-]; by left].
    intros [= <- <-]. right. split; [done|].
    exists c, (PModule d), name. simpl. rewrite Hd.
    split; [done|]. split; [done|]. split; [by eexists|].
    done.
  - destruct (d !! name) as [v|] eqn:Hd; [|intros [= <- <-]; by left].
    intros [= <- <-]. right. split; [done|].
    exists c, (PClass d m), name. simpl. rewrite Hd.
    split; [done|]. split; [done|]. split; [by eexists|].
    done.
Qed.

Lemma _del_func_loop_cases names idx w :
  ∃ w', _del_func_loop names idx w = (w', Ok tt) ∧
    (w' = w ∨
     ∃ o obj name,
       heap w !! o = Some obj ∧ has_attrs obj ∧
       is_Some (get_slot obj (KAttr name)) ∧
       w' = set_heap (<[o := with_attr obj name None]> (heap w)) w).
Proof.
  induction idx as [|i idx IH]; simpl; [eauto|].
  destruct (exec_import w (take i names)); [|done].
  destruct (exec_del true names w) as [w1 [[]|e]] eqn:Hdel.
  - exists w1. split; [done|].
    apply exec_del_cases in Hdel as [->|(_ & H)]; auto.
  - apply exec_del_cases in Hdel as [->|([=] & _)]. done.
Qed.

Lemma import_function_single w path :
  length (split path) = 1 → ∃ e, import_function w path = Raise e.
Proof.
  unfold import_function. intros Hlen.
  destruct (split path) as [|n [|n' l]]; try done.
  destruct (eval w (import_loop w [n]) [n]) as [obj|e]; simpl; eauto.
Qed.

(** * More on sessions *)

(** ** Statements that change only the heap *)

Lemma heap_only_bind {A B} (m : M A) (f : A → M B) :
  heap_only m → (∀ a, heap_only (f a)) → heap_only (bindM m f).
Proof.
  intros Hm Hf w w' r. unfold bindM.
  destruct (m w) as [w1 [a|e]] eqn:Hmw.
  - intros Hfa. apply Hf in Hfa. apply Hm in Hmw.
    rewrite Hfa, Hmw. done.
  - intros [= <- <-]. by apply Hm in Hmw.
Qed.

Lemma heap_only_ret {A} (a : A) : heap_only (retM a).
Proof. intros w w' r [= <- <-]. by destruct w. Qed.

Lemma heap_only_raise {A} e : heap_only (@raiseM A e).
Proof. intros w w' r [= <- <-]. by destruct w. Qed.

Lemma heap_only_read {A} (f : World → result A) : heap_only (readM f).
Proof. intros w w' r [= <- <-]. by destruct w. Qed.

Lemma heap_only_replace x y irefs ik : heap_only (_replace_all_obj x y irefs ik).
Proof. intros w w' r [= <- <-]. done. Qed.

Lemma heap_only_setattr o name v : heap_only (setattr o name v).
Proof.
  intros w w' r. unfold setattr.
  destruct (heap w !! o) as [[f|d|d m|d|l]|]; intros [= <- <-];
    done || by destruct w.
Qed.

Lemma heap_only_delattr o name : heap_only (delattr o name).
Proof.
  intros w w' r. unfold delattr.
  destruct (heap w !! o) as [[f|d|d m|d|l]|]; try destruct (d !! name);
    intros [= <- <-]; done || by destruct w.
Qed.

Lemma heap_only_exec_assign bound names v : heap_only (exec_assign bound names v).
Proof.
  unfold exec_assign. destruct (existsb _ _); [apply heap_only_raise|].
  destruct (last names); [|apply heap_only_raise].
  destruct (decide _); [apply heap_only_ret|].
  apply heap_only_bind; [apply heap_only_read|].
  intros a. apply heap_only_setattr.
Qed.

Lemma heap_only_exec_del bound names : heap_only (exec_del bound names).
Proof.
  unfold exec_del. destruct (existsb _ _); [apply heap_only_raise|].
  destruct (last names); [|apply heap_only_raise].
  destruct (decide _).
  - destruct bound; [apply heap_only_ret|apply heap_only_raise].
  - apply heap_only_bind; [apply heap_only_read|].
    intros a. apply heap_only_delattr.
Qed.

Lemma heap_only__set_func p v irefs ik : heap_only (_set_func p v irefs ik).
Proof.
  unfold _set_func.
  apply heap_only_bind; [apply heap_only_read|]. intros bound.
  apply heap_only_bind; [apply heap_only_read|]. intros origin.
  apply heap_only_bind.
  { destruct (decide _); [|apply heap_only_ret].
    apply heap_only_bind; [apply heap_only_read|]. intros c.
    apply heap_only_read. }
  intros mc. apply heap_only_bind.
  { destruct mc; [apply heap_only_ret|apply heap_only_replace]. }
  intros _. apply heap_only_exec_assign.
Qed.

Lemma heap_only_set_funcs l : heap_only (set_funcs l).
Proof.
  induction l as [|[p v] l IH]; simpl; [apply heap_only_ret|].
  apply heap_only_bind; [apply heap_only__set_func|]. by intros _.
Qed.

Lemma heap_only__del_func path : heap_only (_del_func path).
Proof.
  unfold _del_func. generalize (rev (seq 1 (length (split path)))).
  intros idx. induction idx as [|i idx IH]; [apply heap_only_ret|].
  intros w w' r. simpl.
  destruct (exec_import w (take i (split path))); [|apply IH].
  destruct (exec_del true (split path) w) as [w1 [a|e]] eqn:Hdel.
  - intros [= <- <-]. by apply heap_only_exec_del in Hdel.
  - intros H. apply IH in H. apply heap_only_exec_del in Hdel.
    rewrite H, Hdel. done.
Qed.

Lemma heap_only_del_funcs l : heap_only (del_funcs l).
Proof.
  induction l as [|p l IH]; simpl; [apply heap_only_ret|].
  apply heap_only_bind; [apply heap_only__del_func|]. by intros _.
Qed.

(** ** Functions that read only the heap and the loaded modules *)

Section Ext.
Context (w w' : World).
Context (Hheap : heap w' = heap w) (Hmods : sys_modules w' = sys_modules w).

Lemma getattr_ext o name : getattr w' o name = getattr w o name.
Proof. unfold getattr. by rewrite Hheap. Qed.

Lemma getattr_chain_ext names : ∀ o,
  getattr_chain w' o names = getattr_chain w o names.
Proof.
  induction names as [|n names IH]; intros o; simpl; [done|].
  rewrite getattr_ext. destruct (getattr w o n); simpl; auto.
Qed.

Lemma is_class_ext o : is_class w' o = is_class w o.
Proof. unfold is_class. by rewrite Hheap. Qed.

Lemma module_chain_ext names : ∀ o,
  module_chain w' o names = module_chain w o names.
Proof.
  induction names as [|n names IH]; intros o; simpl;
    unfold is_module; rewrite Hheap; [done|].
  rewrite getattr_ext. destruct (getattr w o n); [by rewrite IH|done].
Qed.

Lemma exec_import_ext names : exec_import w' names = exec_import w names.
Proof.
  destruct names as [|n names]; simpl; [done|]. rewrite Hmods.
  destruct (sys_modules w !! n); [apply module_chain_ext|done].
Qed.

Lemma import_loop_ext names : import_loop w' names = import_loop w names.
Proof.
  unfold import_loop. generalize (rev (seq 1 (length names))).
  intros l. induction l as [|i l IH]; simpl; [done|].
  by rewrite exec_import_ext, IH.
Qed.

Lemma eval_ext bound names : eval w' bound names = eval w bound names.
Proof.
  unfold eval. destruct names as [|n rest]; [done|].
  destruct (existsb _ _); [done|]. destruct bound; [|done].
  rewrite Hmods. destruct (sys_modules w !! n); [apply getattr_chain_ext|done].
Qed.

Lemma import_function_ext path :
  import_function w' path = import_function w path.
Proof.
  unfold import_function. rewrite import_loop_ext, !eval_ext.
  destruct (eval w _ (split path)); simpl; [|done].
  destruct (eval w _ (removelast (split path))); simpl; [|done].
  by rewrite is_class_ext.
Qed.
End Ext.

(** ** One round of the first loop of [enter] *)

Lemma _fx_wrap_copied_fn_grows a b w w' :
  _fx_wrap_copied_fn a b w = (w', Ok tt) →
  ∃ l, w' = set_patch (_wrapped_fns_to_patch w ++ l) w.
Proof.
  unfold _fx_wrap_copied_fn.
  assert (w = set_patch (_wrapped_fns_to_patch w ++ []) w) as Hw
    by (rewrite app_nil_r; by destruct w).
  destruct (heap w !! a) as [[fn|d|d m|d|l]|]; try (intros [= <-]; eauto).
  destruct (list_find _ _) as [[idx item]|]; [|intros [= <-]; eauto].
  destruct (heap w !! b) as [[cf|d|d m|d|l]|]; try discriminate.
  intros [= <-]. eauto.
Qed.

Lemma same_but_lists_refl w : same_but_lists w w.
Proof. by repeat split. Qed.

Lemma same_but_lists_trans w1 w2 w3 :
  same_but_lists w1 w2 → same_but_lists w2 w3 → same_but_lists w1 w3.
Proof.
  intros (?&?&?&?&?&?&?) (?&?&?&?&?&?&?). repeat split; congruence.
Qed.


Lemma new_ContextCaller_Ok g f cfg rec kw c :
  new_ContextCaller g f cfg rec kw = Ok c →
  c = context_of cfg kw rec g f ∧
  (∀ k, k ∈ refused_keywords → (kwargs rec ∪ kw) !! k = None) ∧
  (kwargs rec ∪ kw) !! "__weakref__" = None.
Proof.
  unfold new_ContextCaller.
  destruct (existsb _ refused_keywords) eqn:Hex; [done|].
  destruct (bool_decide (is_Some ((kwargs rec ∪ kw) !! "__weakref__"))) eqn:Hw;
    [done|].
  intros [= <-]. split; [done|]. split.
  - intros k Hk. apply eq_None_not_Some. intros Hsome.
    assert (existsb (λ k, bool_decide (is_Some ((kwargs rec ∪ kw) !! k)))
              refused_keywords = true) as Hex'; [|congruence].
    apply existsb_exists. exists k. split; [by apply list_elem_of_In|].
    by apply bool_decide_eq_true_2.
  - apply bool_decide_eq_false in Hw. by apply eq_None_not_Some.
Qed.

Lemma enter_record_inv cfg kw item w w' added :
  enter_record cfg kw item w = (w', Ok added) →
  (∃ e, import_function w item.1 = Raise e ∧ added = []
        ∧ w' = add_log [warn_not_found item.1] w) ∨
  (∃ f oc g fn d l,
     import_function w item.1 = Ok (f, oc) ∧ added = [(item.1, g)] ∧
     heap w !! _object item.2 = Some (PFunction fn) ∧
     dict_of w (__globals__ fn) = Some d ∧
     g = fresh ({[fresh (dom (heap w))]} ∪ dom (heap w)) ∧
     heap w'
       = <[g := PFunction
                  {| __module__ := __module__ fn;
                     __qualname__ := __qualname__ fn;
                     __name__ := __name__ fn;
                     __globals__ := fresh (dom (heap w)) |}]>
           (<[fresh (dom (heap w)) := PDict (<[__name__ fn := g]> d)]> (heap w)) ∧
     sys_modules w' = sys_modules w ∧ log w' = log w ∧
     _wrapped_fns_to_patch w' = _wrapped_fns_to_patch w ++ l ∧
     _registry (rewriter w') = _registry (rewriter w) ∧
     _ori_fx_wrap_num (rewriter w') = _ori_fx_wrap_num (rewriter w) ∧
     _func_contexts (rewriter w')
       = contexts_append item.1 (context_of cfg kw item.2 g f)
           (contexts_append (__module__ fn +:+ "." +:+ __qualname__ fn)
              (context_of cfg kw item.2 g f) (_func_contexts (rewriter w))) ∧
     ∀ k, k ∈ refused_keywords → (kwargs item.2 ∪ kw) !! k = None).
Proof.
  intros H. unfold enter_record in H.
  apply bindM_Ok in H as (found & w1 & Hfound & H).
  destruct (import_function w item.1) as [[f oc]|e] eqn:Himp.
  2:{ injection Hfound as <- <-. injection H as <- <-. left. eauto. }
  injection Hfound as <- <-. right.
  apply bindM_Ok in H as (is_add & w2 & Hadd & H).
  apply readM_Ok in Hadd as [-> _].
  apply bindM_Ok in H as ([] & w3 & Hupd1 & H).
  assert (same_but_lists w w3) as H3.
  { destruct is_add.
    - apply bindM_Ok in Hupd1 as (l & w4 & Hl & Hupd1).
      apply self_attr_Ok in Hl as [-> _].
      rewrite update_self_run in Hupd1. injection Hupd1 as <-.
      by repeat split.
    - injection Hupd1 as <-. apply same_but_lists_refl. }
  apply bindM_Ok in H as (l & w4 & Hl & H).
  apply self_attr_Ok in Hl as [-> Hl].
  apply bindM_Ok in H as ([] & w5 & Hupd2 & H).
  rewrite update_self_run in Hupd2. injection Hupd2 as <-.
  apply bindM_Ok in H as (g & w6 & Hcopy & H).
  unfold copy_function in Hcopy. simpl in Hcopy.
  destruct H3 as (Hh3 & Hs3 & Hl3 & Hp3 & Hr3 & Ho3 & Hc3).
  rewrite Hh3 in Hcopy. unfold dict_of in Hcopy. simpl in Hcopy.
  rewrite Hh3 in Hcopy.
  destruct (heap w !! _object item.2) as [[fn|d|d m|d|l0]|] eqn:Hf;
    try discriminate.
  destruct (match heap w !! __globals__ fn with
            | Some (PModule d) | Some (PDict d) => Some d
            | _ => None
            end) as [d|] eqn:Hd; [|discriminate].
  injection Hcopy as <- <-.
  apply bindM_Ok in H as (ctx & w6 & Hctx & H).
  apply readM_Ok in Hctx as [-> Hctx].
  apply new_ContextCaller_Ok in Hctx as (-> & Hkeys & _).
  apply bindM_Ok in H as ([] & w7 & Hfx & H).
  apply _fx_wrap_copied_fn_grows in Hfx as (patch' & ->).
  apply bindM_Ok in H as (qn & w8 & Hqn & H).
  apply readM_Ok in Hqn as [-> Hqn].
  unfold get_func_qualname in Hqn. simpl in Hqn.
  rewrite lookup_insert_eq in Hqn. simpl in Hqn. injection Hqn as <-.
  apply bindM_Ok in H as ([] & w9 & Hupd3 & H).
  rewrite update_self_run in Hupd3. injection Hupd3 as <-.
  injection H as <- <-.
  eexists f, oc, _, fn, d, patch'. simpl.
  split; [done|]. split; [done|]. split; [done|]. split; [exact Hd|].
  split; [done|]. split; [done|]. split; [done|]. split; [done|].
  split; [by rewrite Hp3|]. split; [done|]. split; [done|].
  split; [by rewrite Hc3|done].
Qed.

(** ** The first loop of [enter] as a whole *)

Lemma enter_records_frame cfg kw recs : ∀ nf w w' out,
  enter_records cfg kw recs nf w = (w', Ok out) →
  sys_modules w' = sys_modules w ∧
  (∃ l, _wrapped_fns_to_patch w' = _wrapped_fns_to_patch w ++ l) ∧
  _registry (rewriter w') = _registry (rewriter w) ∧
  _ori_fx_wrap_num (rewriter w') = _ori_fx_wrap_num (rewriter w).
Proof.
  induction recs as [|item recs IH]; intros nf w w' out H.
  - injection H as <- <-. split; [done|]. split; [|done].
    exists []. by rewrite app_nil_r.
  - simpl in H. apply bindM_Ok in H as (added & w1 & Hrec & H).
    apply IH in H as (Hs & (l' & Hp) & Hr & Ho).
    apply enter_record_inv in Hrec
      as [(e & _ & _ & ->)
         |(f & oc & g & fn & d & l & _ & _ & _ & _ & _ & _ & Hs1 & _ & Hp1
           & Hr1 & Ho1 & _)].
    + simpl in *. split; [done|]. split; [eauto|done].
    + split; [congruence|]. split; [|split; congruence].
      exists (l ++ l'). rewrite Hp, Hp1. by rewrite app_assoc.
Qed.

Lemma last_filter_snoc {A} (P : A → Prop) `{∀ x, Decision (P x)} l x :
  P x → last (filter P (l ++ [x])) = Some x.
Proof.
  intros Hx. rewrite filter_app, filter_cons_True by done.
  rewrite filter_nil. apply last_snoc.
Qed.

(** ** Module paths during a session *)

Section Forward.
Context (w0 : World) (plan : list rewrite_entry) (Hplan : plan_ok w0 plan).
Context (w : World) (Hinv : Inv_core w0 plan (heap w)).
Context (Hroots : sys_modules w = sys_modules w0).

(** A slot that held a module or a class holds it during the session. *)
Lemma attrs_slot_stable o key m obj :
  sl (heap w0) o key = Some m → heap w0 !! m = Some obj → has_attrs obj →
  sl (heap w) o key = Some m.
Proof.
  intros Hsl Hm Hattrs.
  assert (is_Some (heap w0 !! o)) as Ho.
  { unfold sl in Hsl. destruct (heap w0 !! o); [by eexists|done]. }
  destruct (inv_rel _ _ _ Hinv o key Ho) as [Hadd|Hrel].
  - destruct (add_slot_absent w0 plan Hplan o key Hadd) as [_ Hnone]. congruence.
  - rewrite Hsl in Hrel. inversion Hrel as [u ? Hb Heq1 Heq2|]; subst.
    f_equal. destruct Hb as [->|(e & He & _ & Hold)]; [done|].
    destruct (plan_old _ _ Hplan e He) as (fn & Hfn).
    rewrite Hold, Hm in Hfn. injection Hfn as ->. done.
Qed.

Lemma is_module_forward o : is_module w0 o = true → is_module w o = true.
Proof.
  unfold is_module. destruct (heap w0 !! o) as [obj0|] eqn:Ho; [|done].
  destruct (inv_shape _ _ _ Hinv o obj0 Ho) as (obj & -> & Hs).
  by destruct obj0, obj.
Qed.

Lemma module_getattr_forward o n o' obj' :
  is_module w0 o = true → getattr w0 o n = Ok o' →
  heap w0 !! o' = Some obj' → has_attrs obj' →
  getattr w o n = Ok o'.
Proof.
  intros Hmod Hget Ho' Hattrs.
  pose proof (is_module_forward o Hmod) as Hmodw.
  unfold is_module in Hmod, Hmodw. unfold getattr in *.
  destruct (heap w0 !! o) as [[f|d0|d0 m0|d0|l0]|] eqn:Ho; try done.
  destruct (heap w !! o) as [[f|d|d m|d|l]|] eqn:Hw; try done.
  destruct (d0 !! n) as [v|] eqn:Hd0; [|done]. injection Hget as ->.
  assert (sl (heap w) o (KAttr n) = Some o') as Hsl.
  { eapply attrs_slot_stable; [|done|done]. unfold sl. by rewrite Ho. }
  unfold sl in Hsl. rewrite Hw in Hsl. simpl in Hsl. by rewrite Hsl.
Qed.

Lemma module_chain_is_module w' o names :
  module_chain w' o names = true → is_module w' o = true.
Proof. destruct names; simpl; by intros [? _]%andb_prop. Qed.

Lemma is_module_has_attrs w' o :
  is_module w' o = true → ∃ obj, heap w' !! o = Some obj ∧ has_attrs obj.
Proof.
  unfold is_module. destruct (heap w' !! o) as [[f|d|d m|d|l]|]; try done.
  intros _. by eexists.
Qed.

Lemma module_chain_forward names : ∀ o,
  module_chain w0 o names = true →
  module_chain w o names = true ∧
  getattr_chain w o names = getattr_chain w0 o names ∧
  ∀ c, getattr_chain w0 o names = Ok c → is_module w0 c = true.
Proof.
  induction names as [|n names IH]; intros o H.
  - simpl in *. apply andb_prop in H as [Hmod _].
    rewrite (is_module_forward o Hmod). split; [done|]. split; [done|].
    by intros c [= <-].
  - simpl in H. apply andb_prop in H as [Hmod H].
    destruct (getattr w0 o n) as [o'|] eqn:Hget; [|done].
    pose proof (module_chain_is_module _ _ _ H) as Hmod'.
    destruct (is_module_has_attrs _ _ Hmod') as (obj' & Ho' & Hattrs).
    pose proof (module_getattr_forward o n o' obj' Hmod Hget Ho' Hattrs) as Hgetw.
    destruct (IH o' H) as (Hchain & Heq & Hend).
    simpl. rewrite (is_module_forward o Hmod), Hgetw, Hget. simpl.
    split; [done|]. split; done.
Qed.

Lemma exec_import_forward names :
  exec_import w0 names = true →
  exec_import w names = true ∧
  eval w true names = eval w0 true names ∧
  ∀ c, eval w0 true names = Ok c → is_module w0 c = true.
Proof.
  destruct names as [|n rest]; [done|]. simpl exec_import.
  rewrite !eval_cons, Hroots.
  destruct (sys_modules w0 !! n) as [m|]; [|done].
  intros H. destruct (module_chain_forward rest m H) as (Hc & Heq & Hend).
  split; [done|]. rewrite Heq. split; [done|].
  intros c. destruct (existsb _ _); [done|]. apply Hend.
Qed.
End Forward.

Lemma import_loop_prefix w names :
  1 < length names → exec_import w (removelast names) = true →
  import_loop w names = true.
Proof.
  intros Hlen Himp. unfold import_loop. apply existsb_exists.
  exists (length names - 1). split.
  - apply in_rev. rewrite rev_involutive. apply in_seq. lia.
  - rewrite removelast_firstn_len in Himp.
    by replace (length names - 1) with (Init.Nat.pred (length names)) by lia.
Qed.

Section EnterNew.
Context (w0 : World) (plan : list rewrite_entry) (ik : list string).
Context (Hplan : plan_ok w0 plan) (Hclosed : heap_closed w0).
Context (Hik : ik = ["origin_func"]).

(** After the second loop of [enter] the slot of every entry holds a copy
    that the session made. *)
Lemma enter_loop_new l : ∀ w w',
  (∀ e, e ∈ l → e ∈ plan) → SInv w0 plan ik w →
  set_funcs (new_functions_of l) w = (w', Ok tt) →
  SInv w0 plan ik w' ∧
  (∀ o key u, sl (heap w) o key = Some u → is_new plan u →
     ∃ u', sl (heap w') o key = Some u' ∧ is_new plan u') ∧
  (∀ e, e ∈ l →
     ∃ u, sl (heap w') (e_obj e) (KAttr (e_name e)) = Some u ∧ is_new plan u) ∧
  w' = set_heap (heap w') w.
Proof.
  induction l as [|e l IH]; intros w w' Hsub Hinv Hrun.
  - injection Hrun as <-. split; [done|]. split; [eauto|].
    split; [by intros e He%elem_of_nil|by destruct w].
  - simpl in Hrun. apply bindM_Ok in Hrun as ([] & w1 & Hstep & Hrun).
    rewrite Hik in Hinv, IH. rewrite Hik.
    assert (e ∈ plan) as He by (apply Hsub; left).
    destruct (set_step w0 plan _ Hplan Hclosed e (e_new e) w w1 He
                (or_introl eq_refl) Hinv Hstep)
      as (Hinv1 & Hhome & Hpres & Hval & _ & _ & _ & _ & Hw1).
    destruct (IH w1 w') as (Hinv' & Hnew' & Hhomes & Hw');
      [intros e' He'; apply Hsub; by right|done|done|].
    split; [done|]. split; [|split].
    + intros o key u Hu Hnew.
      destruct (Hpres o key) as [u1 Hu1]; [by rewrite Hu|].
      apply (Hnew' o key u1 Hu1).
      destruct (Hval o key u1 Hu1) as [->|Hold]; [by exists e|].
      congruence.
    + intros e' [->|He']%elem_of_cons; [|by apply Hhomes].
      apply (Hnew' _ _ _ Hhome). by exists e.
    + rewrite Hw', Hw1. done.
Qed.
End EnterNew.

(** ** [enter] as its two loops *)

Lemma enter_unfold cfg env kw w0 w1 :
  enter cfg env kw w0 = (w1, Ok tt) →
  ∃ out warns ws wg nf,
    get_records (_registry (rewriter w0)) env = Ok (out, warns) ∧
    heap ws = heap w0 ∧ sys_modules ws = sys_modules w0 ∧
    _func_contexts (rewriter ws) = [] ∧
    _origin_functions (rewriter ws) = Some [] ∧
    _additional_functions (rewriter ws) = Some [] ∧
    enter_records cfg kw out [] ws = (wg, Ok nf) ∧
    set_funcs nf wg = (w1, Ok tt).
Proof.
  intros H. unfold enter in H.
  apply bindM_Ok in H as ([] & wa & Ha & H).
  rewrite update_self_run in Ha. injection Ha as <-.
  apply bindM_Ok in H as (recs & wb & Hb & H). simpl in Hb.
  destruct (get_records (_registry (rewriter w0)) env) as [[out warns]|] eqn:Hrecs;
    [|discriminate].
  injection Hb as <- <-.
  apply bindM_Ok in H as (n & wc & Hc & H).
  apply readM_Ok in Hc as [-> [= <-]].
  apply bindM_Ok in H as ([] & wd & Hd & H).
  rewrite update_self_run in Hd. injection Hd as <-.
  apply bindM_Ok in H as ([] & we & He & H).
  rewrite update_self_run in He. injection He as <-.
  apply bindM_Ok in H as ([] & wf & Hf & H).
  rewrite update_self_run in Hf. injection Hf as <-.
  apply bindM_Ok in H as (nf & wg & Hg & H).
  eexists out, warns, _, wg, nf. split; [done|].
  split; [|split; [|split; [|split; [|split; [|split; [exact Hg|exact H]]]]]];
    done.
Qed.

Lemma AInv_start w0 ws :
  heap ws = heap w0 → sys_modules ws = sys_modules w0 →
  _origin_functions (rewriter ws) = Some [] →
  _additional_functions (rewriter ws) = Some [] →
  AInv w0 [] ws.
Proof.
  intros Hh Hs Ho Ha. split; try done.
  - intros o obj Ho'. by rewrite Hh.
  - intros o obj Hnone Hsome. rewrite Hh in Hsome. congruence.
  - by intros e ?%elem_of_nil.
  - apply plan_ok_nil.
Qed.

(** ** The contexts of a session *)

Section Contexts.
Context (w0 : World) (Hclosed : heap_closed w0).
Context (cfg kw : gmap string pyval) (key : string).

(** The contexts that the first loop of [enter] files under a key that is
    no qualified name of a replacement: one per record of that path. *)
Lemma enter_records_contexts recs : ∀ plan w w' nf,
  AInv w0 plan w → Forall (λ item, locates_function w0 item.1) recs →
  Forall (λ item, qualname_differs w0 key (_object item.2)) recs →
  enter_records cfg kw recs (new_functions_of plan) w = (w', Ok nf) →
  ∃ cs,
    default [] (PyDict.get key (_func_contexts (rewriter w')))
    = default [] (PyDict.get key (_func_contexts (rewriter w))) ++ cs ∧
    Forall2 (λ item c, ∃ g f oc,
               c = context_of cfg kw item.2 g f ∧
               import_function w0 item.1 = Ok (f, oc) ∧
               heap w0 !! g = None ∧
               ∀ k, k ∈ refused_keywords → (kwargs item.2 ∪ kw) !! k = None)
            (filter (λ item, item.1 = key) recs) cs.
Proof.
  induction recs as [|item recs IH]; intros plan w w' nf Hinv Hloc Hq H.
  - injection H as <- <-. exists []. rewrite app_nil_r. split; [done|].
    constructor.
  - apply Forall_cons in Hloc as [Hitem Hloc].
    apply Forall_cons in Hq as [(fn0 & Hfn0 & Hqn) Hq]. simpl in H.
    apply bindM_Ok in H as (added & w1 & Hrec & H).
    destruct (enter_record_spec w0 Hclosed plan cfg kw item w w1 added Hinv
                Hitem Hrec) as (e & _ & Hinv1 & -> & _ & _).
    rewrite <- new_functions_of_app in H.
    destruct (IH _ _ _ _ Hinv1 Hloc Hq H) as (cs & Hcs & Hall).
    pose proof (a_agree _ _ _ Hinv) as Hagree.
    pose proof (a_roots _ _ _ Hinv) as Hroots.
    apply enter_record_inv in Hrec
      as [(err & Herr & _ & _)
         |(f & oc & g & fn & d & l & Himp & _ & Hf & _ & Hgeq & _ & _ & _ & _
           & _ & _ & Hctx & Hkeys)].
    { destruct Hitem as (f & oc & Himp0 & _).
      rewrite (import_function_agree w0 w Hclosed Hagree Hroots) in Herr.
      congruence. }
    rewrite (import_function_agree w0 w Hclosed Hagree Hroots) in Himp.
    rewrite (Hagree _ _ Hfn0) in Hf. injection Hf as <-.
    assert (heap w0 !! g = None) as Hnew.
    { destruct (heap w0 !! g) as [obj|] eqn:Hg0; [|done].
      apply Hagree in Hg0.
      assert (g ∉ dom (heap w)) as Hnot.
      { rewrite Hgeq.
        pose proof (is_fresh ({[fresh (dom (heap w))]} ∪ dom (heap w))).
        set_solver. }
      apply not_elem_of_dom in Hnot. congruence. }
    rewrite Hcs, Hctx. unfold contexts_append at 1.
    destruct (decide (item.1 = key)) as [Heq|Hne].
    + rewrite filter_cons_True by done.
      exists (context_of cfg kw item.2 g f :: cs). split.
      * rewrite Heq, PyDict_get_set_eq. simpl.
        unfold contexts_append. rewrite PyDict_get_set_ne by done.
        by rewrite <- app_assoc.
      * constructor; [|done]. exists g, f, oc. done.
    + rewrite filter_cons_False by done. exists cs. split; [|done].
      rewrite PyDict_get_set_ne by done.
      unfold contexts_append. by rewrite PyDict_get_set_ne.
Qed.
End Contexts.
(** ** Attribute lookup after a session *)




(** * Resolution *)

(** C2: resolution yields at most one (function_path, record) pair per
    function path: over the default-resolved part followed by the
    non-default-resolved part no path occurs twice, and [get_records] returns
    exactly these two parts joined. *)
Theorem get_records_one_per_path (R : Registry) (env : Env) (res : resolved) :
  PyDict.wf R → resolve R env = Ok res →
  NoDup ((default_records res).*1 ++ (records res).*1) ∧
  get_records R env = Ok (default_records res ++ records res, warnings res).
Proof.
  intros Hwf H. split; [by eapply resolve_NoDup|].
  unfold get_records. by rewrite H.
Qed.

Lemma get_records_one_per_path_witness :
  PyDict.wf sample_registry ∧
  ∃ res, resolve sample_registry sample_env = Ok res ∧
    NoDup ((default_records res).*1 ++ (records res).*1) ∧
    get_records sample_registry sample_env
      = Ok (default_records res ++ records res, warnings res).
Proof.
  assert (PyDict.wf sample_registry) as Hwf by by_computation.
  split; [exact Hwf|].
  eexists. split; [vm_compute; reflexivity|].
  apply (get_records_one_per_path sample_registry sample_env);
    [exact Hwf | vm_compute; reflexivity].
Defined.

(** C3: when a path has a default candidate and a checker-bearing candidate
    (every other candidate of the path being checker-free), and the
    environment satisfies all checkers of the checker-bearing one, resolution
    returns that candidate as the single entry of the path. *)
Theorem checker_bearing_beats_default
    (R : Registry) (env : Env) (p : string) (l : list RewriteRecord)
    (d c : RewriteRecord) :
  PyDict.wf R → checks_defined env R → PyDict.get p R = Some l →
  d ∈ l → is_default d → c ∈ l → valid_in env c →
  (∀ r, r ∈ l → r = c ∨ is_default r) →
  ∃ out w, get_records R env = Ok (out, w) ∧
    filter (λ e, e.1 = p) out = [(p, c)].
Proof.
  intros Hwf Hdef Hget _ _ Hc Hv Hothers.
  destruct (get_records_selects R env p l c Hwf Hdef Hget) as (res & Hres & Hone).
  - intros w st Hscan.
    apply list_elem_of_split_l in Hc as (l1 & l2 & -> & Hnotin).
    eapply scan_records_first; [exact Hscan|done| |done].
    apply Forall_forall. intros r Hr [Hne _].
    destruct (Hothers r) as [->|Hd]; [set_solver|done|by apply Hne].
  - exists (default_records res ++ records res), (warnings res).
    split; [|done]. unfold get_records. by rewrite Hres.
Qed.

Lemma checker_bearing_beats_default_witness :
  valid_in sample_env rec_trt ∧
  ∃ out w, get_records sample_registry sample_env = Ok (out, w) ∧
    filter (λ e, e.1 = "pkg.mod.k") out = [("pkg.mod.k", rec_trt)].
Proof.
  assert (valid_in sample_env rec_trt) as Hv
    by (split; [discriminate | vm_compute; reflexivity]).
  split; [exact Hv|].
  apply (checker_bearing_beats_default sample_registry sample_env "pkg.mod.k"
           [rec_default; rec_trt] rec_default rec_trt).
  - by_computation.
  - repeat constructor; eexists; vm_compute; reflexivity.
  - reflexivity.
  - by_computation.
  - reflexivity.
  - by_computation.
  - exact Hv.
  - intros r Hr. repeat (apply elem_of_cons in Hr as [->|Hr]);
      [right; reflexivity | left; reflexivity | by apply elem_of_nil in Hr].
Defined.

(** C4: when two non-default candidates of one path are both valid in the
    environment, resolution raises no error, returns exactly one entry for
    the path, holding the first-registered valid candidate, and issues the
    multiple-valid-rewriters warning for that path. *)
Theorem two_valid_first_wins
    (R : Registry) (env : Env) (p : string)
    (l1 l2 : list RewriteRecord) (c1 c2 : RewriteRecord) :
  PyDict.wf R → checks_defined env R →
  PyDict.get p R = Some (l1 ++ c1 :: l2) →
  Forall (λ r, ¬ valid_in env r) l1 → valid_in env c1 →
  c2 ∈ l2 → valid_in env c2 →
  ∃ out w, get_records R env = Ok (out, w) ∧
    filter (λ e, e.1 = p) out = [(p, c1)] ∧
    warn_multiple_valid p ∈ w.
Proof.
  intros Hwf Hdef Hget Hl1 Hv1 Hc2 Hv2.
  destruct (get_records_selects R env p _ c1 Hwf Hdef Hget) as (res & Hres & Hone).
  { intros w st Hscan. by eapply scan_records_first. }
  exists (default_records res ++ records res), (warnings res).
  split; [unfold get_records; by rewrite Hres|]. split; [done|].
  apply PyDict_get_elem_of in Hget.
  destruct (get_records_loop_entry env R _ res p _ Hres Hget)
    as (w & st & Hscan & _ & _ & Hw).
  apply Hw.
  replace (l1 ++ c1 :: l2) with ((l1 ++ [c1]) ++ l2) in Hscan
    by (by rewrite <- app_assoc).
  rewrite scan_records_app in Hscan. inv_bind Hscan.
  eapply scan_records_warns; [exact Hscan| |exact Hc2|exact Hv2].
  eapply scan_records_first; [exact Ha|done|done|done].
Qed.

Lemma two_valid_first_wins_witness :
  valid_in sample_env rec_trt ∧ valid_in sample_env rec_trt_onnx ∧
  ∃ out w, get_records sample_registry sample_env = Ok (out, w) ∧
    filter (λ e, e.1 = "pkg.mod.f") out = [("pkg.mod.f", rec_trt)] ∧
    warn_multiple_valid "pkg.mod.f" ∈ w.
Proof.
  assert (valid_in sample_env rec_trt) as Hv1
    by (split; [discriminate | vm_compute; reflexivity]).
  assert (valid_in sample_env rec_trt_onnx) as Hv2
    by (split; [discriminate | vm_compute; reflexivity]).
  split; [exact Hv1|]. split; [exact Hv2|].
  apply (two_valid_first_wins sample_registry sample_env "pkg.mod.f"
           [rec_default] [rec_trt_onnx] rec_trt rec_trt_onnx).
  - by_computation.
  - repeat constructor; eexists; vm_compute; reflexivity.
  - reflexivity.
  - repeat constructor. intros [Hne _]. by apply Hne.
  - exact Hv1.
  - by_computation.
  - exact Hv2.
Defined.

(** C9: in the list returned by resolution every entry resolved to a default
    (checker-free) candidate comes before every entry resolved to a
    non-default candidate. *)
Theorem get_records_defaults_first
    (R : Registry) (env : Env) (out : list (string * RewriteRecord))
    (w : list string) (i j : nat) (e1 e2 : string * RewriteRecord) :
  get_records R env = Ok (out, w) →
  out !! i = Some e1 → out !! j = Some e2 →
  is_default e1.2 → ¬ is_default e2.2 → i < j.
Proof.
  intros H Hi Hj Hd Hn. unfold get_records in H. inv_bind H.
  injection H as <- <-. rename a into res.
  apply get_records_loop_spec in Ha
    as (ds & ns & w & Hds & Hns & _ & Hfd & Hfn & _). simpl in *.
  rewrite Hds, Hns in Hi, Hj.
  destruct (decide (i < length ds)) as [Hlt|Hge].
  - destruct (decide (j < length ds)) as [Hjlt|?]; [|lia].
    rewrite lookup_app_l in Hj by done.
    exfalso. apply Hn. by apply (Forall_lookup_1 _ _ _ _ Hfd Hj).
  - rewrite lookup_app_r in Hi by lia.
    exfalso. destruct (Forall_lookup_1 _ _ _ _ Hfn Hi) as [Hne _]. by apply Hne.
Qed.

Lemma get_records_defaults_first_witness :
  ∃ out w, get_records sample_registry sample_env = Ok (out, w) ∧
    out !! 0 = Some ("pkg.mod.g", rec_default) ∧
    out !! 1 = Some ("pkg.mod.f", rec_trt) ∧ 0 < 1.
Proof.
  eexists _, _.
  assert (get_records sample_registry sample_env
    = Ok ([("pkg.mod.g", rec_default); ("pkg.mod.f", rec_trt);
           ("pkg.mod.h", rec_trt); ("pkg.mod.k", rec_trt)],
          [warn_multiple_valid "pkg.mod.f"])) as Hrun
    by (vm_compute; reflexivity).
  split; [exact Hrun|]. split; [reflexivity|]. split; [reflexivity|].
  apply (get_records_defaults_first sample_registry sample_env _ _ 0 1
           ("pkg.mod.g", rec_default) ("pkg.mod.f", rec_trt) Hrun);
    [reflexivity | reflexivity | reflexivity | discriminate].
Defined.

(** C5: the version-range checker for library foo with bounds 1.8.0 and
    1.10.0 passes when the environment reports version 1.9.0, fails for
    1.11.0 and for 1.7.9, and fails without raising when the environment
    reports the library as absent ([None]). *)
Theorem version_range_foo (env : Env) :
  check foo_checker (<["foo" := VStr "1.9.0"]> env) = Ok true ∧
  check foo_checker (<["foo" := VStr "1.11.0"]> env) = Ok false ∧
  check foo_checker (<["foo" := VStr "1.7.9"]> env) = Ok false ∧
  check foo_checker (<["foo" := VNone]> env) = Ok false.
Proof.
  unfold foo_checker, check, LibVersionChecker_check, env_getitem.
  rewrite !lookup_insert_eq. repeat split; vm_compute; reflexivity.
Qed.

(** * Unregistering *)

(** C10: [remove_record] completes and preserves the invariant that every
    function path of the registry maps to a non-empty candidate list: a path
    whose last record is removed loses its key, so no path is left mapped to
    an empty list. *)
Theorem remove_record_nonempty
    (R : Registry) (object : nat) (filter_cb : option (RewriteRecord → bool)) :
  PyDict.wf R → nonempty_lists R →
  ∃ R', remove_record R object filter_cb = Ok R' ∧
    nonempty_lists R' ∧ PyDict.wf R' ∧
    ∀ p, PyDict.get p R' ≠ Some [].
Proof.
  intros Hwf Hne. exists (cleanup object filter_cb R).
  split; [by apply remove_record_cleanup|].
  pose proof (cleanup_nonempty object filter_cb R Hne) as Hne'.
  split; [done|]. split; [by apply cleanup_wf|].
  intros p Hget. apply PyDict_get_elem_of in Hget.
  by apply (proj1 (Forall_forall _ _) Hne' _ Hget).
Qed.

Lemma remove_record_nonempty_witness :
  PyDict.wf sample_registry ∧ nonempty_lists sample_registry ∧
  ∃ R', remove_record sample_registry 2 None = Ok R' ∧
    nonempty_lists R' ∧ PyDict.wf R' ∧
    ∀ p, PyDict.get p R' ≠ Some [].
Proof.
  assert (PyDict.wf sample_registry) as Hwf by by_computation.
  assert (nonempty_lists sample_registry) as Hne by (repeat constructor; done).
  split; [exact Hwf|]. split; [exact Hne|].
  apply (remove_record_nonempty sample_registry 2 None Hwf Hne).
Defined.

(** * The rewriter outside a session *)

(** C7, as stated, fails: [exit] on a rewriter that was never entered does
    not return; it raises an attribute error. *)
Lemma exit_inactive_raises :
  exit inactive_world = (inactive_world, Raise AttributeError) ∧
  ¬ ∃ w', exit inactive_world = (w', Ok tt).
Proof.
  assert (exit inactive_world = (inactive_world, Raise AttributeError)) as H
    by (vm_compute; reflexivity).
  split; [exact H|]. intros [w' Hw']. rewrite H in Hw'. discriminate.
Qed.

(** C7, amended: [exit] on a rewriter on which [enter] has never run (the
    attributes that only [enter] creates are missing) raises an attribute
    error and leaves the whole process state, diagnostics included, as it
    was: no warning is issued and nothing is restored or deleted. *)
Theorem exit_without_enter (w : World) :
  _ori_fx_wrap_num (rewriter w) = None →
  exit w = (w, Raise AttributeError).
Proof.
  intros H. unfold exit, bindM, readM, self_attr. simpl. by rewrite H.
Qed.

Lemma exit_without_enter_witness :
  _ori_fx_wrap_num (rewriter inactive_world) = None ∧
  exit inactive_world = (inactive_world, Raise AttributeError).
Proof.
  split; [reflexivity|].
  apply (exit_without_enter inactive_world). reflexivity.
Defined.

(** C6, as stated, fails in both halves: with the key omitted and no context
    under the caller's qualified name, [get_context] logs and returns none
    instead of failing an assertion; with a key supplied under which nothing
    is registered, it fails the assertion instead of returning none. *)
Lemma get_context_counterexample :
  get_context sample_stack None inactive_world
    = (add_log [warn_no_context "rw.f2"] inactive_world, Ok None) ∧
  get_context sample_stack (Some "rw.f2") inactive_world
    = (inactive_world, Raise AssertionError).
Proof. split; vm_compute; reflexivity. Qed.

(** C6, amended: with a key supplied, [get_context] returns the context
    registered under the key when there is exactly one and fails an
    assertion when there is none or several; with the key omitted, it looks
    under the qualified name of the calling function for the last context
    whose [func] is that function, returns it, and when there is none logs a
    warning and returns none without raising. *)
Theorem get_context_cases (w : World) (stack : list FrameInfo) :
  (∀ key ctxs,
     default [] (PyDict.get key (_func_contexts (rewriter w))) = ctxs →
     (length ctxs = 1 →
        get_context stack (Some key) w = (w, Ok (ctxs !! 0))) ∧
     (length ctxs ≠ 1 →
        get_context stack (Some key) w = (w, Raise AssertionError))) ∧
  (∀ caller key ctxs,
     get_frame_func stack 2 = Ok caller →
     get_func_qualname w caller = Ok key →
     default [] (PyDict.get key (_func_contexts (rewriter w))) = ctxs →
     match last (filter (λ c, ctx_func c = caller) ctxs) with
     | Some ctx => get_context stack None w = (w, Ok (Some ctx))
     | None =>
         get_context stack None w
           = (add_log [warn_no_context key] w, Ok None)
     end).
Proof.
  split.
  - intros key ctxs Hctxs.
    unfold get_context, bindM, readM, retM, raiseM. simpl. rewrite Hctxs.
    split; intros Hlen; [by rewrite decide_True|by rewrite decide_False].
  - intros caller key ctxs Hframe Hname Hctxs.
    unfold get_context, bindM, readM, retM, modifyM. simpl.
    rewrite Hframe. simpl. rewrite Hname. simpl. rewrite Hctxs.
    by destruct (last _).
Qed.

Lemma get_context_cases_witness :
  get_context sample_stack (Some "pkg.mod.f") active_world
    = (active_world, Ok (Some sample_ctx)) ∧
  get_context sample_stack (Some "pkg.mod.g") active_world
    = (active_world, Raise AssertionError) ∧
  get_context sample_stack None active_world
    = (active_world, Ok (Some sample_ctx)).
Proof.
  destruct (get_context_cases active_world sample_stack) as [Hkey Hframe].
  split; [|split].
  - apply (Hkey "pkg.mod.f" [sample_ctx]); reflexivity.
  - apply (Hkey "pkg.mod.g" []); [reflexivity | simpl; lia].
  - apply (Hframe 20 "rw.f2" [sample_ctx]); reflexivity.
Defined.
(** * The session round trip *)

(** C1: the rewrites of a session are not always taken back.  In the
    shadowing state every resolved candidate locates an existing function
    and [enter] returns, but the addition that [enter] made on class [C]
    hides the nested class that the other path goes through: [exit] raises
    [AttributeError] on that path before anything is restored, and the path
    of the addition still evaluates to the replacement afterwards, not to
    the function it evaluated to before [enter]. *)
Lemma round_trip_counterexample :
  all_targets_exist shadow_world ∅ ∧
  enter ∅ ∅ ∅ shadow_world = (shadow_entered, Ok tt) ∧
  exit shadow_entered = (shadow_exited, Raise AttributeError) ∧
  eval_with_import shadow_world "m.C.n" = Ok 10 ∧
  eval_with_import shadow_exited "m.C.n" = Ok 25.
Proof.
  split.
  { intros recs warns Hrecs. vm_compute in Hrecs. injection Hrecs as <- <-.
    repeat constructor; eexists _, _; split; vm_compute; reflexivity. }
  split; [vm_compute; reflexivity|]. split; [vm_compute; reflexivity|].
  split; vm_compute; reflexivity.
Qed.

Lemma sample_world_closed : heap_closed sample_world.
Proof. by_computation. Qed.

Lemma sample_targets_exist : all_targets_exist sample_world sample_env.
Proof.
  intros recs warns Hrecs. vm_compute in Hrecs. injection Hrecs as <- <-.
  repeat constructor; eexists _, _; split; vm_compute; reflexivity.
Qed.


(** C8: a method found through inheritance is not always treated as an
    addition.  In the state with the inherited initialiser, the path
    [m.C.__init__] is found on class [C], which does not hold [__init__]
    in its own dictionary; the probe of [enter] succeeds all the same, since
    [type] provides the name, and the path is not listed as an addition;
    [enter] and [exit] return, and after [exit] class [C] holds an
    [__init__] of its own, the function of the base class: the attribute is
    restored by assignment, not deleted. *)
Lemma inherited_init_kept :
  import_function init_world "m.C.__init__" = Ok (10, Some 4) ∧
  in_class_dict init_world 4 "__init__" = false ∧
  has_own_attr init_world 4 "__init__" = true ∧
  enter ∅ ∅ ∅ init_world = (init_entered, Ok tt) ∧
  _additional_functions (rewriter init_entered) = Some [] ∧
  exit init_entered = (init_exited, Ok tt) ∧
  in_class_dict init_exited 4 "__init__" = true ∧
  sl (heap init_exited) 4 (KAttr "__init__") = Some 10.
Proof.
  split; [vm_compute; reflexivity|]. split; [vm_compute; reflexivity|].
  split; [vm_compute; reflexivity|]. split; [vm_compute; reflexivity|].
  split; [vm_compute; reflexivity|]. split; [vm_compute; reflexivity|].
  split; vm_compute; reflexivity.
Qed.

(** C8, second state: in the shadowing state the path [m.C.n] is found
    only through the base class, is listed as an addition and is on the
    class after [enter], but [exit] raises before its deletion loop and the
    attribute is still on the class afterwards. *)
Lemma addition_counterexample :
  import_function shadow_world "m.C.n" = Ok (10, Some 4) ∧
  has_own_attr shadow_world 4 "n" = false ∧
  enter ∅ ∅ ∅ shadow_world = (shadow_entered, Ok tt) ∧
  _additional_functions (rewriter shadow_entered) = Some ["m.C.n"] ∧
  has_own_attr shadow_entered 4 "n" = true ∧
  exit shadow_entered = (shadow_exited, Raise AttributeError) ∧
  has_own_attr shadow_exited 4 "n" = true.
Proof.
  split; [vm_compute; reflexivity|]. split; [vm_compute; reflexivity|].
  split; [vm_compute; reflexivity|]. split; [vm_compute; reflexivity|].
  split; [vm_compute; reflexivity|]. split; vm_compute; reflexivity.
Qed.

(** * Registration, removal and resolution together *)

(** X1: [_register] appends one record to the list of its path, creating
    the path at the end of the table when it is new; the record holds the
    extra checkers, then a backend checker unless the backend is the default
    one, then an IR checker unless the IR is the default one; the other paths
    keep their lists, and the order of the paths is kept.  The checker list
    is a value here, which is how resolution reads the table when no earlier
    record holds the list that is given. *)
Theorem _register_appends
    (R : Registry) (name backend ir : string) (extra_checkers : list Checker)
    (object : nat) (kw : gmap string pyval) :
  let R' := _register R name backend ir extra_checkers object kw in
  PyDict.get name R'
    = Some (default [] (PyDict.get name R)
              ++ [registered_record backend ir extra_checkers object kw]) ∧
  (∀ k, k ≠ name → PyDict.get k R' = PyDict.get k R) ∧
  PyDict.keys R'
    = match PyDict.get name R with
      | Some _ => PyDict.keys R
      | None => PyDict.keys R ++ [name]
      end.
Proof.
  intros R'. subst R'. rewrite registered_record_eq.
  split; [apply PyDict_get_set_eq|]. split.
  - intros k Hk. rewrite PyDict_get_set_ne by done.
    destruct (PyDict.get name R); [done|by apply PyDict_get_set_ne].
  - destruct (PyDict.get name R) as [l|] eqn:Hget.
    + apply PyDict_set_present. by rewrite Hget.
    + rewrite PyDict_set_present by (rewrite PyDict_get_set_eq; by eexists).
      rewrite PyDict_set_absent by done.
      unfold PyDict.keys. by rewrite fmap_app.
Qed.

(** X2: registration keeps the table well formed: each path occurs once
    and no path maps to an empty list. *)
Theorem _register_keeps_invariant
    (R : Registry) (name backend ir : string) (extra_checkers : list Checker)
    (object : nat) (kw : gmap string pyval) :
  PyDict.wf R → nonempty_lists R →
  PyDict.wf (_register R name backend ir extra_checkers object kw) ∧
  nonempty_lists (_register R name backend ir extra_checkers object kw).
Proof.
  intros Hwf Hne. split; [by apply _register_wf|by apply _register_nonempty].
Qed.

Lemma _register_keeps_invariant_witness :
  PyDict.wf sample_registry ∧ nonempty_lists sample_registry ∧
  PyDict.wf (_register sample_registry "pkg.mod.f" "ncnn" "default" [] 7 ∅) ∧
  nonempty_lists (_register sample_registry "pkg.mod.f" "ncnn" "default" [] 7 ∅).
Proof.
  assert (PyDict.wf sample_registry) as Hwf by by_computation.
  assert (nonempty_lists sample_registry) as Hne by (repeat constructor; done).
  split; [exact Hwf|]. split; [exact Hne|].
  apply (_register_keeps_invariant sample_registry "pkg.mod.f" "ncnn" "default"
           [] 7 ∅ Hwf Hne).
Defined.

(** X3: registering an object that the table does not hold yet, with
    a checker list that no record of the table holds, and then removing the
    object with [remove_record] and no filter gives back the table that
    resolution read before the registration, also when the registration
    had created the path; the checker list given keeps the checkers that
    the registration appended to it. *)
Theorem register_remove_round_trip
    (T : RefTable) (name backend ir : string) (lid : nat) (cs : list Checker)
    (object : nat) (kw : gmap string pyval) :
  lists T !! lid = Some cs → unshared T lid →
  PyDict.wf (snapshot T) → nonempty_lists (snapshot T) →
  unregistered (snapshot T) object →
  ∃ T',
    remove_record_ref (_register_ref T name backend ir lid object kw)
      object None = Ok T' ∧
    snapshot T' = snapshot T ∧
    lists T' !! lid = Some (cs ++ token_checkers backend ir).
Proof.
  intros Hcs Hun Hwf Hne Hunreg.
  pose proof (remove_record_ref_snapshot
                (_register_ref T name backend ir lid object kw) object None)
    as Hsnap.
  rewrite (_register_ref_snapshot T name backend ir lid cs object kw Hcs Hun)
    in Hsnap.
  rewrite remove_record_cleanup in Hsnap by by apply _register_wf.
  rewrite cleanup_register in Hsnap by done.
  destruct (remove_record_ref _ object None) as [T'|e] eqn:Hrem; [|done].
  exists T'. split; [done|]. simpl in Hsnap. split; [by injection Hsnap as <-|].
  rewrite (remove_record_ref_lists _ _ _ _ Hrem), _register_ref_lists.
  by rewrite decide_True, Hcs.
Qed.

Lemma register_remove_round_trip_witness :
  lists sample_ref_table !! 0 = Some [LibVersionChecker "foo" None None] ∧
  unshared sample_ref_table 0 ∧
  PyDict.wf (snapshot sample_ref_table) ∧
  nonempty_lists (snapshot sample_ref_table) ∧
  unregistered (snapshot sample_ref_table) 7 ∧
  ∃ T',
    remove_record_ref
      (_register_ref sample_ref_table "pkg.mod.new" "ncnn" "onnx" 0 7 ∅)
      7 None = Ok T' ∧
    snapshot T' = snapshot sample_ref_table ∧
    lists T' !! 0
    = Some ([LibVersionChecker "foo" None None] ++ token_checkers "ncnn" "onnx").
Proof.
  assert (lists sample_ref_table !! 0 = Some [LibVersionChecker "foo" None None])
    as Hcs by reflexivity.
  assert (unshared sample_ref_table 0) as Hun
    by (repeat constructor; simpl; lia).
  assert (PyDict.wf (snapshot sample_ref_table)) as Hwf by by_computation.
  assert (nonempty_lists (snapshot sample_ref_table)) as Hne
    by (repeat constructor; done).
  assert (unregistered (snapshot sample_ref_table) 7) as Hunreg
    by (repeat constructor; simpl; lia).
  split; [exact Hcs|]. split; [exact Hun|]. split; [exact Hwf|].
  split; [exact Hne|]. split; [exact Hunreg|].
  apply (register_remove_round_trip sample_ref_table "pkg.mod.new" "ncnn"
           "onnx" 0 [LibVersionChecker "foo" None None] 7 ∅ Hcs Hun Hwf Hne
           Hunreg).
Defined.

(** X4: after [remove_record], every path holds the records of its list
    that do not carry the object or that the filter keeps, in their order,
    and a path left with no record is not in the table any more. *)
Theorem remove_record_lookup
    (R : Registry) (object : nat) (filter_cb : option (RewriteRecord → bool)) :
  PyDict.wf R → nonempty_lists R →
  ∃ R', remove_record R object filter_cb = Ok R' ∧
    ∀ p, PyDict.get p R'
         = l ← PyDict.get p R;
           let l' := filter (λ r, doomed object filter_cb r ≠ true) l in
           if decide (l' = []) then None else Some l'.
Proof.
  intros Hwf Hne. exists (cleanup object filter_cb R).
  split; [by apply remove_record_cleanup|].
  intros p. by apply cleanup_get.
Qed.

Lemma remove_record_lookup_witness :
  PyDict.wf sample_registry ∧ nonempty_lists sample_registry ∧
  ∃ R', remove_record sample_registry 2 None = Ok R' ∧
    ∀ p, PyDict.get p R'
         = l ← PyDict.get p sample_registry;
           let l' := filter (λ r, doomed 2 None r ≠ true) l in
           if decide (l' = []) then None else Some l'.
Proof.
  assert (PyDict.wf sample_registry) as Hwf by by_computation.
  assert (nonempty_lists sample_registry) as Hne by (repeat constructor; done).
  split; [exact Hwf|]. split; [exact Hne|].
  apply (remove_record_lookup sample_registry 2 None Hwf Hne).
Defined.

(** X5: once an object is removed, resolution never returns it: an entry
    of [get_records] on the table that [remove_record] leaves carries the
    object only if a filter was given and keeps that record. *)
Theorem removed_object_never_resolved
    (R R' : Registry) (object : nat) (filter_cb : option (RewriteRecord → bool))
    (env : Env) (out : list (string * RewriteRecord)) (w : list string)
    (p : string) (r : RewriteRecord) :
  PyDict.wf R → remove_record R object filter_cb = Ok R' →
  get_records R' env = Ok (out, w) → (p, r) ∈ out → _object r = object →
  ∃ cb, filter_cb = Some cb ∧ cb r = true.
Proof.
  intros Hwf Hrem Hget Hin Hobj.
  rewrite remove_record_cleanup in Hrem by done. injection Hrem as <-.
  unfold get_records in Hget. inv_bind Hget. injection Hget as <- <-.
  apply get_records_loop_sound in Ha as (ds & ns & Hds & Hns & HFd & HFn).
  simpl in Hds, Hns. rewrite Hds, Hns in Hin.
  assert (∃ l, (p, l) ∈ cleanup object filter_cb R ∧ r ∈ l) as (l & Hl & Hr).
  { apply elem_of_app in Hin as [Hin|Hin].
    - destruct (proj1 (Forall_forall _ _) HFd _ Hin) as (l & ? & ? & _). eauto.
    - destruct (proj1 (Forall_forall _ _) HFn _ Hin) as (l & ? & ? & _). eauto. }
  pose proof (cleanup_elem_of object filter_cb R p l r Hl Hr) as Hd.
  unfold doomed in Hd. rewrite bool_decide_eq_true_2 in Hd by done.
  destruct filter_cb as [cb|]; [|done].
  exists cb. split; [done|]. simpl in Hd. by destruct (cb r).
Qed.

Lemma removed_object_never_resolved_witness :
  ∃ R' out w,
    PyDict.wf sample_registry ∧
    remove_record sample_registry 1 (Some (λ r, bool_decide (r = rec_default)))
      = Ok R' ∧
    get_records R' sample_env = Ok (out, w) ∧
    ("pkg.mod.g", rec_default) ∈ out ∧ _object rec_default = 1 ∧
    ∃ cb, Some (λ r, bool_decide (r = rec_default)) = Some cb
          ∧ cb rec_default = true.
Proof.
  assert (PyDict.wf sample_registry) as Hwf by by_computation.
  eexists _, _, _.
  split; [exact Hwf|].
  split; [vm_compute; reflexivity|].
  split; [vm_compute; reflexivity|].
  split; [by_computation|]. split; [reflexivity|].
  eapply (removed_object_never_resolved sample_registry _ 1 _ sample_env _ _
            "pkg.mod.g" rec_default Hwf).
  - vm_compute; reflexivity.
  - vm_compute; reflexivity.
  - by_computation.
  - reflexivity.
Defined.

(** X6: every entry that [get_records] returns is a record registered for
    its path, and it either has checkers that all pass in the environment, or
    has no checker while no record of the path is valid: a default is returned
    only when nothing else applies. *)
Theorem get_records_sound
    (R : Registry) (env : Env) (out : list (string * RewriteRecord))
    (w : list string) (p : string) (r : RewriteRecord) :
  get_records R env = Ok (out, w) → (p, r) ∈ out →
  ∃ l, (p, l) ∈ R ∧ r ∈ l ∧
    (valid_in env r ∨ (is_default r ∧ Forall (λ c, ¬ valid_in env c) l)).
Proof.
  intros Hget Hin. unfold get_records in Hget. inv_bind Hget.
  injection Hget as <- <-.
  apply get_records_loop_sound in Ha as (ds & ns & Hds & Hns & HFd & HFn).
  simpl in Hds, Hns. rewrite Hds, Hns in Hin.
  apply elem_of_app in Hin as [Hin|Hin].
  - destruct (proj1 (Forall_forall _ _) HFd _ Hin) as (l & ? & ? & ? & ?).
    exists l. auto.
  - destruct (proj1 (Forall_forall _ _) HFn _ Hin) as (l & ? & ? & ?).
    exists l. auto.
Qed.

Lemma get_records_sound_witness :
  ∃ out w,
    get_records sample_registry sample_env = Ok (out, w) ∧
    ("pkg.mod.g", rec_default) ∈ out ∧
    ∃ l, ("pkg.mod.g", l) ∈ sample_registry ∧ rec_default ∈ l ∧
      (valid_in sample_env rec_default
       ∨ (is_default rec_default ∧ Forall (λ c, ¬ valid_in sample_env c) l)).
Proof.
  eexists _, _. split; [vm_compute; reflexivity|].
  split; [by_computation|].
  eapply (get_records_sound sample_registry sample_env _ _ "pkg.mod.g" rec_default).
  - vm_compute; reflexivity.
  - by_computation.
Defined.

(** X7: when no checker-bearing record of a path is valid in the
    environment, resolution returns the first checker-free record of the path
    as its single entry, and a later checker-free record of the same path
    leaves the multiple-rewriters warning. *)
Theorem default_fallback_first_default
    (R : Registry) (env : Env) (p : string) (l1 l2 : list RewriteRecord)
    (d : RewriteRecord) :
  PyDict.wf R → checks_defined env R →
  PyDict.get p R = Some (l1 ++ d :: l2) →
  Forall (λ r, ¬ is_default r) l1 → is_default d →
  Forall (λ r, ¬ valid_in env r) (l1 ++ l2) →
  ∃ out w, get_records R env = Ok (out, w) ∧
    filter (λ e, e.1 = p) out = [(p, d)] ∧
    (∀ d', d' ∈ l2 → is_default d' → warn_multiple_default p ∈ w).
Proof.
  intros Hwf Hdef Hget Hl1 Hd Hnv.
  destruct (resolve_total R env Hdef) as [res Hres].
  exists (default_records res ++ records res), (warnings res).
  split; [unfold get_records; by rewrite Hres|].
  pose proof (PyDict_get_elem_of _ _ _ Hget) as Hin.
  destruct (get_records_loop_entry env R _ res p _ Hres Hin)
    as (w0 & st & Hscan & _ & Hdflt & Hwarn).
  assert (Forall (λ r, ¬ valid_in env r) (l1 ++ d :: l2)) as Hnv'.
  { apply Forall_app in Hnv as [Hn1 Hn2]. apply Forall_app. split; [done|].
    constructor; [|done]. intros [Hne _]. by apply Hne. }
  pose proof (scan_records_none_valid _ _ _ _ _ Hscan Hnv') as Hfin.
  pose proof (scan_records_first_default _ _ _ _ _ _ _ Hscan eq_refl Hl1 Hd)
    as Hfirst.
  simpl in Hfin. split.
  - apply one_entry_per_path.
    + rewrite fmap_app. by eapply resolve_NoDup.
    + apply elem_of_app. left. by apply Hdflt.
  - intros d' Hd'in Hd'. apply Hwarn.
    rewrite scan_records_app in Hscan. inv_bind Hscan. rename a into st1.
    pose proof (scan_records_none_default _ _ _ _ _ Ha Hl1) as Hst1.
    simpl in Hst1, Hscan. unfold is_default in Hd. rewrite Hd, Hst1 in Hscan.
    simpl in Hscan.
    by eapply scan_records_warns_default in Hscan.
Qed.

Lemma default_fallback_first_default_witness :
  ∃ out w, get_records sample_registry sample_env = Ok (out, w) ∧
    filter (λ e, e.1 = "pkg.mod.g") out = [("pkg.mod.g", rec_default)] ∧
    (∀ d', d' ∈ [rec_ts] → is_default d'
           → warn_multiple_default "pkg.mod.g" ∈ w).
Proof.
  apply (default_fallback_first_default sample_registry sample_env "pkg.mod.g"
           [] [rec_ts] rec_default).
  - by_computation.
  - repeat constructor; eexists; vm_compute; reflexivity.
  - reflexivity.
  - constructor.
  - reflexivity.
  - repeat constructor. intros [_ Hv]. vm_compute in Hv. discriminate.
Defined.

(** X8: a path none of whose records is checker-free or valid in the
    environment has no entry in the result of [get_records]. *)
Theorem no_candidate_no_entry
    (R : Registry) (env : Env) (p : string) (l : list RewriteRecord)
    (out : list (string * RewriteRecord)) (w : list string) :
  PyDict.wf R → PyDict.get p R = Some l →
  Forall (λ r, ¬ is_default r) l → Forall (λ r, ¬ valid_in env r) l →
  get_records R env = Ok (out, w) → p ∉ out.*1.
Proof.
  intros Hwf Hget Hnd Hnv Hrec Hin.
  apply list_elem_of_fmap in Hin as ([p' r] & -> & Hin). simpl in *.
  unfold get_records in Hrec. inv_bind Hrec. injection Hrec as <- <-.
  apply get_records_loop_sound in Ha as (ds & ns & Hds & Hns & HFd & HFn).
  simpl in Hds, Hns. rewrite Hds, Hns in Hin.
  rewrite Forall_forall in Hnd. rewrite Forall_forall in Hnv.
  apply elem_of_app in Hin as [Hin|Hin].
  - destruct (proj1 (Forall_forall _ _) HFd _ Hin) as (l' & Hl' & Hr & Hdef & _).
    simpl in *. apply PyDict_elem_of_get in Hl'; [|done].
    assert (l' = l) as -> by congruence. by apply (Hnd r).
  - destruct (proj1 (Forall_forall _ _) HFn _ Hin) as (l' & Hl' & Hr & Hv).
    simpl in *. apply PyDict_elem_of_get in Hl'; [|done].
    assert (l' = l) as -> by congruence. by apply (Hnv r).
Qed.

Lemma no_candidate_no_entry_witness :
  ∃ out w,
    get_records sample_registry (<["backend" := VBackend "ncnn"]> sample_env)
      = Ok (out, w) ∧
    "pkg.mod.h" ∉ out.*1.
Proof.
  eexists _, _. split; [vm_compute; reflexivity|].
  eapply (no_candidate_no_entry sample_registry
            (<["backend" := VBackend "ncnn"]> sample_env) "pkg.mod.h" [rec_trt]).
  - by_computation.
  - reflexivity.
  - repeat constructor. discriminate.
  - repeat constructor. intros [_ Hv]. vm_compute in Hv. discriminate.
  - vm_compute; reflexivity.
Defined.

(** X9: a rewriter registered for a new path with the default backend,
    the default IR and no extra checker is what resolution returns for that
    path in every environment in which the checkers of the table are
    defined. *)
Theorem register_default_applies
    (R : Registry) (env : Env) (name : string) (object : nat)
    (kw : gmap string pyval) :
  PyDict.wf R → checks_defined env R → PyDict.get name R = None →
  ∃ out w,
    get_records (_register R name DEFAULT DEFAULT [] object kw) env
      = Ok (out, w) ∧
    filter (λ e, e.1 = name) out
      = [(name, {| _object := object; _checkers := []; kwargs := kw |})].
Proof.
  intros Hwf Hdef Hget.
  set (rec := {| _object := object; _checkers := []; kwargs := kw |}).
  assert (registered_record DEFAULT DEFAULT [] object kw = rec) as Hrec
    by done.
  assert (_register R name DEFAULT DEFAULT [] object kw = R ++ [(name, [rec])])
    as Hshape by (rewrite _register_shape, Hget, Hrec; done).
  assert (PyDict.wf (_register R name DEFAULT DEFAULT [] object kw)) as Hwf'
    by by apply _register_wf.
  rewrite Hshape in Hwf' |- *.
  assert (checks_defined env (R ++ [(name, [rec])])) as Hdef'.
  { apply Forall_app. split; [done|]. repeat constructor. by eexists. }
  destruct (resolve_total _ env Hdef') as [res Hres].
  exists (default_records res ++ records res), (warnings res).
  split; [unfold get_records; by rewrite Hres|].
  assert ((name, [rec]) ∈ R ++ [(name, [rec])]) as Hin
    by (apply elem_of_app; right; by apply list_elem_of_singleton).
  destruct (get_records_loop_entry env _ _ res name [rec] Hres Hin)
    as (w0 & st & Hscan & _ & Hdflt & _).
  simpl in Hscan. injection Hscan as <-.
  apply one_entry_per_path.
  - rewrite fmap_app. by eapply resolve_NoDup.
  - apply elem_of_app. left. by apply Hdflt.
Qed.

Lemma register_default_applies_witness :
  ∃ out w,
    get_records (_register sample_registry "pkg.mod.new" DEFAULT DEFAULT [] 7 ∅)
      sample_env = Ok (out, w) ∧
    filter (λ e, e.1 = "pkg.mod.new") out
      = [("pkg.mod.new", {| _object := 7; _checkers := []; kwargs := ∅ |})].
Proof.
  apply (register_default_applies sample_registry sample_env "pkg.mod.new" 7 ∅).
  - by_computation.
  - repeat constructor; eexists; vm_compute; reflexivity.
  - reflexivity.
Defined.

(** * Environments *)

(** X10: an environment made by [collect_env] always has a backend and an
    IR entry, so that resolution of a table whose records carry only backend
    and IR checkers, as registration without extra checkers gives, returns
    without raising. *)
Theorem collect_env_resolves
    (R : Registry) (backend ir mmdeploy_version : string)
    (backend_version codebase_version kw : Env) :
  Forall (λ item, Forall (λ r, Forall token_checker (_checkers r)) item.2) R →
  is_Ok (get_records R
           (collect_env backend ir mmdeploy_version backend_version
              codebase_version kw)).
Proof.
  intros HR.
  destruct (collect_env_keys backend ir mmdeploy_version backend_version
              codebase_version kw) as [Hb Hi].
  destruct (resolve_total R
    (collect_env backend ir mmdeploy_version backend_version codebase_version kw))
    as [res Hres].
  - eapply Forall_impl; [exact HR|]. intros item Hitem.
    eapply Forall_impl; [exact Hitem|]. intros r Hr. simpl in *.
    by apply all_checks_token.
  - unfold get_records. rewrite Hres. by eexists.
Qed.

Lemma collect_env_resolves_witness :
  is_Ok (get_records sample_registry
           (collect_env "tensorrt" "onnx" "1.3.1" ∅ ∅ ∅)).
Proof.
  apply (collect_env_resolves sample_registry "tensorrt" "onnx" "1.3.1" ∅ ∅ ∅).
  repeat constructor.
Defined.

(** X11: a version checker whose minimum is above its maximum, both
    plain release versions, passes in no environment that reports a plain
    release version for the library, or none at all. *)
Theorem inverted_range_never_passes
    (lib lo hi : string) (vlo vhi : Version) (env : Env) :
  version_parse lo = Ok vlo → version_parse hi = Ok vhi →
  version_lt vhi vlo = true →
  (∀ s, env !! lib = Some (VStr s) → is_Ok (version_parse s)) →
  check (LibVersionChecker lib (Some lo) (Some hi)) env ≠ Ok true ∧
  ∀ s, env !! lib = Some (VStr s) →
    check (LibVersionChecker lib (Some lo) (Some hi)) env = Ok false.
Proof.
  intros Hlo Hhi Hlt Hrel.
  assert (∀ s, env !! lib = Some (VStr s) →
            check (LibVersionChecker lib (Some lo) (Some hi)) env = Ok false)
    as Hstr.
  { intros s Hs. destruct (Hrel s Hs) as [cur Hcur].
    simpl. unfold LibVersionChecker_check, env_getitem. rewrite Hs. simpl.
    rewrite Hcur, Hlo, Hhi. simpl.
    destruct (version_lt cur vlo) eqn:Hc; [by destruct (version_lt vhi cur)|].
    destruct (version_lt_total vhi cur) as [->|[->|Hc']]; [done| |].
    - congruence.
    - rewrite (version_lt_trans _ _ _ Hc' Hlt) in Hc. done. }
  split; [|done].
  destruct (env !! lib) as [v|] eqn:Hv.
  - destruct v as [b|i|s|].
    + simpl. unfold LibVersionChecker_check, env_getitem. rewrite Hv. done.
    + simpl. unfold LibVersionChecker_check, env_getitem. rewrite Hv. done.
    + by rewrite (Hstr s eq_refl).
    + simpl. unfold LibVersionChecker_check, env_getitem. rewrite Hv. done.
  - simpl. unfold LibVersionChecker_check, env_getitem. rewrite Hv. done.
Qed.

Lemma inverted_range_never_passes_witness :
  version_parse "2.0" = Ok [2] ∧ version_parse "1.10.0" = Ok [1; 10] ∧
  version_lt [1; 10] [2] = true ∧
  (∀ s, (<["foo" := VStr "1.12"]> ∅ : Env) !! "foo" = Some (VStr s) →
     is_Ok (version_parse s)) ∧
  check (LibVersionChecker "foo" (Some "2.0") (Some "1.10.0"))
        (<["foo" := VStr "1.12"]> ∅) ≠ Ok true ∧
  ∀ s, (<["foo" := VStr "1.12"]> ∅ : Env) !! "foo" = Some (VStr s) →
    check (LibVersionChecker "foo" (Some "2.0") (Some "1.10.0"))
          (<["foo" := VStr "1.12"]> ∅) = Ok false.
Proof.
  assert (∀ s, (<["foo" := VStr "1.12"]> ∅ : Env) !! "foo" = Some (VStr s) →
            is_Ok (version_parse s)) as Hrel.
  { intros s Hs. rewrite lookup_insert_eq in Hs. injection Hs as <-.
    eexists. vm_compute. reflexivity. }
  split; [vm_compute; reflexivity|]. split; [vm_compute; reflexivity|].
  split; [reflexivity|]. split; [exact Hrel|].
  apply (inverted_range_never_passes "foo" "2.0" "1.10.0" [2] [1; 10]);
    [vm_compute; reflexivity|vm_compute; reflexivity|reflexivity|exact Hrel].
Defined.

(** * Registration and the identity of checker lists *)

(** X12: when the checker list given to [_register] is held by no record
    of the table, the table that resolution reads afterwards is what
    [_register] on values gives: one record more at the end of the list of
    the path, the other records as they were. *)
Theorem _register_ref_refines
    (T : RefTable) (name backend ir : string) (lid : nat) (cs : list Checker)
    (object : nat) (kw : gmap string pyval) :
  lists T !! lid = Some cs → unshared T lid →
  snapshot (_register_ref T name backend ir lid object kw)
  = _register (snapshot T) name backend ir cs object kw.
Proof. apply _register_ref_snapshot. Qed.

Lemma _register_ref_refines_witness :
  lists sample_ref_table !! 0 = Some [LibVersionChecker "foo" None None] ∧
  unshared sample_ref_table 0 ∧
  snapshot (_register_ref sample_ref_table "pkg.mod.f" "tensorrt" "default" 0 2 ∅)
  = _register (snapshot sample_ref_table) "pkg.mod.f" "tensorrt" "default"
      [LibVersionChecker "foo" None None] 2 ∅.
Proof.
  assert (lists sample_ref_table !! 0 = Some [LibVersionChecker "foo" None None])
    as Hcs by reflexivity.
  assert (unshared sample_ref_table 0) as Hun
    by (repeat constructor; simpl; lia).
  split; [exact Hcs|]. split; [exact Hun|].
  apply (_register_ref_refines sample_ref_table "pkg.mod.f" "tensorrt" "default"
           0 [LibVersionChecker "foo" None None] 2 ∅ Hcs Hun).
Defined.

(** X13: when one checker list is given to two registrations with
    different backends, none of them the default one, the list ends up
    holding both backend checkers, both new records hold that list, and no
    record that holds it is valid in any environment. *)
Theorem shared_list_conflict
    (T : RefTable) (lid : nat) (cs : list Checker) (n1 n2 a b i1 i2 : string)
    (o1 o2 : nat) (kw1 kw2 : gmap string pyval) :
  lists T !! lid = Some cs → a ≠ DEFAULT → b ≠ DEFAULT → a ≠ b →
  let T' := _register_ref (_register_ref T n1 a i1 lid o1 kw1)
              n2 b i2 lid o2 kw2 in
  lists T' !! lid = Some ((cs ++ token_checkers a i1) ++ token_checkers b i2) ∧
  (∃ l, PyDict.get n1 (table T') = Some l ∧
        {| r_object := o1; r_checkers := lid; r_kwargs := kw1 |} ∈ l) ∧
  (∃ l, PyDict.get n2 (table T') = Some l ∧
        {| r_object := o2; r_checkers := lid; r_kwargs := kw2 |} ∈ l) ∧
  ∀ env r, r_checkers r = lid →
    ¬ valid_in env (snapshot_record (lists T') r).
Proof.
  intros Hcs Ha Hb Hab T'.
  assert (lists T' !! lid
          = Some ((cs ++ token_checkers a i1) ++ token_checkers b i2)) as Hl.
  { unfold T'. rewrite !_register_ref_lists, !decide_True, Hcs by done. done. }
  split; [done|]. split; [|split].
  - unfold T'. rewrite _register_ref_table.
    destruct (decide (n1 = n2)) as [->|Hne].
    + eexists. split; [done|]. apply elem_of_app. left.
      rewrite _register_ref_table, decide_True by done. simpl.
      apply elem_of_app. right. by apply list_elem_of_singleton.
    + rewrite _register_ref_table, decide_True by done.
      eexists. split; [done|]. apply elem_of_app. right.
      by apply list_elem_of_singleton.
  - unfold T'. rewrite _register_ref_table, decide_True by done.
    eexists. split; [done|]. apply elem_of_app. right.
    by apply list_elem_of_singleton.
  - intros env r Hr [_ Hv]. unfold snapshot_record in Hv.
    cbn [_checkers] in Hv. rewrite Hr, Hl in Hv. cbn [default] in Hv.
    eapply (backend_checkers_conflict env _ a b Hab); [| |exact Hv].
    + apply elem_of_app. left. apply elem_of_app. right.
      by apply token_checkers_backend.
    + apply elem_of_app. right. by apply token_checkers_backend.
Qed.

Lemma shared_list_conflict_witness :
  lists sample_ref_table !! 0 = Some [LibVersionChecker "foo" None None] ∧
  let T' := _register_ref
              (_register_ref sample_ref_table "pkg.mod.f" "tensorrt" "default"
                 0 2 ∅)
              "pkg.mod.g" "ncnn" "default" 0 3 ∅ in
  lists T' !! 0
    = Some (([LibVersionChecker "foo" None None]
               ++ token_checkers "tensorrt" "default")
              ++ token_checkers "ncnn" "default") ∧
  (∃ l, PyDict.get "pkg.mod.f" (table T') = Some l ∧
        {| r_object := 2; r_checkers := 0; r_kwargs := ∅ |} ∈ l) ∧
  (∃ l, PyDict.get "pkg.mod.g" (table T') = Some l ∧
        {| r_object := 3; r_checkers := 0; r_kwargs := ∅ |} ∈ l) ∧
  ∀ env r, r_checkers r = 0 →
    ¬ valid_in env (snapshot_record (lists T') r).
Proof.
  split; [reflexivity|].
  apply (shared_list_conflict sample_ref_table 0
           [LibVersionChecker "foo" None None] "pkg.mod.f" "pkg.mod.g"
           "tensorrt" "ncnn" "default" "default" 2 3 ∅ ∅);
    [reflexivity|discriminate|discriminate|discriminate].
Defined.

(** X14: a decorator of [register_object] applied to two objects files
    both under its path with one shared checker list, to which each
    application has appended the backend and IR checkers again; the checks
    of that list pass, fail or raise as they do with the checkers appended
    once. *)
Theorem decorator_reuse
    (T : RefTable) (name backend ir : string) (extra_checkers : checkers_arg)
    (kw : gmap string pyval) (o1 o2 : nat) :
  (∀ l, extra_checkers = CheckerList l → is_Some (lists T !! l)) →
  PyDict.get name (table T) = None →
  let T1 := (register_object T name backend ir extra_checkers kw).1 in
  let d := (register_object T name backend ir extra_checkers kw).2 in
  let cs := match extra_checkers with
            | NoCheckers => []
            | OneChecker c => [c]
            | CheckerList l => default [] (lists T !! l)
            end in
  let shared := (cs ++ token_checkers backend ir) ++ token_checkers backend ir in
  PyDict.get name (snapshot (decorator d o2 (decorator d o1 T1)))
    = Some [{| _object := o1; _checkers := shared; kwargs := kw |};
            {| _object := o2; _checkers := shared; kwargs := kw |}] ∧
  ∀ env, all_checks env shared
         = all_checks env (cs ++ token_checkers backend ir).
Proof.
  intros Hlist Hnone T1 d cs shared.
  split; [|intros env; apply all_checks_twice].
  assert (lists T1 !! dec_checkers d = Some cs) as Hcs.
  { unfold T1, d, cs, register_object.
    destruct extra_checkers as [|c|l]; simpl;
      [apply lookup_insert_eq|apply lookup_insert_eq|].
    destruct (Hlist l eq_refl) as [x ->]. done. }
  assert (table T1 = table T) as Ht1 by done.
  unfold snapshot. rewrite PyDict_get_map.
  unfold decorator. rewrite _register_ref_table, decide_True by done.
  rewrite _register_ref_table, decide_True by done.
  assert (dec_name d = name) as Hn by done.
  assert (dec_backend d = backend) as Hb by done.
  assert (dec_ir d = ir) as Hi by done.
  assert (dec_kwargs d = kw) as Hk by done.
  rewrite Hn, Hb, Hi, Hk, Ht1, Hnone.
  set (T3 := _register_ref
               (_register_ref T1 name backend ir (dec_checkers d) o1 kw)
               name backend ir (dec_checkers d) o2 kw).
  assert (lists T3 !! dec_checkers d = Some shared) as Hsh.
  { unfold T3. rewrite !_register_ref_lists, !decide_True, Hcs by done. done. }
  clearbody T3 d. unfold snapshot_record. simpl. by rewrite Hsh.
Qed.

Lemma decorator_reuse_witness :
  (∀ l, OneChecker (LibVersionChecker "foo" None None) = CheckerList l →
        is_Some (lists sample_ref_table !! l)) ∧
  PyDict.get "pkg.mod.g" (table sample_ref_table) = None ∧
  let T1 := (register_object sample_ref_table "pkg.mod.g" "tensorrt" "onnx"
               (OneChecker (LibVersionChecker "foo" None None)) ∅).1 in
  let d := (register_object sample_ref_table "pkg.mod.g" "tensorrt" "onnx"
              (OneChecker (LibVersionChecker "foo" None None)) ∅).2 in
  let shared := ([LibVersionChecker "foo" None None]
                   ++ token_checkers "tensorrt" "onnx")
                  ++ token_checkers "tensorrt" "onnx" in
  PyDict.get "pkg.mod.g" (snapshot (decorator d 3 (decorator d 2 T1)))
    = Some [{| _object := 2; _checkers := shared; kwargs := ∅ |};
            {| _object := 3; _checkers := shared; kwargs := ∅ |}] ∧
  ∀ env, all_checks env shared
         = all_checks env ([LibVersionChecker "foo" None None]
                             ++ token_checkers "tensorrt" "onnx").
Proof.
  assert (∀ l, OneChecker (LibVersionChecker "foo" None None) = CheckerList l →
               is_Some (lists sample_ref_table !! l)) as H1 by discriminate.
  assert (PyDict.get "pkg.mod.g" (table sample_ref_table) = None) as H2
    by reflexivity.
  split; [exact H1|]. split; [exact H2|].
  apply (decorator_reuse sample_ref_table "pkg.mod.g" "tensorrt" "onnx"
           (OneChecker (LibVersionChecker "foo" None None)) ∅ 2 3 H1 H2).
Defined.

(** * The graph primitives *)

(** X15: replacing every reference to an object by a new object that
    nothing referred to, and then every reference to the new object by the
    old one, with the same ignored referrers and keys, leaves the process
    state as it was. *)
Theorem _replace_all_obj_round_trip
    (obj new_obj : nat) (ignore_refs : list nat) (ignore_keys : list string)
    (w : World) :
  unreferenced (heap w) new_obj →
  (let* _ := _replace_all_obj obj new_obj ignore_refs ignore_keys in
   _replace_all_obj new_obj obj ignore_refs ignore_keys) w = (w, Ok tt).
Proof.
  intros Hun. unfold bindM.
  destruct (_replace_all_obj_run obj new_obj ignore_refs ignore_keys w)
    as (w1 & -> & Hs1 & Hp1 & Hl1 & Hr1 & Hh1).
  destruct (_replace_all_obj_run new_obj obj ignore_refs ignore_keys w1)
    as (w2 & -> & Hs2 & Hp2 & Hl2 & Hr2 & Hh2).
  f_equal. destruct w as [h sm p lg rw], w2 as [h2 sm2 p2 lg2 rw2].
  simpl in *. f_equal; try congruence.
  apply map_eq. intros o. rewrite Hh2, Hh1.
  destruct (h !! o) as [x|] eqn:Ho; simpl; [|done]. f_equal.
  destruct (decide (o ∈ ignore_refs)); [done|].
  apply replace_in_ref_inverse. by apply (Hun o).
Qed.

Lemma _replace_all_obj_round_trip_witness :
  unreferenced (heap sample_world) 99 ∧
  (let* _ := _replace_all_obj 10 99 [] ["origin_func"] in
   _replace_all_obj 99 10 [] ["origin_func"]) sample_world
  = (sample_world, Ok tt).
Proof.
  assert (unreferenced (heap sample_world) 99) as Hun by by_computation.
  split; [exact Hun|].
  apply (_replace_all_obj_round_trip 10 99 [] ["origin_func"] sample_world Hun).
Defined.

(** X16: [_replace_all_obj] with no referrer to ignore returns;
    afterwards no list position and no dictionary entry outside the ignored
    keys holds the old object, those that held it hold the new one, the
    entries under ignored keys are as before, so is every slot that held
    another object, and no function object is changed. *)
Theorem _replace_all_obj_effect
    (obj new_obj : nat) (ignore_keys : list string) (w : World) :
  obj ≠ new_obj →
  ∃ w', _replace_all_obj obj new_obj [] ignore_keys w = (w', Ok tt) ∧
    (∀ o key, rewritable ignore_keys key → sl (heap w') o key ≠ Some obj) ∧
    (∀ o key, rewritable ignore_keys key →
       sl (heap w) o key = Some obj → sl (heap w') o key = Some new_obj) ∧
    (∀ o key, ¬ rewritable ignore_keys key →
       sl (heap w') o key = sl (heap w) o key) ∧
    (∀ o key v, sl (heap w) o key = Some v → v ≠ obj →
       sl (heap w') o key = Some v) ∧
    (∀ o fn, heap w !! o = Some (PFunction fn) →
       heap w' !! o = Some (PFunction fn)).
Proof.
  intros Hne.
  destruct (_replace_all_obj_run obj new_obj [] ignore_keys w)
    as (w' & Hrun & _ & _ & _ & _ & Hh).
  exists w'. split; [done|].
  assert (∀ o key, sl (heap w') o key
    = replace_at obj new_obj ignore_keys key <$> sl (heap w) o key)
    as Hsl.
  { intros o key. unfold sl. rewrite Hh.
    destruct (heap w !! o) as [x|]; simpl; [|done].
    apply replace_in_ref_slot. }
  split; [|split; [|split; [|split]]].
  - intros o key Hkey. rewrite Hsl.
    destruct (sl (heap w) o key) as [v|]; simpl; [|done].
    unfold replace_at, replace_value. rewrite decide_True by done.
    destruct (decide (v = obj)); congruence.
  - intros o key Hkey Hv. rewrite Hsl, Hv. simpl.
    unfold replace_at, replace_value. by rewrite !decide_True.
  - intros o key Hkey. rewrite Hsl.
    destruct (sl (heap w) o key) as [v|]; simpl; [|done].
    unfold replace_at. by rewrite decide_False.
  - intros o key v Hv Hvo. rewrite Hsl, Hv. simpl.
    unfold replace_at, replace_value.
    destruct (decide (rewritable ignore_keys key)); [|done].
    by rewrite decide_False.
  - intros o fn Ho. by rewrite Hh, Ho.
Qed.

Lemma _replace_all_obj_effect_witness :
  10 ≠ 25 ∧
  ∃ w', _replace_all_obj 10 25 [] ["origin_func"] sample_world = (w', Ok tt) ∧
    (∀ o key, rewritable ["origin_func"] key → sl (heap w') o key ≠ Some 10) ∧
    (∀ o key, rewritable ["origin_func"] key →
       sl (heap sample_world) o key = Some 10 → sl (heap w') o key = Some 25) ∧
    (∀ o key, ¬ rewritable ["origin_func"] key →
       sl (heap w') o key = sl (heap sample_world) o key) ∧
    (∀ o key v, sl (heap sample_world) o key = Some v → v ≠ 10 →
       sl (heap w') o key = Some v) ∧
    (∀ o fn, heap sample_world !! o = Some (PFunction fn) →
       heap w' !! o = Some (PFunction fn)).
Proof.
  assert (10 ≠ 25) as Hne by lia.
  split; [exact Hne|].
  apply (_replace_all_obj_effect 10 25 ["origin_func"] sample_world Hne).
Defined.

(** X17: [_del_func] never raises, whatever the path and the process
    state: every exception of the import or of the deletion is caught and
    the next shorter prefix is tried. *)
Theorem _del_func_total (path : string) (w : World) :
  ∃ w', _del_func path w = (w', Ok tt).
Proof.
  assert (∃ w', _del_func path w = (w', Ok tt) ∧
            (w' = w ∨
             ∃ o obj name,
               heap w !! o = Some obj ∧ has_attrs obj ∧
               is_Some (get_slot obj (KAttr name)) ∧
               w' = set_heap (<[o := with_attr obj name None]> (heap w)) w))
    as (w' & Hrun & _) by apply _del_func_loop_cases.
  by exists w'.
Qed.

(** X18: a path that is a single name, without a dot, is never rewritten:
    [import_function] raises on it, also when the name is a loaded module, so
    [enter] logs that the path can not be found and goes on without an
    entry for it. *)
Theorem single_name_path_skipped
    (cfg kw : gmap string pyval) (path : string) (rec : RewriteRecord)
    (w : World) :
  length (split path) = 1 →
  (∃ e, import_function w path = Raise e) ∧
  enter_record cfg kw (path, rec) w
    = (add_log [warn_not_found path] w, Ok []).
Proof.
  intros Hlen. destruct (import_function_single w path Hlen) as [e He].
  split; [eauto|]. unfold enter_record, bindM. simpl. by rewrite He.
Qed.

Lemma single_name_path_skipped_witness :
  length (split "pkg") = 1 ∧
  eval_with_import sample_world "pkg" = Ok 1 ∧
  (∃ e, import_function sample_world "pkg" = Raise e) ∧
  enter_record ∅ ∅ ("pkg", rec_f2) sample_world
    = (add_log [warn_not_found "pkg"] sample_world, Ok []).
Proof.
  assert (length (split "pkg") = 1) as Hlen by reflexivity.
  split; [exact Hlen|]. split; [vm_compute; reflexivity|].
  apply (single_name_path_skipped ∅ ∅ "pkg" rec_f2 sample_world Hlen).
Defined.

(** X19: [copy_function] returns an object that was not in the heap, a
    function with the qualified name of the original over a new globals
    dictionary, which holds what the globals of the original hold except
    that the function's own name refers to the copy; no object that was in
    the heap is changed. *)
Theorem copy_function_fresh (f g : nat) (w w' : World) :
  copy_function f w = (w', Ok g) →
  heap w !! g = None ∧
  (∀ o obj, heap w !! o = Some obj → heap w' !! o = Some obj) ∧
  get_func_qualname w' g = get_func_qualname w f ∧
  ∃ fn cf d,
    heap w !! f = Some (PFunction fn) ∧
    dict_of w (__globals__ fn) = Some d ∧
    heap w' !! g = Some (PFunction cf) ∧
    __name__ cf = __name__ fn ∧
    heap w !! __globals__ cf = None ∧
    heap w' !! __globals__ cf = Some (PDict (<[__name__ fn := g]> d)).
Proof.
  unfold copy_function.
  destruct (heap w !! f) as [[fn|d|d m|d|l]|] eqn:Hf; try discriminate.
  destruct (dict_of w (__globals__ fn)) as [d|] eqn:Hd; [|discriminate].
  intros [= <- <-].
  set (glb := fresh (dom (heap w))).
  set (g := fresh ({[glb]} ∪ dom (heap w))).
  assert (glb ∉ dom (heap w)) as Hglb by apply is_fresh.
  assert (g ∉ {[glb]} ∪ dom (heap w)) as Hg by apply is_fresh.
  assert (heap w !! glb = None) as Hglb' by by apply not_elem_of_dom.
  assert (heap w !! g = None) as Hg' by (apply not_elem_of_dom; set_solver).
  assert (g ≠ glb) as Hne by set_solver.
  split; [done|]. split; [|split].
  - intros o obj Ho. simpl.
    rewrite !lookup_insert_ne by congruence. done.
  - unfold get_func_qualname. simpl. rewrite lookup_insert_eq, Hf. done.
  - eexists fn, _, d. simpl. split; [done|]. split; [done|].
    split; [apply lookup_insert_eq|]. simpl. split; [done|]. split; [done|].
    rewrite lookup_insert_ne by done. apply lookup_insert_eq.
Qed.

Lemma copy_function_fresh_witness :
  ∃ w' g,
    copy_function 20 sample_world = (w', Ok g) ∧
    heap sample_world !! g = None ∧
    (∀ o obj, heap sample_world !! o = Some obj → heap w' !! o = Some obj) ∧
    get_func_qualname w' g = get_func_qualname sample_world 20 ∧
    ∃ fn cf d,
      heap sample_world !! 20 = Some (PFunction fn) ∧
      dict_of sample_world (__globals__ fn) = Some d ∧
      heap w' !! g = Some (PFunction cf) ∧
      __name__ cf = __name__ fn ∧
      heap sample_world !! __globals__ cf = None ∧
      heap w' !! __globals__ cf = Some (PDict (<[__name__ fn := g]> d)).
Proof.
  eexists _, _. split; [vm_compute; reflexivity|].
  apply (copy_function_fresh 20 _ sample_world). vm_compute; reflexivity.
Defined.

(** X20: a successful [_set_func] on a path of two or more names writes
    the new function at the attribute the path names.  When the prefix of
    the path names a class, nothing else changes: a list or a dictionary
    that held the old method still holds it.  Otherwise every list position
    and every dictionary entry outside the ignored keys that held the function
    found at the path holds the new function afterwards. *)
Theorem _set_func_references
    (p : string) (v : nat) (ik : list string) (w w' : World) :
  1 < length (split p) →
  _set_func p v [] ik w = (w', Ok tt) →
  ∃ c name cur,
    eval w true (removelast (split p)) = Ok c ∧
    last (split p) = Some name ∧
    getattr w c name = Ok cur ∧
    if is_class w c then
      sl (heap w') c (KAttr name) = Some v ∧
      ∀ o key, (o, key) ≠ (c, KAttr name) →
        sl (heap w') o key = sl (heap w) o key
    else
      ∀ o key, rewritable ik key → sl (heap w) o key = Some cur →
        sl (heap w') o key = Some v.
Proof.
  intros Hlen H.
  destruct (_set_func_spec p v ik w w' Hlen H)
    as (name & c & cur & c' & obj & Hlast & _ & _ & Hpre & Hget & Hrest).
  exists c, name, cur. split; [done|]. split; [done|]. split; [done|].
  destruct (is_class w c) eqn:Hcls; simpl in Hrest.
  - destruct Hrest as (Hpre' & Hobj & Hattrs & ->).
    rewrite set_heap_id, Hpre in Hpre'. injection Hpre' as <-. simpl.
    split.
    + rewrite (sl_write _ _ _ _ _ _ _ Hobj Hattrs). by rewrite decide_True.
    + intros o key Hne.
      rewrite (sl_write _ _ _ _ _ _ _ Hobj Hattrs). by rewrite decide_False.
  - destruct Hrest as (_ & Hobj & Hattrs & ->). simpl.
    intros o key Hkey Hcur.
    rewrite (sl_write _ _ _ _ _ _ _ Hobj Hattrs).
    destruct (decide _); [done|].
    rewrite replaced_sl, Hcur. simpl. f_equal.
    unfold replace_at, replace_value. by rewrite !decide_True.
Qed.

Lemma _set_func_references_witness :
  1 < length (split "pkg.mod.f") ∧
  ∃ w', _set_func "pkg.mod.f" 20 [] ["origin_func"] sample_world = (w', Ok tt) ∧
    sl (heap w') 5 (KItem 0) = Some 20 ∧
    ∃ c name cur,
      eval sample_world true (removelast (split "pkg.mod.f")) = Ok c ∧
      last (split "pkg.mod.f") = Some name ∧
      getattr sample_world c name = Ok cur ∧
      if is_class sample_world c then
        sl (heap w') c (KAttr name) = Some 20 ∧
        ∀ o key, (o, key) ≠ (c, KAttr name) →
          sl (heap w') o key = sl (heap sample_world) o key
      else
        ∀ o key, rewritable ["origin_func"] key →
          sl (heap sample_world) o key = Some cur →
          sl (heap w') o key = Some 20.
Proof.
  assert (1 < length (split "pkg.mod.f")) as Hlen by (vm_compute; lia).
  split; [exact Hlen|].
  eexists. split; [vm_compute; reflexivity|].
  split; [vm_compute; reflexivity|].
  apply (_set_func_references "pkg.mod.f" 20 ["origin_func"] sample_world _ Hlen).
  vm_compute; reflexivity.
Defined.

(** * Sessions *)

(** X21: with the environment that [enter] takes by default, an empty
    dictionary, resolution raises [KeyError] as soon as one registered record
    has a checker; [enter] then raises it too, having cleared the contexts
    and done nothing else. *)
Theorem enter_default_env_raises
    (cfg kw : gmap string pyval) (w : World) (p : string)
    (l : list RewriteRecord) (r : RewriteRecord) :
  (p, l) ∈ _registry (rewriter w) → r ∈ l → _checkers r ≠ [] →
  get_records (_registry (rewriter w)) ∅ = Raise KeyError ∧
  enter cfg ∅ kw w
    = (set_rewriter (with_func_contexts [] (rewriter w)) w, Raise KeyError).
Proof.
  intros Hin Hr Hc.
  pose proof (get_records_empty_env_raises _ p l r Hin Hr Hc) as Hraise.
  split; [done|].
  unfold enter, bindM. rewrite update_self_run. simpl. by rewrite Hraise.
Qed.

Lemma enter_default_env_raises_witness :
  ("pkg.mod.f", [rec_f2]) ∈ _registry (rewriter sample_world) ∧
  rec_f2 ∈ [rec_f2] ∧ _checkers rec_f2 ≠ [] ∧
  get_records (_registry (rewriter sample_world)) ∅ = Raise KeyError ∧
  enter ∅ ∅ ∅ sample_world
    = (set_rewriter (with_func_contexts [] (rewriter sample_world)) sample_world,
       Raise KeyError).
Proof.
  assert (("pkg.mod.f", [rec_f2]) ∈ _registry (rewriter sample_world)) as H1
    by by_computation.
  assert (rec_f2 ∈ [rec_f2]) as H2 by by_computation.
  assert (_checkers rec_f2 ≠ []) as H3 by discriminate.
  split; [exact H1|]. split; [exact H2|]. split; [exact H3|].
  apply (enter_default_env_raises ∅ ∅ sample_world "pkg.mod.f" [rec_f2] rec_f2
           H1 H2 H3).
Defined.

(** X22: once [enter] has made the copy of a replacement for a path, a
    call of [get_context] without key from a running call of that copy
    returns the context made for it: its function is the copy, its original
    function is what [import_function] found at the path, and it carries the
    record and the configuration; nothing is logged. *)
Theorem copy_finds_its_context
    (cfg kw : gmap string pyval) (path : string) (rec : RewriteRecord)
    (w w' : World) (g : nat) (stack : list FrameInfo) (frameinfo : FrameInfo) :
  enter_record cfg kw (path, rec) w = (w', Ok [(path, g)]) →
  stack !! 2 = Some frameinfo → frame_of w' g frameinfo →
  ∃ f oc,
    import_function w path = Ok (f, oc) ∧
    get_context stack None w' = (w', Ok (Some (context_of cfg kw rec g f))).
Proof.
  intros Hrec Hstack (fn' & d' & Hg' & Hd' & Hglb & Hname).
  apply enter_record_inv in Hrec
    as [(e & _ & [=] & _)
       |(f & oc & g0 & fn & d & l & Himp & [= <-] & Hf & Hd & Hgeq & Hheap
         & _ & _ & _ & _ & _ & Hctx & _)].
  simpl in *. exists f, oc. split; [done|].
  set (glb := fresh (dom (heap w))) in *.
  assert (g ≠ glb) as Hne.
  { rewrite Hgeq. pose proof (is_fresh ({[glb]} ∪ dom (heap w))). set_solver. }
  rewrite Hheap, lookup_insert_eq in Hg'. injection Hg' as <-.
  unfold dict_of in Hd'. simpl in Hd'.
  rewrite Hheap, lookup_insert_ne, lookup_insert_eq in Hd' by done.
  injection Hd' as <-. simpl in Hname.
  unfold get_context, bindM, readM, get_frame_func.
  rewrite Hstack, Hglb, Hname, lookup_insert_eq. simpl.
  unfold get_func_qualname. rewrite Hheap, lookup_insert_eq. simpl.
  rewrite Hctx.
  set (qn := __module__ fn +:+ "." +:+ __qualname__ fn).
  set (ctx := context_of cfg kw rec g f).
  assert (∃ l0, default [] (PyDict.get qn
            (contexts_append path ctx
               (contexts_append qn ctx (_func_contexts (rewriter w)))))
          = l0 ++ [ctx]) as (l0 & ->).
  { unfold contexts_append at 1.
    destruct (decide (qn = path)) as [<-|Hqp].
    - rewrite PyDict_get_set_eq. simpl. eauto.
    - rewrite PyDict_get_set_ne by done. unfold contexts_append.
      rewrite PyDict_get_set_eq. simpl. eauto. }
  rewrite last_filter_snoc by done. done.
Qed.

Lemma copy_finds_its_context_witness :
  enter_record ∅ ∅ ("pkg.mod.f", rec_f2) prepared_world
    = (copied_world, Ok [("pkg.mod.f", 23)]) ∧
  (∃ frameinfo, copy_stack !! 2 = Some frameinfo
                ∧ frame_of copied_world 23 frameinfo) ∧
  ∃ f oc,
    import_function prepared_world "pkg.mod.f" = Ok (f, oc) ∧
    get_context copy_stack None copied_world
      = (copied_world, Ok (Some (context_of ∅ ∅ rec_f2 23 f))).
Proof.
  assert (enter_record ∅ ∅ ("pkg.mod.f", rec_f2) prepared_world
          = (copied_world, Ok [("pkg.mod.f", 23)])) as Hrun
    by (vm_compute; reflexivity).
  assert (frame_of copied_world 23
            {| function := "f2";
               f_globals :=
                 <["f2" := 23]> (list_to_map [("f2", 20); ("meth2", 21)]) |})
    as Hframe.
  { eexists _, _. split; [vm_compute; reflexivity|].
    split; [vm_compute; reflexivity|]. split; vm_compute; reflexivity. }
  split; [exact Hrun|]. split; [eexists; split; [reflexivity|exact Hframe]|].
  exact (copy_finds_its_context ∅ ∅ "pkg.mod.f" rec_f2 prepared_world
           copied_world 23 copy_stack _ Hrun eq_refl Hframe).
Defined.

(** X23: when [enter] and the [exit] after it both return, the tracing
    allowlist, which [enter] only extends, is again what it was before
    [enter], no context is left, and [get_context] with a key fails its
    assertion from then on. *)
Theorem session_restores_bookkeeping
    (cfg : gmap string pyval) (env : Env) (kw : gmap string pyval)
    (w0 w1 w2 : World) :
  enter cfg env kw w0 = (w1, Ok tt) → exit w1 = (w2, Ok tt) →
  (∃ l, _wrapped_fns_to_patch w1 = _wrapped_fns_to_patch w0 ++ l) ∧
  _wrapped_fns_to_patch w2 = _wrapped_fns_to_patch w0 ∧
  _func_contexts (rewriter w2) = [] ∧
  ∀ stack key, get_context stack (Some key) w2 = (w2, Raise AssertionError).
Proof.
  intros H Hexit. unfold enter in H.
  apply bindM_Ok in H as ([] & wa & Ha & H).
  rewrite update_self_run in Ha. injection Ha as <-.
  apply bindM_Ok in H as (recs & wb & Hb & H). simpl in Hb.
  destruct (get_records (_registry (rewriter w0)) env) as [[out warns]|];
    [|discriminate].
  injection Hb as <- <-.
  apply bindM_Ok in H as (n & wc & Hc & H).
  apply readM_Ok in Hc as [-> [= <-]].
  apply bindM_Ok in H as ([] & wd & Hd & H).
  rewrite update_self_run in Hd. injection Hd as <-.
  apply bindM_Ok in H as ([] & we & He & H).
  rewrite update_self_run in He. injection He as <-.
  apply bindM_Ok in H as ([] & wf & Hf & H).
  rewrite update_self_run in Hf. injection Hf as <-.
  apply bindM_Ok in H as (nf & wg & Hg & H).
  apply enter_records_frame in Hg as (Hsg & (l & Hpg) & Hrg & Hog).
  apply heap_only_set_funcs in H. simpl in Hsg, Hpg, Hrg, Hog.
  assert (_wrapped_fns_to_patch w1 = _wrapped_fns_to_patch w0 ++ l) as Hp1
    by (rewrite H; done).
  assert (_ori_fx_wrap_num (rewriter w1)
          = Some (length (_wrapped_fns_to_patch w0))) as Ho1
    by (rewrite H; done).
  clear H Hsg Hpg Hrg Hog.
  unfold exit in Hexit.
  apply bindM_Ok in Hexit as (cur & wa & Ha & Hexit).
  apply readM_Ok in Ha as [-> [= <-]].
  apply bindM_Ok in Hexit as (ori & wa & Ha & Hexit).
  apply self_attr_Ok in Ha as [-> Ha]. rewrite Ho1 in Ha. injection Ha as <-.
  apply bindM_Ok in Hexit as ([] & wp & Hp & Hexit).
  unfold modifyM in Hp. injection Hp as <-.
  apply bindM_Ok in Hexit as (ofs & wa & Ha & Hexit).
  apply self_attr_Ok in Ha as [-> _].
  apply bindM_Ok in Hexit as ([] & wr & Hr & Hexit).
  apply heap_only_set_funcs in Hr.
  apply bindM_Ok in Hexit as (adds & wa & Ha & Hexit).
  apply self_attr_Ok in Ha as [-> _].
  apply bindM_Ok in Hexit as ([] & wd & Hd & Hexit).
  apply heap_only_del_funcs in Hd.
  rewrite update_self_run in Hexit. injection Hexit as <-.
  rewrite Hd, Hr. simpl.
  split; [eauto|]. split.
  { rewrite Hp1, length_app.
    replace (length (_wrapped_fns_to_patch w0) + length l
             - (length (_wrapped_fns_to_patch w0) + length l
                - length (_wrapped_fns_to_patch w0)))
      with (length (_wrapped_fns_to_patch w0)) by lia.
    by rewrite take_app_length. }
  split; [done|].
  intros stack key. unfold get_context, bindM, retM, readM. simpl. done.
Qed.

Lemma session_restores_bookkeeping_witness :
  enter ∅ sample_env ∅ traced_world = (traced_entered, Ok tt) ∧
  exit traced_entered = (traced_exited, Ok tt) ∧
  _wrapped_fns_to_patch traced_entered = [(6, "f2"); (22, "f2"); (24, "f2")] ∧
  (∃ l, _wrapped_fns_to_patch traced_entered
        = _wrapped_fns_to_patch traced_world ++ l) ∧
  _wrapped_fns_to_patch traced_exited = _wrapped_fns_to_patch traced_world ∧
  _func_contexts (rewriter traced_exited) = [] ∧
  ∀ stack key,
    get_context stack (Some key) traced_exited
    = (traced_exited, Raise AssertionError).
Proof.
  assert (enter ∅ sample_env ∅ traced_world = (traced_entered, Ok tt)) as Henter
    by (vm_compute; reflexivity).
  assert (exit traced_entered = (traced_exited, Ok tt)) as Hexit
    by (vm_compute; reflexivity).
  split; [exact Henter|]. split; [exact Hexit|].
  split; [vm_compute; reflexivity|].
  exact (session_restores_bookkeeping ∅ sample_env ∅ traced_world
           traced_entered traced_exited Henter Hexit).
Defined.

(** X25: after [enter] has returned, in a closed graph in which every
    resolved path locates a function, a resolved path that leads through
    modules only evaluates to a function that the session made: an object
    that was not in the graph before [enter]. *)
Theorem module_path_holds_copy
    (cfg : gmap string pyval) (env : Env) (kw : gmap string pyval)
    (w0 w1 : World) (recs : list (string * RewriteRecord))
    (warns : list string) (path : string) :
  heap_closed w0 → all_targets_exist w0 env →
  enter cfg env kw w0 = (w1, Ok tt) →
  get_records (_registry (rewriter w0)) env = Ok (recs, warns) →
  path ∈ recs.*1 →
  exec_import w0 (removelast (split path)) = true →
  ∃ g, eval_with_import w1 path = Ok g ∧
    heap w0 !! g = None ∧ is_function w1 g = true.
Proof.
  intros Hclosed Htargets Henter Hrecs Hin Himp.
  apply enter_unfold in Henter
    as (out & warns' & ws & wg & nf & Hrecs' & Hh & Hs & _ & Ho & Ha & Hg & Hset).
  rewrite Hrecs in Hrecs'. injection Hrecs' as <- <-.
  pose proof (AInv_start w0 ws Hh Hs Ho Ha) as Hinv0.
  pose proof (Htargets recs warns Hrecs) as Hloc.
  destruct (enter_records_spec w0 Hclosed cfg kw recs [] ws wg nf Hinv0 Hloc Hg)
    as (plan & Hinv & -> & Hall & _ & _).
  simpl in Hinv.
  pose proof (a_plan _ _ _ Hinv) as Hplan.
  pose proof (AInv_SInv w0 Hclosed plan ["origin_func"] wg Hinv) as Hsg.
  destruct (enter_loop_new w0 plan ["origin_func"] Hplan Hclosed eq_refl
              plan wg w1) as ((Hroots & Hcore & _) & _ & Hhomes & _);
    [done|done|done|].
  apply list_elem_of_fmap in Hin as (item & -> & Hitem).
  apply list_elem_of_lookup in Hitem as (i & Hi).
  destruct (Forall2_lookup_l _ _ _ _ _ Hall Hi) as (e & He & Hpath & oc & Himp0
    & Hlast & _).
  apply list_elem_of_lookup_2 in He.
  destruct (plan_path _ _ Hplan e He) as (Hlen & _ & Hpre).
  rewrite Hpath in Hlen, Hpre.
  destruct (exec_import_forward w0 plan Hplan w1 Hcore Hroots _ Himp)
    as (Himp1 & Hev & Hmod).
  specialize (Hmod _ Hpre). rewrite Hpre in Hev.
  destruct (Hhomes e He) as (u & Hu & Hnew).
  exists u. split; [|split].
  - unfold eval_with_import.
    rewrite (import_loop_prefix w1 _ Hlen Himp1).
    rewrite (last_removelast _ _ Hlast).
    destruct (import_function_Ok _ _ _ _ Himp0)
      as (_ & name & _ & _ & Hlast' & _ & Hemp & _).
    rewrite Hlast in Hlast'. injection Hlast' as <-.
    rewrite (last_removelast _ _ Hlast) in Hemp.
    apply existsb_snoc_false in Hemp as [_ Hname].
    eapply eval_snoc; [exact Hev|exact Hname|].
    pose proof (is_module_forward w0 plan w1 Hcore _ Hmod) as Hmod1.
    unfold is_module in Hmod1. unfold getattr, sl in *.
    destruct (heap w1 !! e_obj e) as [[f|d|d m|d|l]|]; try done.
    simpl in Hu. by rewrite Hu.
  - by apply (new_not_old w0 plan Hplan).
  - destruct Hnew as (e' & He' & <-).
    destruct (inv_fresh _ _ _ Hcore e' He') as (fn & Hfn).
    unfold is_function. by rewrite Hfn.
Qed.

Lemma module_path_holds_copy_witness :
  ∃ recs warns,
    get_records (_registry (rewriter sample_world)) sample_env
      = Ok (recs, warns) ∧
    "pkg.mod.f" ∈ recs.*1 ∧
    exec_import sample_world (removelast (split "pkg.mod.f")) = true ∧
    enter ∅ sample_env ∅ sample_world = (sample_entered, Ok tt) ∧
    ∃ g, eval_with_import sample_entered "pkg.mod.f" = Ok g ∧
      heap sample_world !! g = None ∧ is_function sample_entered g = true.
Proof.
  assert (get_records (_registry (rewriter sample_world)) sample_env
          = Ok ([("pkg.mod.C.meth", rec_meth2); ("pkg.mod.f", rec_f2)], []))
    as Hrecs by (vm_compute; reflexivity).
  assert ("pkg.mod.f"
          ∈ [("pkg.mod.C.meth", rec_meth2); ("pkg.mod.f", rec_f2)].*1) as Hin
    by by_computation.
  assert (exec_import sample_world (removelast (split "pkg.mod.f")) = true)
    as Himp by (vm_compute; reflexivity).
  assert (enter ∅ sample_env ∅ sample_world = (sample_entered, Ok tt)) as Henter
    by (vm_compute; reflexivity).
  eexists _, _. split; [exact Hrecs|]. split; [exact Hin|].
  split; [exact Himp|]. split; [exact Henter|].
  exact (module_path_holds_copy ∅ sample_env ∅ sample_world sample_entered _ _
           "pkg.mod.f" sample_world_closed sample_targets_exist Henter Hrecs
           Hin Himp).
Defined.

(** X26: after [enter] has returned, in a closed graph in which every
    resolved path locates a function, [get_context] with a resolved path as
    key returns a context, provided no replacement has that path as its
    qualified name: the original function of the context is the function
    that [import_function] found at the path before [enter], its function
    is an object that was not in the graph before [enter], its
    configuration is the one given to [enter], it has no keyword metadata
    under a name that the constructor of the context refuses, and under
    every other name but [_object] and [_checkers] its keyword metadata are
    those of the record, completed by those given to [enter] for the names
    the record does not have. *)
Theorem get_context_by_path
    (deploy_cfg : gmap string pyval) (env : Env) (kw : gmap string pyval)
    (w0 w1 : World) (recs : list (string * RewriteRecord))
    (warns : list string) (path : string) (rec : RewriteRecord)
    (stack : list FrameInfo) :
  heap_closed w0 → all_targets_exist w0 env →
  PyDict.wf (_registry (rewriter w0)) →
  enter deploy_cfg env kw w0 = (w1, Ok tt) →
  get_records (_registry (rewriter w0)) env = Ok (recs, warns) →
  (path, rec) ∈ recs →
  Forall (λ item, qualname_differs w0 path (_object item.2)) recs →
  ∃ ctx f oc,
    import_function w0 path = Ok (f, oc) ∧
    get_context stack (Some path) w1 = (w1, Ok (Some ctx)) ∧
    origin_func ctx = f ∧ heap w0 !! func ctx = None ∧
    cfg ctx = deploy_cfg ∧
    (∀ k, k ∈ refused_keywords → ctx_kwargs ctx !! k = None) ∧
    ∀ k, k ≠ "_object" → k ≠ "_checkers" →
      ctx_kwargs ctx !! k
      = match kwargs rec !! k with
        | Some v => Some v
        | None => kw !! k
        end.
Proof.
  intros Hclosed Htargets Hwf Henter Hrecs Hin Hq.
  apply enter_unfold in Henter
    as (out & warns' & ws & wg & nf & Hrecs' & Hh & Hs & Hc & Ho & Ha & Hg & Hset).
  rewrite Hrecs in Hrecs'. injection Hrecs' as <- <-.
  pose proof (AInv_start w0 ws Hh Hs Ho Ha) as Hinv0.
  pose proof (Htargets recs warns Hrecs) as Hloc.
  destruct (enter_records_contexts w0 Hclosed deploy_cfg kw path recs [] ws wg nf
              Hinv0 Hloc Hq Hg) as (cs & Hcs & Hall).
  rewrite Hc in Hcs. simpl in Hcs.
  assert (filter (λ item, item.1 = path) recs = [(path, rec)]) as Hone.
  { apply one_entry_per_path; [|done].
    unfold get_records in Hrecs. inv_bind Hrecs. injection Hrecs as <- _.
    rewrite fmap_app. by eapply resolve_NoDup. }
  rewrite Hone in Hall.
  apply Forall2_cons_inv_l in Hall
    as (c & cs' & (g & f & oc & -> & Himp & Hnew & Hkeys) & Hnil & ->).
  apply Forall2_nil_inv_l in Hnil as ->.
  exists (context_of deploy_cfg kw rec g f), f, oc. split; [done|]. split.
  { apply heap_only_set_funcs in Hset.
    unfold get_context, bindM, retM, readM. simpl.
    rewrite Hset. simpl. rewrite Hcs. simpl. done. }
  split; [done|]. split; [done|]. split; [done|]. split; [exact Hkeys|].
  intros k _ _. simpl. rewrite lookup_union.
  by destruct (kwargs rec !! k), (kw !! k).
Qed.

Lemma get_context_by_path_witness :
  ∃ recs warns,
    PyDict.wf (_registry (rewriter sample_world)) ∧
    enter ∅ sample_env ∅ sample_world = (sample_entered, Ok tt) ∧
    get_records (_registry (rewriter sample_world)) sample_env
      = Ok (recs, warns) ∧
    ("pkg.mod.f", rec_f2) ∈ recs ∧
    Forall (λ item, qualname_differs sample_world "pkg.mod.f" (_object item.2))
      recs ∧
    ∃ ctx f oc,
      import_function sample_world "pkg.mod.f" = Ok (f, oc) ∧
      get_context sample_stack (Some "pkg.mod.f") sample_entered
        = (sample_entered, Ok (Some ctx)) ∧
      origin_func ctx = f ∧ heap sample_world !! func ctx = None ∧
      cfg ctx = ∅ ∧
      (∀ k, k ∈ refused_keywords → ctx_kwargs ctx !! k = None) ∧
      ∀ k, k ≠ "_object" → k ≠ "_checkers" →
        ctx_kwargs ctx !! k
        = match kwargs rec_f2 !! k with
          | Some v => Some v
          | None => (∅ : gmap string pyval) !! k
          end.
Proof.
  assert (PyDict.wf (_registry (rewriter sample_world))) as Hwf by by_computation.
  assert (enter ∅ sample_env ∅ sample_world = (sample_entered, Ok tt)) as Henter
    by (vm_compute; reflexivity).
  assert (get_records (_registry (rewriter sample_world)) sample_env
          = Ok ([("pkg.mod.C.meth", rec_meth2); ("pkg.mod.f", rec_f2)], []))
    as Hrecs by (vm_compute; reflexivity).
  assert (("pkg.mod.f", rec_f2)
          ∈ [("pkg.mod.C.meth", rec_meth2); ("pkg.mod.f", rec_f2)]) as Hin
    by by_computation.
  assert (Forall (λ item,
            qualname_differs sample_world "pkg.mod.f" (_object item.2))
            [("pkg.mod.C.meth", rec_meth2); ("pkg.mod.f", rec_f2)]) as Hq.
  { repeat constructor; eexists; (split; [vm_compute; reflexivity|]);
      vm_compute; discriminate. }
  eexists _, _. split; [exact Hwf|]. split; [exact Henter|].
  split; [exact Hrecs|]. split; [exact Hin|]. split; [exact Hq|].
  exact (get_context_by_path ∅ sample_env ∅ sample_world sample_entered _ _
           "pkg.mod.f" rec_f2 sample_stack sample_world_closed
           sample_targets_exist Hwf Henter Hrecs Hin Hq).
Defined.






